(** * bfx-facs-grc-slack: the error batching facility of [index.js]

    A shallow embedding of the [GrcSlack] class: the notifier ([message],
    [logError]), the fingerprinter ([_createErrorKey]), the enqueue path
    ([logErrorEnqueue]), the flush routine ([_processBatchedErrors]) and the
    formatter ([_sendBatchedErrorMessage]).

    Conventions of the embedding.
    - A JavaScript string is the list of its UTF-16 code units, so that
      [length] is the [.length] of the source and [firstn] its [slice (0, n)].
    - A JavaScript number that the code handles is an integer, a [Z].
    - A method that can throw, and an async method whose promise can reject,
      returns an [outcome]; the instance fields the methods mutate are
      threaded through a [state]. *)

From Stdlib Require Import String Ascii DecimalString.
From Stdlib Require Import List ZArith NArith Lia Bool.
Import ListNotations.

Set Implicit Arguments.
Set Warnings "-register-all".

(** ** Strings *)

Definition jsstring : Type := list N.

(** The code units of an ASCII literal of the source. *)
Definition u (s : string) : jsstring :=
  map N_of_ascii (list_ascii_of_string s).

Definition jsstring_eqb (a b : jsstring) : bool :=
  if list_eq_dec N.eq_dec a b then true else false.

(** [a.includes (b)] *)
Definition includes (a b : jsstring) : Prop :=
  exists pre post, a = pre ++ b ++ post.

(** Number to string conversion of an integer (a decimal numeral). *)
Definition dec_N (n : N) : jsstring :=
  u (NilZero.string_of_uint (N.to_uint n)).

Definition dec (z : Z) : jsstring :=
  match z with
  | Zneg p => u "-" ++ dec_N (Npos p)
  | _ => dec_N (Z.to_N z)
  end.

(** [String.prototype.slice (0, e)] for an integer [e]: a negative end
    counts from the end of the string. *)
Definition slice0 (s : jsstring) (e : Z) : jsstring :=
  if (e <? 0)%Z
  then firstn (Z.to_nat (Z.max (Z.of_nat (length s) + e) 0)) s
  else firstn (Z.to_nat e) s.

(** [Array.prototype.join] on strings. *)
Fixpoint join (sep : jsstring) (l : list jsstring) : jsstring :=
  match l with
  | [] => []
  | [x] => x
  | x :: rest => x ++ sep ++ join sep rest
  end.

(** ** SHA-1 over the UTF-8 encoding

    [createHash ('sha1').update (s).digest ('hex')] of Node's [crypto]:
    the string is encoded as UTF-8 (a lone surrogate becomes U+FFFD), hashed
    by SHA-1 (FIPS 180-4), and the 20 bytes are written as 40 lower-case
    hexadecimal digits. *)

Module Sha1.
Local Open Scope N_scope.

Definition is_high (c : N) : bool := (0xD800 <=? c) && (c <? 0xDC00).
Definition is_low (c : N) : bool := (0xDC00 <=? c) && (c <? 0xE000).

Definition replacement : list N := [0xEF; 0xBF; 0xBD].

Definition utf8_3 (c : N) : list N :=
  [N.lor 0xE0 (N.shiftr c 12);
   N.lor 0x80 (N.land (N.shiftr c 6) 0x3F);
   N.lor 0x80 (N.land c 0x3F)].

Definition utf8_4 (c : N) : list N :=
  [N.lor 0xF0 (N.shiftr c 18);
   N.lor 0x80 (N.land (N.shiftr c 12) 0x3F);
   N.lor 0x80 (N.land (N.shiftr c 6) 0x3F);
   N.lor 0x80 (N.land c 0x3F)].

Fixpoint utf8 (s : jsstring) : list N :=
  match s with
  | [] => []
  | c :: rest =>
      if c <? 0x80 then c :: utf8 rest
      else if c <? 0x800 then
        N.lor 0xC0 (N.shiftr c 6) :: N.lor 0x80 (N.land c 0x3F) :: utf8 rest
      else if is_high c then
        match rest with
        | d :: rest' =>
            if is_low d
            then utf8_4 (0x10000 + N.shiftl (c - 0xD800) 10 + (d - 0xDC00))
                   ++ utf8 rest'
            else replacement ++ utf8 rest
        | [] => replacement
        end
      else if is_low c then replacement ++ utf8 rest
      else utf8_3 c ++ utf8 rest
  end.

Definition w32 (x : N) : N := x mod 0x100000000.

Definition rotl (n x : N) : N :=
  w32 (N.lor (N.shiftl x n) (N.shiftr x (32 - n))).

Definition lnot32 (x : N) : N := 0xFFFFFFFF - x.

(** Big-endian bytes of [x], [n] of them. *)
Fixpoint be_bytes (n : nat) (x : N) : list N :=
  match n with
  | O => []
  | S n' => be_bytes n' (x / 256) ++ [x mod 256]
  end.

Definition pad (msg : list N) : list N :=
  let len := N.of_nat (length msg) in
  let zeros := N.to_nat ((119 - len mod 64) mod 64) in
  msg ++ [0x80] ++ repeat 0 zeros ++ be_bytes 8 (8 * len).

Fixpoint words (n : nat) (bytes : list N) : list N :=
  match n, bytes with
  | S n', a :: b :: c :: d :: rest =>
      (((a * 256 + b) * 256 + c) * 256 + d) :: words n' rest
  | _, _ => []
  end.

(** The message schedule, newest word first. *)
Fixpoint schedule (n : nat) (rev_w : list N) : list N :=
  match n with
  | O => rev_w
  | S n' =>
      let x := N.lxor (N.lxor (nth 2 rev_w 0) (nth 7 rev_w 0))
                      (N.lxor (nth 13 rev_w 0) (nth 15 rev_w 0)) in
      schedule n' (rotl 1 x :: rev_w)
  end.

Definition regs : Type := N * N * N * N * N.

Definition round (t : nat) (wt : N) (r : regs) : regs :=
  let '(a, b, c, d, e) := r in
  let '(f, k) :=
    if Nat.ltb t 20 then
      (N.lor (N.land b c) (N.land (lnot32 b) d), 0x5A827999)
    else if Nat.ltb t 40 then
      (N.lxor (N.lxor b c) d, 0x6ED9EBA1)
    else if Nat.ltb t 60 then
      (N.lor (N.lor (N.land b c) (N.land b d)) (N.land c d), 0x8F1BBCDC)
    else
      (N.lxor (N.lxor b c) d, 0xCA62C1D6) in
  (w32 (rotl 5 a + f + e + k + wt), a, rotl 30 b, c, d).

Fixpoint rounds (t : nat) (ws : list N) (r : regs) : regs :=
  match ws with
  | [] => r
  | wt :: rest => rounds (S t) rest (round t wt r)
  end.

Definition compress (h : regs) (block : list N) : regs :=
  let ws := rev (schedule 64 (rev (words 16 block))) in
  let '(a, b, c, d, e) := rounds 0 ws h in
  let '(h0, h1, h2, h3, h4) := h in
  (w32 (h0 + a), w32 (h1 + b), w32 (h2 + c), w32 (h3 + d), w32 (h4 + e)).

Fixpoint blocks (fuel : nat) (h : regs) (bytes : list N) : regs :=
  match fuel, bytes with
  | S fuel', _ :: _ => blocks fuel' (compress h (firstn 64 bytes)) (skipn 64 bytes)
  | _, _ => h
  end.

Definition init : regs :=
  (0x67452301, 0xEFCDAB89, 0x98BADCFE, 0x10325476, 0xC3D2E1F0).

Definition digest (msg : list N) : list N :=
  let p := pad msg in
  let '(h0, h1, h2, h3, h4) := blocks (length p) init p in
  be_bytes 4 h0 ++ be_bytes 4 h1 ++ be_bytes 4 h2 ++ be_bytes 4 h3
    ++ be_bytes 4 h4.

Definition hex_digit (n : N) : N :=
  if n <? 10 then 48 + n else 87 + n.

Definition hex (bytes : list N) : jsstring :=
  flat_map (fun b => [hex_digit (b / 16); hex_digit (b mod 16)]) bytes.
End Sha1.

Definition sha1_hex (s : jsstring) : jsstring :=
  Sha1.hex (Sha1.digest (Sha1.utf8 s)).


(** ** Values

    The values the facility is handed: primitives, arrays, plain objects
    (own enumerable data properties, in enumeration order; no accessor and no
    function-valued property) and [Error] instances (with the default name
    and a string [message]). Numbers are integers below 2^53 in absolute
    value, whose decimal numeral is what both number-to-string conversion
    and [JSON.stringify] print. *)

Inductive prim : Type :=
| PUndefined
| PNull
| PBool (b : bool)
| PNum (n : Z)
| PStr (s : jsstring).

Inductive value : Type :=
| VPrim (p : prim)
| VArr (items : list value)
| VObj (props : list (jsstring * value))
| VError (message : jsstring).

Definition VUndefined : value := VPrim PUndefined.
Definition VNull : value := VPrim PNull.
Definition VStr (s : jsstring) : value := VPrim (PStr s).
Definition VNum (n : Z) : value := VPrim (PNum n).

(** What a [throw] or a rejected promise carries. *)
Inductive exn : Type :=
| TypeError
| RangeError
| Rejected (reason : value).

Inductive outcome (A : Type) : Type :=
| Ok (a : A)
| Throw (e : exn).

Arguments Ok {A} a.
Arguments Throw {A} e.

Definition obind {A B : Type} (o : outcome A) (f : A -> outcome B) : outcome B :=
  match o with
  | Ok a => f a
  | Throw e => Throw e
  end.

Definition is_ok {A : Type} (o : outcome A) : bool :=
  match o with Ok _ => true | Throw _ => false end.

(** [ToBoolean] *)
Definition truthy (v : value) : bool :=
  match v with
  | VPrim PUndefined | VPrim PNull => false
  | VPrim (PBool b) => b
  | VPrim (PNum n) => negb (n =? 0)%Z
  | VPrim (PStr s) => match s with [] => false | _ => true end
  | _ => true
  end.

(** A string-or-undefined argument ([reqChannel], [sourceName], the string
    options of the configuration): [None] is [undefined]. *)
Definition truthy_str (o : option jsstring) : bool :=
  match o with
  | Some (_ :: _) => true
  | _ => false
  end.

Definition value_of (o : option jsstring) : value :=
  match o with
  | Some s => VStr s
  | None => VUndefined
  end.

(** [`${o}`] *)
Definition tmpl (o : option jsstring) : jsstring :=
  match o with
  | Some s => s
  | None => u "undefined"
  end.

(** [o || d] on strings and on numbers *)
Definition or_str (o : option jsstring) (d : jsstring) : jsstring :=
  match o with
  | Some (c :: s) => c :: s
  | _ => d
  end.

Definition or_num (o : option Z) (d : Z) : Z :=
  match o with
  | Some n => if (n =? 0)%Z then d else n
  | None => d
  end.

Fixpoint lookup (k : jsstring) (props : list (jsstring * value)) : option value :=
  match props with
  | [] => None
  | (k', v) :: rest => if jsstring_eqb k k' then Some v else lookup k rest
  end.

(** [v.message] of a value that is neither [undefined] nor [null] *)
Definition message_of (v : value) : value :=
  match v with
  | VObj props =>
      match lookup (u "message") props with
      | Some m => m
      | None => VUndefined
      end
  | VError m => VStr m
  | _ => VUndefined
  end.

Definition nullish (v : value) : bool :=
  match v with
  | VPrim PUndefined | VPrim PNull => true
  | _ => false
  end.

(** [v.message]: a [TypeError] on [undefined] and [null] *)
Definition get_message (v : value) : outcome value :=
  if nullish v then Throw TypeError else Ok (message_of v).

(** [ToString] of a primitive *)
Definition prim_to_string (p : prim) : jsstring :=
  match p with
  | PUndefined => u "undefined"
  | PNull => u "null"
  | PBool true => u "true"
  | PBool false => u "false"
  | PNum n => dec n
  | PStr s => s
  end.

(** [Error.prototype.toString] with the default name *)
Definition error_to_string (m : jsstring) : jsstring :=
  match m with
  | [] => u "Error"
  | _ => u "Error: " ++ m
  end.

(** [ToString]: an array joins its elements ([undefined] and [null] as the
    empty string); a plain object is [[object Object]] through
    [Object.prototype.toString], unless an own data property shadows
    [toString], which is then not callable: a [TypeError]. *)
Fixpoint ToString (v : value) : outcome jsstring :=
  match v with
  | VPrim p => Ok (prim_to_string p)
  | VArr items =>
      obind
        ((fix elements (l : list value) : outcome (list jsstring) :=
            match l with
            | [] => Ok []
            | x :: rest =>
                obind (if nullish x then Ok [] else ToString x) (fun s =>
                obind (elements rest) (fun ss => Ok (s :: ss)))
            end) items)
        (fun ss => Ok (join (u ",") ss))
  | VObj props =>
      match lookup (u "toString") props with
      | Some _ => Throw TypeError
      | None => Ok (u "[object Object]")
      end
  | VError m => Ok (error_to_string m)
  end.

(** [v.toString ()] of a value that is neither [undefined] nor [null] *)
Definition call_toString (v : value) : outcome jsstring := ToString v.

Definition instanceof_Object (v : value) : bool :=
  match v with
  | VPrim _ => false
  | _ => true
  end.

Definition instanceof_Error (v : value) : bool :=
  match v with
  | VError _ => true
  | _ => false
  end.

(** [typeof v === 'object'] *)
Definition typeof_object (v : value) : bool :=
  match v with
  | VPrim PNull => true
  | VPrim _ => false
  | _ => true
  end.

(** ** JSON.stringify *)

Module Json.
Local Open Scope N_scope.

Definition hex4 (c : N) : jsstring :=
  [Sha1.hex_digit (c / 4096 mod 16); Sha1.hex_digit (c / 256 mod 16);
   Sha1.hex_digit (c / 16 mod 16); Sha1.hex_digit (c mod 16)].

Definition escape_unit (c : N) : jsstring :=
  if c =? 8 then u "\b"
  else if c =? 9 then u "\t"
  else if c =? 10 then u "\n"
  else if c =? 12 then u "\f"
  else if c =? 13 then u "\r"
  else if c =? 34 then [92; 34]
  else if c =? 92 then [92; 92]
  else if c <? 32 then u "\u" ++ hex4 c
  else [c].

(** The characters between the quotes: a surrogate pair is kept, a lone
    surrogate is written as an escape. *)
Fixpoint escape (s : jsstring) : jsstring :=
  match s with
  | [] => []
  | c :: rest =>
      if Sha1.is_high c then
        match rest with
        | d :: rest' =>
            if Sha1.is_low d then c :: d :: escape rest'
            else u "\u" ++ hex4 c ++ escape rest
        | [] => u "\u" ++ hex4 c
        end
      else if Sha1.is_low c then u "\u" ++ hex4 c ++ escape rest
      else escape_unit c ++ escape rest
  end.

Definition quote (s : jsstring) : jsstring := [34] ++ escape s ++ [34].

(** [JSON.stringify (v)]; [None] is [undefined]. An [Error] has no
    enumerable own property. *)
Fixpoint stringify (v : value) : option jsstring :=
  match v with
  | VPrim PUndefined => None
  | VPrim PNull => Some (u "null")
  | VPrim (PBool b) => Some (prim_to_string (PBool b))
  | VPrim (PNum n) => Some (dec n)
  | VPrim (PStr s) => Some (quote s)
  | VArr items =>
      Some (u "[" ++
            join (u ",")
              ((fix elements (l : list value) : list jsstring :=
                  match l with
                  | [] => []
                  | x :: rest =>
                      match stringify x with
                      | Some s => s
                      | None => u "null"
                      end :: elements rest
                  end) items)
            ++ u "]")
  | VObj props =>
      Some (u "{" ++
            join (u ",")
              ((fix members (l : list (jsstring * value)) : list jsstring :=
                  match l with
                  | [] => []
                  | (k, x) :: rest =>
                      match stringify x with
                      | Some s => (quote k ++ u ":" ++ s) :: members rest
                      | None => members rest
                      end
                  end) props)
            ++ u "}")
  | VError _ => Some (u "{}")
  end.
End Json.

(** ** Configuration, transport and instance state *)

Record errorBatchingConf : Type := {
  interval : option Z;
  maxSize : option Z;
  maxMessageLength : option Z
}.

(** [this.conf] *)
Record conf : Type := {
  enable : bool;
  worker : option jsstring;
  max_length : option Z;
  channel : option jsstring;
  env : option jsstring;
  errorBatching : option errorBatchingConf
}.

(** One outbound call [grc_bfx.req (worker, action, [{ channel, text }],
    { timeout })]. *)
Record request : Type := {
  req_worker : jsstring;
  req_action : jsstring;
  req_channel : option jsstring;
  req_text : jsstring;
  req_timeout : Z
}.

(** What the methods do that a caller or a test spy can observe. *)
Inductive event : Type :=
| ConsoleError (what : string)
| LogErrorCall (reqChannel : option jsstring) (err : value) (extra : list value)
| Request (r : request).

(** What the facility does not decide: the answer of the transport to a
    request (which may depend on all that happened before), and the text
    that Node's [util.inspect] and [util.format] print. *)
Record world : Type := {
  req : list event -> request -> outcome value;
  inspect : value -> jsstring;
  format : list value -> jsstring
}.

(** One [{ payload, extras }] of an entry's window. *)
Record item : Type := {
  payload : value;
  extras : list value
}.

(** An entry of the batch. [ref] is the identity of the JavaScript object,
    which [Array.prototype.indexOf] compares. *)
Record entry : Type := {
  ref : nat;
  errorMessage : value;
  sourceName : option jsstring;
  reqChannel : option jsstring;
  payloads : list item;
  count : Z;
  firstSeen : Z;
  lastSeen : Z
}.

(** Modelled from the spec: the bounded cache ([opts.lru], a [bfx-facs-lru]
    instance) is not among the sources. It is a mapping from fingerprint to
    entry, kept in insertion order, the order in which
    [Object.values (cache.cache)] lists it; [get], [set], [clear] and
    [cache.length] are the operations the facility uses. Eviction by age or
    capacity is the cache's own business and is not modelled: an evicted
    fingerprint starts over as a new one. *)
Definition store : Type := list (jsstring * entry).

Section Assoc.
Variable A : Type.

Fixpoint assoc_get (k : jsstring) (l : list (jsstring * A)) : option A :=
  match l with
  | [] => None
  | (k', a) :: rest => if jsstring_eqb k k' then Some a else assoc_get k rest
  end.

Definition assoc_has (k : jsstring) (l : list (jsstring * A)) : bool :=
  match assoc_get k l with Some _ => true | None => false end.

(** In-place mutation of the object stored under [k]. *)
Fixpoint assoc_modify (k : jsstring) (f : A -> A) (l : list (jsstring * A))
  : list (jsstring * A) :=
  match l with
  | [] => []
  | (k', a) :: rest =>
      if jsstring_eqb k k' then (k', f a) :: rest
      else (k', a) :: assoc_modify k f rest
  end.

(** [set]: a new key goes last, a known key keeps its place. *)
Definition assoc_set (k : jsstring) (a : A) (l : list (jsstring * A))
  : list (jsstring * A) :=
  if assoc_has k l then assoc_modify k (fun _ => a) l else l ++ [(k, a)].
End Assoc.

(** The instance: [this._errorBatch] ([None] when batching was not
    initialised), the next unused object identity, and the trace of what
    happened so far. *)
Record state : Type := {
  errorBatch : option store;
  fresh : nat;
  trace : list event
}.

(** ** Methods as state transformers *)

Definition M (A : Type) : Type := state -> outcome A * state.

Definition ret {A : Type} (a : A) : M A := fun st => (Ok a, st).

Definition throw {A : Type} (e : exn) : M A := fun st => (Throw e, st).

Definition lift {A : Type} (o : outcome A) : M A := fun st => (o, st).

Definition bind {A B : Type} (m : M A) (f : A -> M B) : M B :=
  fun st =>
    match m st with
    | (Ok a, st') => f a st'
    | (Throw e, st') => (Throw e, st')
    end.

Declare Scope js_scope.
Delimit Scope js_scope with js.
Notation "x <- m ;; k" := (bind m (fun x => k))
  (at level 100, m at next level, right associativity) : js_scope.
Notation "m ;; k" := (bind m (fun _ => k))
  (at level 100, right associativity) : js_scope.
Open Scope js_scope.

(** [try { m } catch (e) { h e }] *)
Definition try_catch {A : Type} (m : M A) (h : exn -> M A) : M A :=
  fun st =>
    match m st with
    | (Ok a, st') => (Ok a, st')
    | (Throw e, st') => h e st'
    end.

(** [try { m } finally { f }] *)
Definition try_finally {A : Type} (m : M A) (f : M unit) : M A :=
  fun st =>
    let (r, st') := m st in
    match f st' with
    | (Ok _, st'') => (r, st'')
    | (Throw e, st'') => (Throw e, st'')
    end.

(** [for (const x of l) { body x }], each turn awaited before the next *)
Fixpoint for_of {A : Type} (l : list A) (body : A -> M unit) : M unit :=
  match l with
  | [] => ret tt
  | x :: rest => body x ;; for_of rest body
  end.

Definition emit (ev : event) : M unit :=
  fun st =>
    (Ok tt, {| errorBatch := errorBatch st; fresh := fresh st;
               trace := trace st ++ [ev] |}).

Definition console_error (what : string) : M unit := emit (ConsoleError what).

Definition set_store (s : store) : M unit :=
  fun st =>
    (Ok tt, {| errorBatch := Some s; fresh := fresh st; trace := trace st |}).

(** The cache of an initialised instance; a property access on
    [undefined] otherwise. *)
Definition the_store : M store :=
  fun st =>
    match errorBatch st with
    | Some s => (Ok s, st)
    | None => (Throw TypeError, st)
    end.

Definition new_ref : M nat :=
  fun st =>
    (Ok (fresh st),
     {| errorBatch := errorBatch st; fresh := S (fresh st); trace := trace st |}).

(** ** The notifier *)

Definition grc_req (w : world) (r : request) : M value :=
  fun st =>
    (req w (trace st) r,
     {| errorBatch := errorBatch st; fresh := fresh st;
        trace := trace st ++ [Request r] |}).

Definition message (w : world) (c : conf)
  (reqChannel : option jsstring) (message : jsstring) : M value :=
  if negb (enable c) then ret (VPrim (PBool false))
  else
    let slack := c in
    let worker := or_str (worker slack) (u "rest:ext:slack") in
    let maxLength := or_num (max_length slack) 1024 in
    let env :=
      if truthy_str (env slack) then u "Env: " ++ tmpl (env slack) ++ u ", "
      else [] in
    let rawText := env ++ message in
    let text :=
      if (maxLength <? Z.of_nat (length rawText))%Z
      then slice0 rawText maxLength
      else rawText in
    let channel := if truthy_str reqChannel then reqChannel else channel slack in
    grc_req w {| req_worker := worker; req_action := u "postSlackMsg";
                 req_channel := channel; req_text := text;
                 req_timeout := 10000 |}.

Definition logError (w : world) (c : conf)
  (reqChannel : option jsstring) (err : value) (extra : list value) : M value :=
  emit (LogErrorCall reqChannel err extra) ;;
  let error :=
    match err with
    | VPrim p => prim_to_string p
    | _ => inspect w err
    end in
  let extraP :=
    match extra with
    | [] => []
    | _ =>
        u "Extra: "
          ++ format w (map (fun el => if typeof_object el
                                      then VStr (inspect w el) else el) extra)
          ++ u ", "
    end in
  let errTag := if instanceof_Error err then [] else u "Error: " in
  message w c reqChannel (extraP ++ errTag ++ error).

(** ** The fingerprinter *)

Definition _createErrorGroupKey (reqChannel sourceName : option jsstring)
  : jsstring :=
  tmpl reqChannel ++ u ":" ++ tmpl sourceName.

(** [hash.update (data)] accepts a string (or a buffer, which no value
    here is) and throws a [TypeError] on anything else. *)
Definition hash_update (data : value) : outcome jsstring :=
  match data with
  | VPrim (PStr s) => Ok s
  | _ => Throw TypeError
  end.

(** [err?.message || err?.toString () || 'Unknown error'] *)
Definition errorMsg_of (err : value) : outcome value :=
  if nullish err then Ok (VStr (u "Unknown error"))
  else if truthy (message_of err) then Ok (message_of err)
  else
    obind (call_toString err) (fun s =>
    Ok (VStr (match s with [] => u "Unknown error" | _ => s end))).

Definition _createErrorKey (reqChannel : option jsstring) (err : value)
  (sourceName : option jsstring) : outcome jsstring :=
  let sourceName :=
    match sourceName with None => Some (u "unknown") | _ => sourceName end in
  obind (errorMsg_of err) (fun errorMsg =>
  obind (hash_update errorMsg) (fun data =>
  let hash := sha1_hex data in
  Ok (_createErrorGroupKey reqChannel sourceName ++ u ":" ++ hash))).

(** ** Enqueue *)

Definition push_payload (now : Z) (it : item) (e : entry) : entry :=
  let payloads := payloads e ++ [it] in
  {| ref := ref e;
     errorMessage := errorMessage e;
     sourceName := sourceName e;
     reqChannel := reqChannel e;
     payloads := if Nat.ltb 3 (length payloads) then tl payloads else payloads;
     count := count e + 1;
     firstSeen := firstSeen e;
     lastSeen := now |}.

(** [now] is what [new Date ()] reads when the call is made. *)
Definition logErrorEnqueue (w : world) (c : conf) (now : Z)
  (reqChannel : option jsstring) (err : value) (sourceName : option jsstring)
  (payload : value) (extra : list value) : M value :=
  fun st =>
    match errorBatch st with
    | None =>
        (console_error "Error batching not initialized, falling back to direct log" ;;
         logError w c reqChannel err (value_of sourceName :: payload :: extra)) st
    | Some _ =>
        let reqChannel :=
          if truthy_str reqChannel then reqChannel else channel c in
        try_catch
          (errorKey <- lift (_createErrorKey reqChannel err sourceName) ;;
           batch <- the_store ;;
           match assoc_get errorKey batch with
           | None =>
               errorMessage <- lift (get_message err) ;;
               r <- new_ref ;;
               let errorEntry :=
                 {| ref := r;
                    errorMessage := errorMessage;
                    sourceName := sourceName;
                    reqChannel := reqChannel;
                    payloads := [{| payload := payload; extras := extra |}];
                    count := 1;
                    firstSeen := now;
                    lastSeen := now |} in
               set_store (assoc_set errorKey errorEntry batch) ;;
               ret VUndefined
           | Some _ =>
               set_store
                 (assoc_modify errorKey
                    (push_payload now {| payload := payload; extras := extra |})
                    batch) ;;
               ret VUndefined
           end)
          (fun e =>
             console_error "Error batching failed, falling back to direct log" ;;
             logError w c reqChannel err (value_of sourceName :: payload :: extra) ;;
             ret VUndefined)
          st
    end.

(** [reqChannel] after [if (!reqChannel) reqChannel = this.conf.channel] *)
Definition channel_or_default (c : conf) (reqChannel : option jsstring)
  : option jsstring :=
  if truthy_str reqChannel then reqChannel else channel c.

(** The entry that a first occurrence creates. *)
Definition new_entry (r : nat) (now : Z) (reqChannel : option jsstring)
  (err : value) (sourceName : option jsstring) (payload : value)
  (extra : list value) : entry :=
  {| ref := r;
     errorMessage := message_of err;
     sourceName := sourceName;
     reqChannel := reqChannel;
     payloads := [{| payload := payload; extras := extra |}];
     count := 1;
     firstSeen := now;
     lastSeen := now |}.

(** ** The formatter *)

(** A time in milliseconds, or one of the infinities the aggregation
    starts from. *)
Inductive num : Type :=
| NegInfinity
| Fin (z : Z)
| Infinity.

Definition num_ltb (a b : num) : bool :=
  match a, b with
  | NegInfinity, NegInfinity => false
  | NegInfinity, _ => true
  | Fin x, Fin y => (x <? y)%Z
  | Fin _, Infinity => true
  | _, _ => false
  end.

Definition num_eqb (a b : num) : bool :=
  match a, b with
  | NegInfinity, NegInfinity => true
  | Fin x, Fin y => (x =? y)%Z
  | Infinity, Infinity => true
  | _, _ => false
  end.

(** [new Date (t)]: [None] is the invalid date. *)
Definition new_Date (t : num) : option Z :=
  match t with
  | Fin z => if (Z.abs z <=? 8640000000000000)%Z then Some z else None
  | _ => None
  end.

Definition two_digits (n : Z) : jsstring :=
  if (n <? 10)%Z then u "0" ++ dec n else dec n.

(** Modelled from the spec: [formatTime] of [utils/date-time], which is
    not among the sources. The spec has it render [HH:MM:SS] in UTC; on an
    invalid date it is taken to throw the [RangeError] of
    [Date.prototype.toISOString], on which the formatter of the earlier
    revision was built. *)
Definition formatTime (d : option Z) : outcome jsstring :=
  match d with
  | None => Throw RangeError
  | Some t =>
      let ms := (t mod 86400000)%Z in
      Ok (two_digits (ms / 3600000) ++ u ":"
          ++ two_digits (ms / 60000 mod 60) ++ u ":"
          ++ two_digits (ms / 1000 mod 60))
  end.

Definition _formatTimeRange (earliestTime latestTime : num) : outcome jsstring :=
  let earliest := new_Date earliestTime in
  let latest := new_Date latestTime in
  if num_eqb earliestTime latestTime then formatTime earliest
  else
    obind (formatTime earliest) (fun a =>
    obind (formatTime latest) (fun b => Ok (a ++ u " - " ++ b))).

Definition nl : jsstring := [10%N].

(** The three characters that open the line of an error type in
    [index.js]. *)
Definition bullet : jsstring := [226%N; 8364%N; 162%N].

(** [errors.indexOf (error)], the objects compared by identity *)
Fixpoint indexOf (errors : list entry) (error : entry) : Z :=
  match errors with
  | [] => -1
  | e :: rest =>
      if Nat.eqb (ref e) (ref error) then 0
      else
        let i := indexOf rest error in
        if (i <? 0)%Z then -1 else i + 1
  end.

(** [this.conf.errorBatching?.maxMessageLength || 4000] *)
Definition messageLimit (c : conf) : Z :=
  or_num (match errorBatching c with
          | Some b => maxMessageLength b
          | None => None
          end) 4000.

Definition payloadStr (it : item) : jsstring :=
  u "    - " ++ tmpl (Json.stringify (payload it)) ++ nl
    ++ match extras it with
       | [] => []
       | _ => u "     Extras: " ++ tmpl (Json.stringify (VArr (extras it))) ++ nl
       end.

Definition truncation_marker (errors : list entry) (error : entry) : jsstring :=
  nl ++ u "... message truncated ("
     ++ dec (Z.of_nat (length errors) - indexOf errors error)
     ++ u " more error types)".

(** The inner loop over [error.payloads]: the message, and whether it was
    truncated. *)
Fixpoint render_payloads (limit : Z) (marker : jsstring) (message : jsstring)
  (items : list item) : jsstring * bool :=
  match items with
  | [] => (message, false)
  | it :: rest =>
      let payloadStr := payloadStr it in
      if (limit <? Z.of_nat (length message + length payloadStr))%Z
      then (message ++ marker, true)
      else render_payloads limit marker (message ++ payloadStr) rest
  end.

Definition type_heading (em : jsstring) (error : entry) : jsstring :=
  (bullet ++ u " *" ++ em ++ u "* (" ++ dec (count error) ++ u "x)" ++ nl)
    ++ (u "  Payloads:" ++ nl).

(** The outer loop over [errors.slice (0, 10)]. *)
Fixpoint render_errors (limit : Z) (errors : list entry) (message : jsstring)
  (todo : list entry) : outcome (jsstring * bool) :=
  match todo with
  | [] => Ok (message, false)
  | error :: rest =>
      obind (ToString (errorMessage error)) (fun em =>
      let message := message ++ type_heading em error in
      let (message, truncated) :=
        render_payloads limit (truncation_marker errors error) message
          (payloads error) in
      if truncated then Ok (message, true)
      else render_errors limit errors message rest)
  end.

Definition report_heading (sourceName : option jsstring) (errors : list entry)
  (totalErrors : Z) (timeRange : jsstring) : jsstring :=
  (u "*Batched Error Report - " ++ tmpl sourceName ++ u "*" ++ nl)
    ++ (u "*Summary:* " ++ dec totalErrors ++ u " errors across "
          ++ dec (Z.of_nat (length errors)) ++ u " types (" ++ timeRange
          ++ u ")" ++ nl ++ nl).

Definition more_types_note (errors : list entry) : jsstring :=
  nl ++ u "... and " ++ dec (Z.of_nat (length errors) - 10)
     ++ u " more error types".

(** The text that [_sendBatchedErrorMessage] hands to [logError]. *)
Definition batched_report (c : conf) (sourceName : option jsstring)
  (errors : list entry) (totalErrors : Z) (timeRange : jsstring)
  : outcome jsstring :=
  let message := report_heading sourceName errors totalErrors timeRange in
  obind (render_errors (messageLimit c) errors message (firstn 10 errors))
    (fun '(message, truncated) =>
       if Nat.ltb 10 (length errors) && negb truncated
       then Ok (message ++ more_types_note errors)
       else Ok message).

Definition _sendBatchedErrorMessage (w : world) (c : conf)
  (reqChannel sourceName : option jsstring) (errors : list entry)
  (totalErrors : Z) (earliestTime latestTime : num) : M unit :=
  timeRange <- lift (_formatTimeRange earliestTime latestTime) ;;
  message <- lift (batched_report c sourceName errors totalErrors timeRange) ;;
  logError w c reqChannel (VStr message) [] ;;
  ret tt.

(** ** The flush *)

Record group : Type := {
  errors : list entry;
  totalCount : Z;
  earliestTime : num;
  latestTime : num
}.

Definition empty_group : group :=
  {| errors := []; totalCount := 0;
     earliestTime := Infinity; latestTime := NegInfinity |}.

Definition add_entry (errorEntry : entry) (g : group) : group :=
  let firstTime := Fin (firstSeen errorEntry) in
  let lastTime := Fin (lastSeen errorEntry) in
  {| errors := errors g ++ [errorEntry];
     totalCount := totalCount g + count errorEntry;
     earliestTime :=
       if num_ltb firstTime (earliestTime g) then firstTime else earliestTime g;
     latestTime :=
       if num_ltb (latestTime g) lastTime then lastTime else latestTime g |}.

(** One turn of the loop that fills the [errorGroups] map. *)
Definition group_step (errorGroups : list (jsstring * group))
  (errorEntry : entry) : list (jsstring * group) :=
  let groupKey :=
    _createErrorGroupKey (reqChannel errorEntry) (sourceName errorEntry) in
  let errorGroups :=
    if assoc_has groupKey errorGroups then errorGroups
    else assoc_set groupKey empty_group errorGroups in
  assoc_modify groupKey (add_entry errorEntry) errorGroups.

Definition group_entries (allEntries : list entry) : list (jsstring * group) :=
  fold_left group_step allEntries [].

Definition send_group (w : world) (c : conf) (g : group) : M unit :=
  match errors g with
  | [] => throw TypeError
  | first :: _ =>
      _sendBatchedErrorMessage w c (reqChannel first) (sourceName first)
        (errors g) (totalCount g) (earliestTime g) (latestTime g)
  end.

Definition _processBatchedErrors (w : world) (c : conf) : M unit :=
  fun st =>
    match errorBatch st with
    | None => (Ok tt, st)
    | Some [] => (Ok tt, st)
    | Some batch =>
        try_finally
          (try_catch
             (let errorGroups := group_entries (map snd batch) in
              for_of (map snd errorGroups) (send_group w c))
             (fun e => console_error "Failed to process batched errors"))
          (set_store [])
          st
    end.

(** ** Sequences of calls *)

(** The arguments of one call of [logErrorEnqueue], and the time at which
    it is made. *)
Record call : Type := {
  call_now : Z;
  call_channel : option jsstring;
  call_err : value;
  call_source : option jsstring;
  call_payload : value;
  call_extra : list value
}.

Definition enqueue (w : world) (c : conf) (k : call) : M value :=
  logErrorEnqueue w c (call_now k) (call_channel k) (call_err k)
    (call_source k) (call_payload k) (call_extra k).

(** The calls made one after the other, each awaited; a rejected call does
    not stop the caller here. *)
Fixpoint enqueue_all (w : world) (c : conf) (calls : list call) (st : state)
  : state :=
  match calls with
  | [] => st
  | k :: rest => enqueue_all w c rest (snd (enqueue w c k st))
  end.

(** The fingerprint under which a call is queued. *)
Definition fingerprint (c : conf) (k : call) : outcome jsstring :=
  _createErrorKey (channel_or_default c (call_channel k)) (call_err k)
    (call_source k).

(** What a call contributes to the window of its entry. *)
Definition contribution (k : call) : item :=
  {| payload := call_payload k; extras := call_extra k |}.

(** The last [n] elements, in order. *)
Definition lastn {A : Type} (n : nat) (l : list A) : list A :=
  skipn (length l - n) l.

(** ** The parts of a report *)

(** The lines of some payloads of a window, one after the other. *)
Definition payload_lines (items : list item) : jsstring :=
  flat_map payloadStr items.

(** An error type rendered in full: its two heading lines and the lines of
    its whole window. *)
Definition type_block (error : entry) : jsstring :=
  match ToString (errorMessage error) with
  | Ok em => type_heading em error ++ payload_lines (payloads error)
  | Throw _ => []
  end.

Definition type_blocks (errors : list entry) : jsstring :=
  flat_map type_block errors.

(** The marker of a report truncated at the type of index [i]. *)
Definition marker_at (errors : list entry) (i : nat) : jsstring :=
  nl ++ u "... message truncated ("
     ++ dec (Z.of_nat (length errors) - Z.of_nat i)
     ++ u " more error types)".

(** The text of a report, or the empty string when rendering threw. *)
Definition text_of (o : outcome jsstring) : jsstring :=
  match o with
  | Ok s => s
  | Throw _ => []
  end.

(** ** What a flush is expected to dispatch *)

(** The key under which the flush groups an entry. *)
Definition group_key (e : entry) : jsstring :=
  _createErrorGroupKey (reqChannel e) (sourceName e).

(** [k] occurs in [keys] *)
Definition occurs (k : jsstring) (keys : list jsstring) : bool :=
  existsb (jsstring_eqb k) keys.

(** The keys without repetition, in the order of their first occurrence. *)
Fixpoint distinct (keys : list jsstring) : list jsstring :=
  match keys with
  | [] => []
  | k :: rest => k :: filter (fun k' => negb (jsstring_eqb k' k)) (distinct rest)
  end.

(** The entries grouped under [k], in the order of the store. *)
Definition members_of (k : jsstring) (entries : list entry) : list entry :=
  filter (fun e => jsstring_eqb (group_key e) k) entries.

(** The group made of some entries: their list, the sum of their counts
    and the range of their times. *)
Definition group_of (members : list entry) : group :=
  fold_left (fun g e => add_entry e g) members empty_group.

(** The report of a group, as [_sendBatchedErrorMessage] renders it from
    what the flush passes. *)
Definition group_report (c : conf) (g : group) : outcome jsstring :=
  match errors g with
  | [] => Throw TypeError
  | first :: _ =>
      obind (_formatTimeRange (earliestTime g) (latestTime g)) (fun timeRange =>
      batched_report c (sourceName first) (errors g) (totalCount g) timeRange)
  end.

(** The calls of [logError] in a trace: channel, error and extras. *)
Definition logged (tr : list event)
  : list (option jsstring * value * list value) :=
  flat_map (fun ev => match ev with
                      | LogErrorCall ch err extra => [(ch, err, extra)]
                      | _ => []
                      end) tr.

(** A time that [new Date] accepts. *)
Definition valid_time (t : Z) : Prop := (Z.abs t <= 8640000000000000)%Z.

(** The pair by which an entry is to be grouped. *)
Definition pair_of (e : entry) : option jsstring * option jsstring :=
  (reqChannel e, sourceName e).

Definition opt_eqb (a b : option jsstring) : bool :=
  match a, b with
  | Some x, Some y => jsstring_eqb x y
  | None, None => true
  | _, _ => false
  end.

Definition same_pair (p : option jsstring * option jsstring) (e : entry) : bool :=
  opt_eqb (fst p) (reqChannel e) && opt_eqb (snd p) (sourceName e).

(** The entries of a pair, in the order of the store. *)
Definition entries_of_pair (p : option jsstring * option jsstring)
  (entries : list entry) : list entry :=
  filter (same_pair p) entries.

(** The call of [logError] that reports the entries of the pair [p]: the
    channel of the pair and the report of their group. *)
Definition pair_dispatch (c : conf) (entries : list entry)
  (p : option jsstring * option jsstring)
  : option jsstring * value * list value :=
  (fst p,
   VStr (text_of (group_report c (group_of (entries_of_pair p entries)))),
   []).

(** The call of [logError] that dispatches a group: the channel of its
    first entry and its report. *)
Definition group_dispatch (c : conf) (g : group)
  : option jsstring * value * list value :=
  (match errors g with
   | first :: _ => reqChannel first
   | [] => None
   end,
   VStr (text_of (group_report c g)),
   []).

(** ** The entries that the enqueue path makes *)

(** An entry as [logErrorEnqueue] leaves it: an object allocated before
    [bound], a message that converts to a string, and a window of one to
    three pairs. *)
Definition entry_ok (bound : nat) (e : entry) : Prop :=
  (ref e < bound)%nat
  /\ is_ok (ToString (errorMessage e)) = true
  /\ payloads e <> []
  /\ (length (payloads e) <= 3)%nat.

(** A store of such entries, each a distinct object under its own key. *)
Definition store_ok (st : state) : Prop :=
  forall batch,
    errorBatch st = Some batch ->
    NoDup (map fst batch)
    /\ NoDup (map (fun kv => ref (snd kv)) batch)
    /\ forall k e, In (k, e) batch -> entry_ok (fresh st) e.

(** ** The fixtures of the test-suite *)

Definition mockConf : conf :=
  {| enable := true;
     worker := Some (u "rest:ext:slack");
     max_length := Some 1024%Z;
     channel := Some (u "default-channel");
     env := Some (u "test");
     errorBatching :=
       Some {| interval := Some 5000%Z; maxSize := Some 10%Z;
               maxMessageLength := Some 4000%Z |} |}.

(** Stand-ins for the printers of Node's [util]; no statement below looks
    into the text they print. *)
Definition plain_inspect (v : value) : jsstring := tmpl (Json.stringify v).

Definition plain_format (l : list value) : jsstring :=
  join (u " ")
    (map (fun v => match v with
                   | VPrim p => prim_to_string p
                   | _ => plain_inspect v
                   end) l).

(** [req: jest.fn ().mockResolvedValue ({ success: true })] *)
Definition resolving : world :=
  {| req := fun _ _ => Ok (VObj [(u "success", VPrim (PBool true))]);
     inspect := plain_inspect;
     format := plain_format |}.

(** A transport that rejects every request. *)
Definition rejecting : world :=
  {| req := fun _ _ => Throw (Rejected (VError (u "Send error")));
     inspect := plain_inspect;
     format := plain_format |}.

(** An instance built with [errorBatching] and an [lru], and one built
    without. *)
Definition batching_instance : state :=
  {| errorBatch := Some []; fresh := 0; trace := [] |}.

Definition plain_instance : state :=
  {| errorBatch := None; fresh := 0; trace := [] |}.

(** The configuration with another [errorBatching.maxSize]. *)
Definition with_maxSize (m : option Z) (c : conf) : conf :=
  {| enable := enable c;
     worker := worker c;
     max_length := max_length c;
     channel := channel c;
     env := env c;
     errorBatching :=
       match errorBatching c with
       | Some b =>
           Some {| interval := interval b; maxSize := m;
                   maxMessageLength := maxMessageLength b |}
       | None => None
       end |}.

(** The configuration with another [enable]. *)
Definition with_enable (b : bool) (c : conf) : conf :=
  {| enable := b;
     worker := worker c;
     max_length := max_length c;
     channel := channel c;
     env := env c;
     errorBatching := errorBatching c |}.

(** The configuration with another [errorBatching.maxMessageLength]. *)
Definition with_maxMessageLength (n : option Z) (c : conf) : conf :=
  {| enable := enable c;
     worker := worker c;
     max_length := max_length c;
     channel := channel c;
     env := env c;
     errorBatching :=
       match errorBatching c with
       | Some b =>
           Some {| interval := interval b; maxSize := maxSize b;
                   maxMessageLength := n |}
       | None => None
       end |}.

(** [logErrorEnqueue (channel, new Error (text), source, { to })] at time
    [now] *)
Definition test_call (now : Z) (chan text source dest : string) : call :=
  {| call_now := now;
     call_channel := Some (u chan);
     call_err := VError (u text);
     call_source := Some (u source);
     call_payload := VObj [(u "to", VStr (u dest))];
     call_extra := [] |}.

(** The entry that [logErrorEnqueue ('test', new Error (text), 'testFunc',
    { to })] creates as the object number [r]. *)
Definition test_entry (r : nat) (text dest : string) : entry :=
  new_entry r 1000 (Some (u "test")) (VError (u text)) (Some (u "testFunc"))
    (VObj [(u "to", VStr (u dest))]) [].

(** ** Runs of an instance *)

(** What happens to an instance between its construction and its stop:
    a caller enqueues an error, or the timer fires and the batch is
    flushed; each is awaited before the next. *)
Inductive op : Type :=
| Enqueue (k : call)
| Flush
| Message (reqChannel : option jsstring) (text : jsstring)
| LogError (reqChannel : option jsstring) (err : value) (extra : list value).

Definition step (w : world) (c : conf) (o : op) (st : state) : state :=
  match o with
  | Enqueue k => snd (enqueue w c k st)
  | Flush => snd (_processBatchedErrors w c st)
  | Message reqChannel text => snd (message w c reqChannel text st)
  | LogError reqChannel err extra => snd (logError w c reqChannel err extra st)
  end.

Fixpoint run (w : world) (c : conf) (ops : list op) (st : state) : state :=
  match ops with
  | [] => st
  | o :: rest => run w c rest (step w c o st)
  end.

(** The requests handed to the transport in a trace. *)
Definition requests (tr : list event) : list request :=
  flat_map (fun ev => match ev with
                      | Request r => [r]
                      | _ => []
                      end) tr.

(** A computation that only appends to the trace, and only events that
    satisfy [Q]. *)
Definition appends {A : Type} (Q : event -> Prop) (m : M A) : Prop :=
  forall st, exists evs,
    trace (snd (m st)) = trace st ++ evs /\ Forall Q evs.

(** A request as [message] builds it from the configuration. *)
Definition well_addressed (c : conf) (ev : event) : Prop :=
  match ev with
  | Request r =>
      enable c = true
      /\ req_worker r = or_str (worker c) (u "rest:ext:slack")
      /\ req_action r = u "postSlackMsg"
      /\ req_timeout r = 10000%Z
      /\ (truthy_str (req_channel r) = true \/ req_channel r = channel c)
      /\ ((0 <= or_num (max_length c) 1024)%Z ->
          (Z.of_nat (length (req_text r)) <= or_num (max_length c) 1024)%Z)
  | _ => True
  end.

(** ** Shutdown *)

(** What the timer and the base class hold of an instance: the period of
    the flush timer in milliseconds ([None] when no timer is set), and how
    many times [super._stop] was called. *)
Record lifecycle : Type := {
  errorBatchTimer : option Z;
  base_stops : nat
}.

(** [_stop]: the timer is cleared, the batch flushed inside a [try] whose
    [catch] writes to the console, and [super._stop] called in the
    [finally]. *)
Definition _stop (w : world) (c : conf) (l : lifecycle) (st : state)
  : outcome unit * lifecycle * state :=
  let l :=
    match errorBatchTimer l with
    | Some _ => {| errorBatchTimer := None; base_stops := base_stops l |}
    | None => l
    end in
  let (r, st') :=
    try_catch (_processBatchedErrors w c)
      (fun e =>
         console_error "Failed to process final batch of errors during shutdown")
      st in
  (r, {| errorBatchTimer := errorBatchTimer l; base_stops := S (base_stops l) |},
   st').

(** The calls of [logError] that a run makes on an instance without
    batching. *)
Definition direct_calls (ops : list op)
  : list (option jsstring * value * list value) :=
  flat_map (fun o =>
              match o with
              | Enqueue k =>
                  [(call_channel k, call_err k,
                    value_of (call_source k) :: call_payload k :: call_extra k)]
              | LogError reqChannel err extra => [(reqChannel, err, extra)]
              | _ => []
              end) ops.

(** [Env: <env>, ], or nothing when no environment is configured: what
    [message] puts before every text. *)
Definition env_prefix (c : conf) : jsstring :=
  if truthy_str (env c) then u "Env: " ++ tmpl (env c) ++ u ", " else [].

(** The sum of the occurrence counts of some entries. *)
Definition sum_counts (entries : list entry) : Z :=
  fold_right (fun e acc => (count e + acc)%Z) 0%Z entries.

(** * Properties *)

Lemma jsstring_eqb_eq (a b : jsstring) : jsstring_eqb a b = true <-> a = b.
Proof.
  unfold jsstring_eqb. destruct (list_eq_dec N.eq_dec a b); split; congruence.
Qed.

Lemma jsstring_eqb_refl (a : jsstring) : jsstring_eqb a a = true.
Proof. now apply jsstring_eqb_eq. Qed.

Example sha1_abc :
  sha1_hex (u "abc") = u "a9993e364706816aba3e25717850c26c9cd0d89d".
Proof. vm_compute. reflexivity. Qed.

Example sha1_empty :
  sha1_hex [] = u "da39a3ee5e6b4b0d3255bfef95601890afd80709".
Proof. vm_compute. reflexivity. Qed.

Example sha1_two_blocks :
  sha1_hex (u "abcdbcdecdefdefgefghfghighijhijkijkljklmklmnlmnomnopnopq")
  = u "84983e441c3bd26ebaae4aa1f95129e5e54670f1".
Proof. vm_compute. reflexivity. Qed.

Example stringify_payload :
  Json.stringify (VObj [(u "to", VStr (u "a@b")); (u "n", VArr [VNum (-12); VNull; VUndefined])])
  = Some (u "{" ++ [34%N] ++ u "to" ++ [34%N] ++ u ":" ++ [34%N] ++ u "a@b" ++ [34%N]
          ++ u "," ++ [34%N] ++ u "n" ++ [34%N] ++ u ":[-12,null,null]}").
Proof. vm_compute. reflexivity. Qed.

(** ** The notifier: the cap on the dispatched text *)

Lemma or_num_nonneg (o : option Z) (d : Z) :
  (0 <= d)%Z -> (forall n, o = Some n -> (0 <= n)%Z) -> (0 <= or_num o d)%Z.
Proof.
  intros Hd Ho. unfold or_num. destruct o as [n|]; [|exact Hd].
  destruct (n =? 0)%Z; [exact Hd | now apply Ho].
Qed.

Lemma slice0_length (s : jsstring) (e : Z) :
  (0 <= e)%Z -> (Z.of_nat (length (slice0 s e)) <= e)%Z.
Proof.
  intros He. unfold slice0.
  destruct (Z.ltb_spec e 0); [lia|].
  rewrite length_firstn. lia.
Qed.

(** C9. When dispatch is enabled, [message] hands the transport exactly one
    request, and its text, environment prefix included, is at most
    [max_length] code units long ([1024] when [max_length] is absent or 0),
    for a cap that is not negative. *)
Theorem message_text_within_max_length
  (w : world) (c : conf) (reqChannel : option jsstring) (text : jsstring)
  (st : state) :
  enable c = true ->
  (forall n, max_length c = Some n -> (0 <= n)%Z) ->
  exists r,
    trace (snd (message w c reqChannel text st)) = trace st ++ [Request r]
    /\ fst (message w c reqChannel text st) = req w (trace st) r
    /\ (exists pre, req_text r = pre ++ firstn (length (req_text r) - length pre) text)
    /\ (Z.of_nat (length (req_text r)) <= or_num (max_length c) 1024)%Z
    /\ (max_length c = None -> (length (req_text r) <= 1024)%nat).
Proof.
  intros Hen Hcap. unfold message. rewrite Hen. cbn [negb].
  cbv zeta. unfold grc_req. cbn [fst snd trace req_text].
  eexists. split; [reflexivity|]. split; [reflexivity|].
  cbn [req_text].
  set (prefix := if truthy_str (env c) then _ else _).
  set (cap := or_num (max_length c) 1024).
  assert (Hcap0 : (0 <= cap)%Z) by (apply or_num_nonneg; [lia | exact Hcap]).
  assert (Hlen : (Z.of_nat
            (length (if (cap <? Z.of_nat (length (prefix ++ text)))%Z
                     then slice0 (prefix ++ text) cap else prefix ++ text))
          <= cap)%Z).
  { destruct (Z.ltb_spec cap (Z.of_nat (length (prefix ++ text)))).
    - now apply slice0_length.
    - assumption. }
  split; [|split].
  - destruct (Z.ltb_spec cap (Z.of_nat (length (prefix ++ text)))).
    + unfold slice0. destruct (Z.ltb_spec cap 0); [lia|].
      rewrite firstn_app.
      exists (firstn (Z.to_nat cap) prefix). f_equal. f_equal.
      rewrite length_app in *. rewrite !length_firstn.
      clearbody prefix cap. lia.
    + exists prefix. f_equal. rewrite length_app.
      rewrite Nat.add_comm, Nat.add_sub. now rewrite firstn_all.
  - exact Hlen.
  - intros Hnone. subst cap. rewrite Hnone in *. cbn [or_num] in *.
    set (n := length _) in *. clearbody n. lia.
Qed.

Lemma message_text_within_max_length_witness :
  exists r,
    trace (snd (message resolving mockConf (Some (u "alerts")) (repeat 97%N 2000)
                  batching_instance))
    = trace batching_instance ++ [Request r]
    /\ fst (message resolving mockConf (Some (u "alerts")) (repeat 97%N 2000)
              batching_instance)
       = req resolving (trace batching_instance) r
    /\ (exists pre, req_text r
                    = pre ++ firstn (length (req_text r) - length pre)
                               (repeat 97%N 2000))
    /\ (Z.of_nat (length (req_text r)) <= or_num (max_length mockConf) 1024)%Z
    /\ (max_length mockConf = None -> (length (req_text r) <= 1024)%nat).
Proof.
  apply (@message_text_within_max_length resolving mockConf (Some (u "alerts"))
           (repeat 97%N 2000) batching_instance).
  - reflexivity.
  - intros n Hn. injection Hn as <-. lia.
Defined.

(** ** The fingerprinter *)

(** C8, as the code has it: a plain object whose [message] is the number 42
    makes [hash.update] throw, so [_createErrorKey] raises. *)
Lemma createErrorKey_raises_on_number_message :
  _createErrorKey (Some (u "channel")) (VObj [(u "message", VNum 42)])
    (Some (u "function1"))
  = Throw TypeError.
Proof. reflexivity. Qed.

(** C8, amended. [_createErrorKey] is a function of its three arguments
    alone. On every channel, source and error value whose [message], when
    truthy, is a string and whose [toString ()] does not throw, it returns
    the key [channel:source:sha1 (text)], the source defaulting to
    ['unknown'], where [text] is [error.message] when that is a non-empty
    string, else the string conversion of the error when that is non-empty,
    else ['Unknown error']. *)
Theorem createErrorKey_total_on_string_messages
  (reqChannel : option jsstring) (err : value) (sourceName : option jsstring) :
  (truthy (message_of err) = true -> exists m, message_of err = VStr m) ->
  (nullish err = false -> is_ok (ToString err) = true) ->
  exists text,
    _createErrorKey reqChannel err sourceName
    = Ok (tmpl reqChannel ++ u ":"
            ++ match sourceName with Some s => s | None => u "unknown" end
            ++ u ":" ++ sha1_hex text)
    /\ (nullish err = true -> text = u "Unknown error")
    /\ (forall m, nullish err = false -> message_of err = VStr m -> m <> [] ->
        text = m)
    /\ (forall s, nullish err = false -> truthy (message_of err) = false ->
        ToString err = Ok s -> text = match s with [] => u "Unknown error" | _ => s end).
Proof.
  intros Hmsg Hstr. unfold _createErrorKey, errorMsg_of, _createErrorGroupKey.
  destruct (nullish err) eqn:Hnull.
  - exists (u "Unknown error"). cbn [obind hash_update VStr].
    split; [|split; [|split]]; try discriminate; try reflexivity.
    destruct sourceName; cbn [tmpl]; now rewrite <- !app_assoc.
  - destruct (truthy (message_of err)) eqn:Htruthy.
    + destruct (Hmsg eq_refl) as [m Hm]. exists m. rewrite Hm.
      cbn [obind hash_update VStr].
      split; [|split; [|split]]; try discriminate.
      * destruct sourceName; cbn [tmpl]; now rewrite <- !app_assoc.
      * intros m' _ Hm' _. unfold VStr in *. congruence.
    + unfold call_toString. specialize (Hstr eq_refl).
      destruct (ToString err) as [s|e] eqn:Hs; [|discriminate].
      exists (match s with [] => u "Unknown error" | _ => s end).
      cbn [obind hash_update VStr].
      split; [|split; [|split]]; try discriminate.
      * destruct sourceName; cbn [tmpl]; now rewrite <- !app_assoc.
      * intros m _ Hm Hne. rewrite Hm in Htruthy. destruct m; [congruence|].
        discriminate.
      * intros s' _ _ Hs'. now injection Hs' as <-.
Qed.

Lemma createErrorKey_total_on_string_messages_witness :
  exists text,
    _createErrorKey (Some (u "channel")) (VError (u "Test error")) None
    = Ok (tmpl (Some (u "channel")) ++ u ":" ++ u "unknown" ++ u ":"
            ++ sha1_hex text)
    /\ (nullish (VError (u "Test error")) = true -> text = u "Unknown error")
    /\ (forall m, nullish (VError (u "Test error")) = false ->
        message_of (VError (u "Test error")) = VStr m -> m <> [] -> text = m)
    /\ (forall s, nullish (VError (u "Test error")) = false ->
        truthy (message_of (VError (u "Test error"))) = false ->
        ToString (VError (u "Test error")) = Ok s ->
        text = match s with [] => u "Unknown error" | _ => s end).
Proof.
  apply (@createErrorKey_total_on_string_messages (Some (u "channel"))
           (VError (u "Test error")) None).
  - intros _. now exists (u "Test error").
  - reflexivity.
Defined.

(** The documented argument, an [Error], never makes it raise; nor do
    [undefined], [null] and the other primitives. *)
Lemma createErrorKey_total_on_Error
  (reqChannel : option jsstring) (m : jsstring) (sourceName : option jsstring) :
  is_ok (_createErrorKey reqChannel (VError m) sourceName) = true.
Proof. destruct m; reflexivity. Qed.

Lemma createErrorKey_total_on_primitives
  (reqChannel : option jsstring) (p : prim) (sourceName : option jsstring) :
  is_ok (_createErrorKey reqChannel (VPrim p) sourceName) = true.
Proof.
  unfold _createErrorKey, errorMsg_of, call_toString.
  destruct p as [| | [|] | n | [|c s]]; try reflexivity.
Qed.

(** ** Direct logging *)

(** [logError] records its call, keeps the batch, and makes one request
    when dispatch is enabled, whose outcome is its own. *)
Lemma logError_effect (w : world) (c : conf) (reqChannel : option jsstring)
  (err : value) (extra : list value) (st : state) :
  let call := LogErrorCall reqChannel err extra in
  let r := logError w c reqChannel err extra st in
  errorBatch (snd r) = errorBatch st
  /\ fresh (snd r) = fresh st
  /\ ((enable c = false /\ trace (snd r) = trace st ++ [call]
       /\ fst r = Ok (VPrim (PBool false)))
      \/ (enable c = true /\ exists rq,
            trace (snd r) = trace st ++ [call; Request rq]
            /\ fst r = req w (trace st ++ [call]) rq)).
Proof.
  cbv zeta. unfold logError, bind, emit, message.
  destruct (enable c); cbn [negb fst snd errorBatch fresh trace].
  - split; [reflexivity|]. split; [reflexivity|]. right.
    split; [reflexivity|]. unfold grc_req. cbn [fst snd trace].
    eexists. split; [|reflexivity]. now rewrite <- app_assoc.
  - split; [reflexivity|]. split; [reflexivity|]. left. now repeat split.
Qed.

(** ** The flush always clears *)

(** C6. A run of [_processBatchedErrors] on an initialised instance whose
    store is not empty completes without rejecting, whatever the transport
    answers to each dispatch, and leaves the store empty. *)
Theorem processBatchedErrors_clears_store
  (w : world) (c : conf) (st : state) (batch : store) :
  errorBatch st = Some batch ->
  batch <> [] ->
  fst (_processBatchedErrors w c st) = Ok tt
  /\ errorBatch (snd (_processBatchedErrors w c st)) = Some []
  /\ length (match errorBatch (snd (_processBatchedErrors w c st)) with
             | Some s => s
             | None => batch
             end) = 0%nat.
Proof.
  intros Hst Hne. unfold _processBatchedErrors. rewrite Hst.
  destruct batch as [|b batch]; [congruence|].
  unfold try_finally, try_catch, set_store, console_error, emit.
  destruct (for_of _ _ st) as [[[]|e] st']; cbn; repeat split.
Qed.

Lemma processBatchedErrors_clears_store_witness :
  let st := enqueue_all resolving mockConf
              [test_call 1000 "channel1" "Error 1" "func1" "test1";
               test_call 2000 "channel2" "Error 2" "func1" "test2"]
              batching_instance in
  fst (_processBatchedErrors rejecting mockConf st) = Ok tt
  /\ errorBatch (snd (_processBatchedErrors rejecting mockConf st)) = Some []
  /\ length (match errorBatch (snd (_processBatchedErrors rejecting mockConf st)) with
             | Some s => s
             | None => match errorBatch st with Some b => b | None => [] end
             end) = 0%nat.
Proof.
  cbv zeta.
  apply (@processBatchedErrors_clears_store rejecting mockConf
           (enqueue_all resolving mockConf
              [test_call 1000 "channel1" "Error 1" "func1" "test1";
               test_call 2000 "channel2" "Error 2" "func1" "test2"]
              batching_instance)
           (match errorBatch
                    (enqueue_all resolving mockConf
                       [test_call 1000 "channel1" "Error 1" "func1" "test1";
                        test_call 2000 "channel2" "Error 2" "func1" "test2"]
                       batching_instance) with
            | Some b => b
            | None => []
            end)).
  - vm_compute. reflexivity.
  - vm_compute. discriminate.
Defined.

(** In that run the first dispatch is rejected: the failure is logged and
    the second group is never dispatched. *)
Example flush_aborts_on_rejection :
  map (fun ev => match ev with
                 | LogErrorCall ch _ _ => (1, tmpl ch)
                 | Request r => (2, tmpl (req_channel r))
                 | ConsoleError _ => (3, [])
                 end)
    (trace (snd (_processBatchedErrors rejecting mockConf
                   (enqueue_all resolving mockConf
                      [test_call 1000 "channel1" "Error 1" "func1" "test1";
                       test_call 2000 "channel2" "Error 2" "func1" "test2"]
                      batching_instance))))
  = [(1, u "channel1"); (2, u "channel1"); (3, [])].
Proof. vm_compute. reflexivity. Qed.

(** ** The store as an association list *)

Section AssocFacts.
Variable A : Type.
Implicit Types (l : list (jsstring * A)) (k : jsstring).

Lemma assoc_get_app l l' k :
  assoc_get k (l ++ l')
  = match assoc_get k l with Some a => Some a | None => assoc_get k l' end.
Proof.
  induction l as [|[k' a] l IH]; cbn; [reflexivity|].
  destruct (jsstring_eqb k k'); [reflexivity | exact IH].
Qed.

Lemma assoc_get_modify l k k' (f : A -> A) :
  assoc_get k' (assoc_modify k f l)
  = if jsstring_eqb k' k then option_map f (assoc_get k l) else assoc_get k' l.
Proof.
  induction l as [|[k0 a] l IH]; cbn.
  - now destruct (jsstring_eqb k' k).
  - destruct (jsstring_eqb k k0) eqn:E0; cbn.
    + apply jsstring_eqb_eq in E0. subst k0.
      destruct (jsstring_eqb k' k); reflexivity.
    + rewrite IH. destruct (jsstring_eqb k' k0) eqn:E1; [|reflexivity].
      apply jsstring_eqb_eq in E1. subst k0.
      destruct (jsstring_eqb k' k) eqn:E2; [|reflexivity].
      apply jsstring_eqb_eq in E2. subst k'.
      rewrite jsstring_eqb_refl in E0. discriminate.
Qed.

Lemma assoc_get_set l k k' (a : A) :
  assoc_get k' (assoc_set k a l)
  = if jsstring_eqb k' k then Some a else assoc_get k' l.
Proof.
  unfold assoc_set, assoc_has.
  destruct (assoc_get k l) as [a0|] eqn:E.
  - rewrite assoc_get_modify, E. reflexivity.
  - rewrite assoc_get_app. cbn.
    destruct (jsstring_eqb k' k) eqn:E'.
    + apply jsstring_eqb_eq in E'. subst k'. now rewrite E.
    + now destruct (assoc_get k' l).
Qed.

Lemma assoc_modify_length l k (f : A -> A) :
  length (assoc_modify k f l) = length l.
Proof.
  induction l as [|[k0 a] l IH]; cbn; [reflexivity|].
  destruct (jsstring_eqb k k0); cbn; congruence.
Qed.

Lemma assoc_modify_keys l k (f : A -> A) :
  map fst (assoc_modify k f l) = map fst l.
Proof.
  induction l as [|[k0 a] l IH]; cbn; [reflexivity|].
  destruct (jsstring_eqb k k0); cbn; congruence.
Qed.

Lemma assoc_set_fresh l k (a : A) :
  assoc_get k l = None -> assoc_set k a l = l ++ [(k, a)].
Proof. intros E. unfold assoc_set, assoc_has. now rewrite E. Qed.

Lemma assoc_get_In l k (a : A) : assoc_get k l = Some a -> In (k, a) l.
Proof.
  induction l as [|[k0 a0] l IH]; cbn; [discriminate|].
  destruct (jsstring_eqb k k0) eqn:E.
  - apply jsstring_eqb_eq in E. subst k0. intros [= ->]. now left.
  - intros H. right. now apply IH.
Qed.

Lemma assoc_get_None l k :
  assoc_get k l = None <-> ~ In k (map fst l).
Proof.
  induction l as [|[k0 a0] l IH]; cbn.
  - split; [intros _ [] | reflexivity].
  - destruct (jsstring_eqb k k0) eqn:E.
    + apply jsstring_eqb_eq in E. subst k0.
      split; [discriminate | intros H; exfalso; apply H; now left].
    + rewrite IH. split.
      * intros H [H'|H']; [|now apply H].
        subst k0. rewrite jsstring_eqb_refl in E. discriminate.
      * intros H H'. apply H. now right.
Qed.
End AssocFacts.

(** ** Enqueue: what reaches the caller *)

(** C1, as the code has it: the rejection of the transport reaches the
    caller of [logErrorEnqueue], both when batching is not initialised
    (the direct log is returned) and when the batching path fails (here
    on [err.message] of [null]) and the fallback is awaited. *)
Lemma logErrorEnqueue_rejects_with_transport :
  fst (logErrorEnqueue rejecting mockConf 1000 (Some (u "test"))
         (VError (u "Test error")) (Some (u "testFunc"))
         (VObj [(u "to", VStr (u "test@example.com"))]) [] plain_instance)
  = Throw (Rejected (VError (u "Send error")))
  /\ fst (logErrorEnqueue rejecting mockConf 1000 (Some (u "test"))
            VNull (Some (u "testFunc"))
            (VObj [(u "to", VStr (u "test@example.com"))]) []
            batching_instance)
     = Throw (Rejected (VError (u "Send error"))).
Proof. split; vm_compute; reflexivity. Qed.

(** The fallback: the failure is logged, then one direct-log attempt. *)
Lemma direct_log_effect (w : world) (c : conf) (what : string)
  (ch : option jsstring) (err : value) (extra : list value) (st : state) :
  let attempt := LogErrorCall ch err extra in
  let r1 := (console_error what ;; logError w c ch err extra) st in
  let r2 := (console_error what ;; logError w c ch err extra ;; ret VUndefined) st in
  snd r2 = snd r1
  /\ (forall e, fst r2 = Throw e <-> fst r1 = Throw e)
  /\ (forall v, fst r2 = Ok v -> v = VUndefined)
  /\ errorBatch (snd r1) = errorBatch st
  /\ fresh (snd r1) = fresh st
  /\ exists rest,
       trace (snd r1) = trace st ++ ConsoleError what :: attempt :: rest
       /\ ((rest = [] /\ is_ok (fst r1) = true)
           \/ exists rq,
                rest = [Request rq]
                /\ fst r1 = req w (trace st ++ [ConsoleError what; attempt]) rq).
Proof.
  cbv zeta. unfold bind, console_error, emit, ret.
  set (st1 := {| errorBatch := errorBatch st; fresh := fresh st;
                 trace := trace st ++ [ConsoleError what] |}).
  destruct (logError_effect w c ch err extra st1) as (Hb & Hf & Ht).
  cbv zeta in Hb, Hf, Ht.
  destruct (logError w c ch err extra st1) as [res st2]. cbn [fst snd] in *.
  assert (Happ : forall tail,
             trace st1 ++ LogErrorCall ch err extra :: tail
             = trace st ++ ConsoleError what :: LogErrorCall ch err extra :: tail).
  { intros tail. subst st1. cbn [trace]. now rewrite <- app_assoc. }
  split; [now destruct res|].
  split; [intros e; destruct res; cbn; split; congruence|].
  split; [intros v; destruct res; cbn; congruence|].
  split; [exact Hb|]. split; [exact Hf|].
  destruct Ht as [(Hen & Ht & Hr) | (Hen & rq & Ht & Hr)].
  - exists []. split; [rewrite Ht; apply Happ|]. left. now rewrite Hr.
  - exists [Request rq]. split; [rewrite Ht; apply Happ|]. right.
    exists rq. split; [reflexivity|]. rewrite Hr. f_equal. apply Happ.
Qed.

(** [logErrorEnqueue] on an initialised instance, case by case. *)
Lemma logErrorEnqueue_batching (w : world) (c : conf) (now : Z)
  (reqChannel : option jsstring) (err : value) (sourceName : option jsstring)
  (payload : value) (extra : list value) (st : state) (batch : store) :
  errorBatch st = Some batch ->
  let ch := if truthy_str reqChannel then reqChannel else channel c in
  let fallback :=
    (console_error "Error batching failed, falling back to direct log" ;;
     logError w c ch err (value_of sourceName :: payload :: extra) ;;
     ret VUndefined) st in
  logErrorEnqueue w c now reqChannel err sourceName payload extra st
  = match _createErrorKey ch err sourceName with
    | Throw _ => fallback
    | Ok errorKey =>
        match assoc_get errorKey batch with
        | Some _ =>
            (Ok VUndefined,
             {| errorBatch :=
                  Some (assoc_modify errorKey
                          (push_payload now {| payload := payload; extras := extra |})
                          batch);
                fresh := fresh st;
                trace := trace st |})
        | None =>
            if nullish err then fallback
            else
              (Ok VUndefined,
               {| errorBatch :=
                    Some (assoc_set errorKey
                            (new_entry (fresh st) now ch err sourceName payload extra)
                            batch);
                  fresh := S (fresh st);
                  trace := trace st |})
        end
    end.
Proof.
  intros Hst. cbv zeta. unfold logErrorEnqueue. rewrite Hst.
  unfold try_catch.
  destruct (_createErrorKey _ err sourceName) as [errorKey|e].
  - unfold bind, lift, the_store. rewrite Hst.
    destruct (assoc_get errorKey batch) as [old|].
    + reflexivity.
    + unfold get_message. destruct (nullish err); reflexivity.
  - reflexivity.
Qed.

(** C1, amended. Every call of [logErrorEnqueue] either queues the error
    (resolving, with no dispatch, and the fingerprint in the store) or makes
    exactly one direct-log attempt with the error, source, payload and
    extras it was given and the channel (replaced by the configured default
    when falsy, once batching is initialised), leaving the store as it was.
    No failure of the batching steps reaches the caller: the promise
    rejects exactly when the transport rejects the request of that
    direct-log attempt. *)
Theorem logErrorEnqueue_queues_or_logs_directly
  (w : world) (c : conf) (now : Z) (reqChannel : option jsstring) (err : value)
  (sourceName : option jsstring) (payload : value) (extra : list value)
  (st : state) :
  let ch :=
    match errorBatch st with
    | None => reqChannel
    | Some _ => if truthy_str reqChannel then reqChannel else channel c
    end in
  let attempt := LogErrorCall ch err (value_of sourceName :: payload :: extra) in
  let r := logErrorEnqueue w c now reqChannel err sourceName payload extra st in
  (fst r = Ok VUndefined
   /\ trace (snd r) = trace st
   /\ exists errorKey batch,
        _createErrorKey ch err sourceName = Ok errorKey
        /\ errorBatch (snd r) = Some batch
        /\ assoc_has errorKey batch = true)
  \/ (exists what rest,
        trace (snd r) = trace st ++ ConsoleError what :: attempt :: rest
        /\ errorBatch (snd r) = errorBatch st
        /\ ((rest = [] /\ is_ok (fst r) = true)
            \/ exists rq,
                 rest = [Request rq]
                 /\ forall e,
                      fst r = Throw e
                      <-> req w (trace st ++ [ConsoleError what; attempt]) rq
                          = Throw e)).
Proof.
  cbv zeta.
  destruct (errorBatch st) as [batch|] eqn:Hst.
  - (* batching is initialised *)
    set (ch := if truthy_str reqChannel then reqChannel else channel c).
    set (what := "Error batching failed, falling back to direct log"%string).
    destruct (direct_log_effect w c what ch err
                (value_of sourceName :: payload :: extra) st)
      as (Hsnd & Hfst & _ & Hb & _ & rest & Ht & Hcase).
    cbv zeta in Hsnd, Hfst, Hb, Ht, Hcase.
    assert (Hright :
      exists what0 rest0,
        trace (snd ((console_error what ;;
                     logError w c ch err (value_of sourceName :: payload :: extra) ;;
                     ret VUndefined) st))
        = trace st ++ ConsoleError what0
            :: LogErrorCall ch err (value_of sourceName :: payload :: extra) :: rest0
        /\ errorBatch (snd ((console_error what ;;
                     logError w c ch err (value_of sourceName :: payload :: extra) ;;
                     ret VUndefined) st)) = Some batch
        /\ ((rest0 = []
             /\ is_ok (fst ((console_error what ;;
                     logError w c ch err (value_of sourceName :: payload :: extra) ;;
                     ret VUndefined) st)) = true)
            \/ exists rq, rest0 = [Request rq]
                 /\ forall e,
                      fst ((console_error what ;;
                            logError w c ch err (value_of sourceName :: payload :: extra) ;;
                            ret VUndefined) st) = Throw e
                      <-> req w (trace st ++ [ConsoleError what0;
                            LogErrorCall ch err (value_of sourceName :: payload :: extra)]) rq
                          = Throw e)).
    { exists what, rest. rewrite Hsnd. split; [exact Ht|]. split; [now rewrite Hb|].
      destruct Hcase as [(-> & Hok) | (rq & -> & Hr)].
      - left. split; [reflexivity|].
        destruct (fst ((console_error what ;;
                        logError w c ch err (value_of sourceName :: payload :: extra) ;;
                        ret VUndefined) st)) as [v|e]; [reflexivity|].
        destruct (Hfst e) as [E _]. rewrite (E eq_refl) in Hok. discriminate.
      - right. exists rq. split; [reflexivity|]. intros e.
        rewrite Hfst, Hr. reflexivity. }
    rewrite (@logErrorEnqueue_batching w c now reqChannel err sourceName payload
               extra st batch Hst).
    cbv zeta. fold ch. fold what.
    destruct (_createErrorKey ch err sourceName) as [errorKey|e] eqn:Hkey.
    + destruct (assoc_get errorKey batch) as [old|] eqn:Hget.
      * left. cbn [fst snd trace errorBatch]. repeat split.
        exists errorKey. eexists. repeat split.
        unfold assoc_has. rewrite assoc_get_modify, jsstring_eqb_refl, Hget.
        reflexivity.
      * destruct (nullish err) eqn:Hnull.
        -- right. exact Hright.
        -- left. cbn [fst snd trace errorBatch]. repeat split.
           exists errorKey. eexists. repeat split.
           unfold assoc_has. rewrite assoc_get_set, jsstring_eqb_refl.
           reflexivity.
    + right. exact Hright.
  - (* batching is not initialised: the direct log is returned *)
    right. unfold logErrorEnqueue. rewrite Hst.
    set (what := "Error batching not initialized, falling back to direct log"%string).
    destruct (direct_log_effect w c what reqChannel err
                (value_of sourceName :: payload :: extra) st)
      as (_ & _ & _ & Hb & _ & rest & Ht & Hcase).
    cbv zeta in Hb, Ht, Hcase.
    exists what, rest. split; [exact Ht|]. split; [now rewrite Hb|].
    destruct Hcase as [(-> & Hok) | (rq & -> & Hr)].
    + left. now split.
    + right. exists rq. split; [reflexivity|]. intros e. now rewrite Hr.
Qed.

(** ** Enqueue never flushes *)

(** C2, as the code has it: with [errorBatching.maxSize] set to 1, the
    first enqueue makes the store reach that size, and nothing is flushed:
    no report is dispatched and the entry stays in the store, where a
    flush would have dispatched it and emptied the store. *)
Lemma logErrorEnqueue_no_eager_flush_at_maxSize :
  let c := with_maxSize (Some 1%Z) mockConf in
  let st := snd (enqueue resolving c
                   (test_call 1000 "test" "Error 1" "func1" "test@example.com")
                   batching_instance) in
  option_map (fun b => Z.of_nat (length b)) (errorBatch st) = Some 1%Z
  /\ option_map maxSize (errorBatching c) = Some (Some 1%Z)
  /\ trace st = []
  /\ length (trace (snd (_processBatchedErrors resolving c st))) = 2%nat
  /\ errorBatch (snd (_processBatchedErrors resolving c st)) = Some [].
Proof. vm_compute. repeat split. Qed.

Lemma logged_app (tr tr' : list event) :
  logged (tr ++ tr') = logged tr ++ logged tr'.
Proof. apply flat_map_app. Qed.

(** C2, amended. [logErrorEnqueue] never flushes: it does not read
    [errorBatching.maxSize]; it never removes a fingerprint from the
    store nor shrinks it; and the only call of [logError] it can make is
    the direct log of the very error it was given, never a batched
    report. Either the error is queued, with no call of [logError] and a
    store that is not empty whatever its size, or it is logged directly
    and the store is as it was. The store is flushed by the timer and by
    [_stop] only. *)
Theorem logErrorEnqueue_never_flushes
  (w : world) (c : conf) (now : Z) (reqChannel : option jsstring) (err : value)
  (sourceName : option jsstring) (payload : value) (extra : list value)
  (st : state) (batch : store) :
  errorBatch st = Some batch ->
  let r := logErrorEnqueue w c now reqChannel err sourceName payload extra st in
  (forall m,
     logErrorEnqueue w (with_maxSize m c) now reqChannel err sourceName payload
       extra st = r)
  /\ exists batch',
       errorBatch (snd r) = Some batch'
       /\ (length batch <= length batch')%nat
       /\ (forall k, assoc_has k batch = true -> assoc_has k batch' = true)
       /\ ((logged (trace (snd r)) = logged (trace st) /\ batch' <> [])
           \/ (logged (trace (snd r))
               = logged (trace st)
                   ++ [(channel_or_default c reqChannel, err,
                        value_of sourceName :: payload :: extra)]
               /\ batch' = batch)).
Proof.
  intros Hst. cbv zeta. split; [reflexivity|].
  rewrite (@logErrorEnqueue_batching w c now reqChannel err sourceName payload
             extra st batch Hst). cbv zeta.
  fold (channel_or_default c reqChannel).
  set (ch := channel_or_default c reqChannel).
  set (what := "Error batching failed, falling back to direct log"%string).
  assert (Hfallback :
    exists batch',
      errorBatch (snd ((console_error what ;;
                        logError w c ch err (value_of sourceName :: payload :: extra) ;;
                        ret VUndefined) st)) = Some batch'
      /\ (length batch <= length batch')%nat
      /\ (forall k, assoc_has k batch = true -> assoc_has k batch' = true)
      /\ ((logged (trace (snd ((console_error what ;;
                        logError w c ch err (value_of sourceName :: payload :: extra) ;;
                        ret VUndefined) st))) = logged (trace st)
           /\ batch' <> [])
          \/ (logged (trace (snd ((console_error what ;;
                        logError w c ch err (value_of sourceName :: payload :: extra) ;;
                        ret VUndefined) st)))
              = logged (trace st)
                  ++ [(ch, err, value_of sourceName :: payload :: extra)]
              /\ batch' = batch))).
  { destruct (direct_log_effect w c what ch err
                (value_of sourceName :: payload :: extra) st)
      as (Hsnd & _ & _ & Hb & _ & rest & Ht & Hrest).
    cbv zeta in Hsnd, Hb, Ht, Hrest. rewrite Hsnd, Hb, Ht.
    exists batch. split; [exact Hst|]. split; [lia|]. split; [auto|].
    right. split; [|reflexivity].
    rewrite logged_app. f_equal.
    destruct Hrest as [(-> & _) | (rq & -> & _)]; reflexivity. }
  destruct (_createErrorKey ch err sourceName) as [errorKey|e]; [|exact Hfallback].
  destruct (assoc_get errorKey batch) as [old|] eqn:Hget.
  - cbn [fst snd errorBatch trace]. eexists. split; [reflexivity|].
    split; [now rewrite assoc_modify_length|].
    split.
    + intros k. unfold assoc_has. rewrite assoc_get_modify.
      destruct (jsstring_eqb k errorKey) eqn:E; [|auto].
      apply jsstring_eqb_eq in E. subst k. now rewrite Hget.
    + left. split; [reflexivity|]. intros Habs.
      apply (f_equal (@length _)) in Habs.
      rewrite assoc_modify_length in Habs.
      destruct batch; [discriminate Hget | discriminate Habs].
  - destruct (nullish err); [exact Hfallback|].
    cbn [fst snd errorBatch trace]. eexists. split; [reflexivity|].
    rewrite assoc_set_fresh by exact Hget.
    split; [rewrite length_app; lia|].
    split.
    + intros k. unfold assoc_has. rewrite assoc_get_app.
      destruct (assoc_get k batch); [auto | discriminate].
    + left. split; [reflexivity|]. intros Habs.
      now apply app_eq_nil in Habs as [_ Habs].
Qed.

Lemma logErrorEnqueue_never_flushes_witness :
  let c := with_maxSize (Some 1%Z) mockConf in
  let r := enqueue resolving c
             (test_call 1000 "test" "Error 1" "func1" "test@example.com")
             batching_instance in
  (forall m,
     logErrorEnqueue resolving (with_maxSize m c) 1000 (Some (u "test"))
       (VError (u "Error 1")) (Some (u "func1"))
       (VObj [(u "to", VStr (u "test@example.com"))]) [] batching_instance = r)
  /\ exists batch',
       errorBatch (snd r) = Some batch'
       /\ (length (@nil (jsstring * entry)) <= length batch')%nat
       /\ (forall k, assoc_has k (@nil (jsstring * entry)) = true ->
           assoc_has k batch' = true)
       /\ ((logged (trace (snd r)) = logged (trace batching_instance)
            /\ batch' <> [])
           \/ (logged (trace (snd r))
               = logged (trace batching_instance)
                   ++ [(channel_or_default c (Some (u "test")),
                        VError (u "Error 1"),
                        value_of (Some (u "func1"))
                          :: VObj [(u "to", VStr (u "test@example.com"))] :: [])]
               /\ batch' = [])).
Proof.
  cbv zeta.
  apply (@logErrorEnqueue_never_flushes resolving
           (with_maxSize (Some 1%Z) mockConf) 1000 (Some (u "test"))
           (VError (u "Error 1")) (Some (u "func1"))
           (VObj [(u "to", VStr (u "test@example.com"))]) []
           batching_instance []).
  reflexivity.
Defined.

(** ** The payload window *)

Lemma lastn_length {A : Type} (n : nat) (l : list A) :
  length (lastn n l) = Nat.min (length l) n.
Proof. unfold lastn. rewrite length_skipn. lia. Qed.

Lemma lastn_all {A : Type} (n : nat) (l : list A) :
  (length l <= n)%nat -> lastn n l = l.
Proof.
  intros H. unfold lastn. now replace (length l - n)%nat with 0%nat by lia.
Qed.

Lemma lastn_app_lastn {A : Type} (n : nat) (l r : list A) :
  lastn n (lastn n l ++ r) = lastn n (l ++ r).
Proof.
  unfold lastn at 1 3. rewrite !skipn_app, !length_app, lastn_length.
  unfold lastn. rewrite skipn_skipn.
  f_equal; f_equal; lia.
Qed.

Lemma push_payload_window (now : Z) (it : item) (e : entry) :
  (length (payloads e) <= 3)%nat ->
  payloads (push_payload now it e) = lastn 3 (payloads e ++ [it]).
Proof.
  intros H. cbn [push_payload payloads].
  destruct (Nat.ltb_spec 3 (length (payloads e ++ [it]))) as [Hlt|Hle].
  - rewrite length_app in Hlt. cbn in Hlt.
    unfold lastn. rewrite length_app. cbn [length].
    replace (length (payloads e) + 1 - 3)%nat with 1%nat by lia.
    reflexivity.
  - now rewrite lastn_all.
Qed.

Lemma last_default_irrelevant {A : Type} (l : list A) (x d d' : A) :
  last (x :: l) d = last (x :: l) d'.
Proof.
  revert x. induction l as [|y l IH]; intros x; [reflexivity|].
  change (last (y :: l) d = last (y :: l) d'). apply IH.
Qed.

(** Contributions to a fingerprint that is already in the store. *)
Lemma enqueue_all_known_fingerprint (w : world) (c : conf) (key : jsstring)
  (calls : list call) :
  forall (st : state) (batch : store) (e : entry),
    errorBatch st = Some batch ->
    assoc_get key batch = Some e ->
    (length (payloads e) <= 3)%nat ->
    (forall k, In k calls -> fingerprint c k = Ok key) ->
    exists batch' e',
      errorBatch (enqueue_all w c calls st) = Some batch'
      /\ assoc_get key batch' = Some e'
      /\ map fst batch' = map fst batch
      /\ trace (enqueue_all w c calls st) = trace st
      /\ payloads e' = lastn 3 (payloads e ++ map contribution calls)
      /\ count e' = (count e + Z.of_nat (length calls))%Z
      /\ ref e' = ref e
      /\ errorMessage e' = errorMessage e
      /\ reqChannel e' = reqChannel e
      /\ sourceName e' = sourceName e
      /\ firstSeen e' = firstSeen e
      /\ lastSeen e' = last (map call_now calls) (lastSeen e).
Proof.
  induction calls as [|k calls IH]; intros st batch e Hst Hget Hlen Hkeys.
  - exists batch, e. cbn [enqueue_all map length]. rewrite app_nil_r.
    rewrite lastn_all by exact Hlen.
    repeat split; try assumption; try reflexivity. lia.
  - set (e1 := push_payload (call_now k) (contribution k) e).
    set (batch1 := assoc_modify key (push_payload (call_now k) (contribution k))
                     batch).
    assert (Hstep : snd (enqueue w c k st)
                    = {| errorBatch := Some batch1; fresh := fresh st;
                         trace := trace st |}).
    { unfold enqueue.
      rewrite (@logErrorEnqueue_batching w c (call_now k) (call_channel k)
                 (call_err k) (call_source k) (call_payload k) (call_extra k)
                 st batch Hst).
      cbv zeta.
      pose proof (Hkeys k (or_introl eq_refl)) as Hk.
      unfold fingerprint, channel_or_default in Hk. rewrite Hk, Hget.
      reflexivity. }
    cbn [enqueue_all]. rewrite Hstep.
    destruct (IH {| errorBatch := Some batch1; fresh := fresh st; trace := trace st |}
                batch1 e1) as (batch' & e' & H1 & H2 & H3 & H4 & H5 & H6 & H7 & H8 & H9 & H10 & H11 & H12).
    + reflexivity.
    + subst batch1 e1. rewrite assoc_get_modify, jsstring_eqb_refl, Hget.
      reflexivity.
    + subst e1. rewrite push_payload_window by exact Hlen.
      rewrite lastn_length. lia.
    + intros k' Hk'. apply Hkeys. now right.
    + exists batch', e'. split; [exact H1|]. split; [exact H2|].
      split; [rewrite H3; subst batch1; apply assoc_modify_keys|].
      split; [exact H4|].
      split.
      { rewrite H5. subst e1. rewrite push_payload_window by exact Hlen.
        rewrite lastn_app_lastn, <- app_assoc. reflexivity. }
      split.
      { rewrite H6. subst e1. cbn [push_payload count length]. lia. }
      repeat split; try assumption.
      rewrite H12. subst e1. cbn [push_payload lastSeen].
      clear. destruct calls as [|k' calls]; [reflexivity|].
      cbn [map]. rewrite (last_default_irrelevant _ _ (call_now k) (lastSeen e)).
      reflexivity.
Qed.

(** Contributions to a fingerprint that is not in the store yet: the first
    one creates the entry. *)
Lemma enqueue_all_new_fingerprint (w : world) (c : conf) (key : jsstring)
  (k0 : call) (calls : list call) (st : state) (batch : store) :
  errorBatch st = Some batch ->
  assoc_get key batch = None ->
  nullish (call_err k0) = false ->
  (forall k, In k (k0 :: calls) -> fingerprint c k = Ok key) ->
  exists batch' e',
    errorBatch (enqueue_all w c (k0 :: calls) st) = Some batch'
    /\ assoc_get key batch' = Some e'
    /\ map fst batch' = map fst batch ++ [key]
    /\ trace (enqueue_all w c (k0 :: calls) st) = trace st
    /\ payloads e' = lastn 3 (map contribution (k0 :: calls))
    /\ count e' = Z.of_nat (length (k0 :: calls))
    /\ ref e' = fresh st
    /\ errorMessage e' = message_of (call_err k0)
    /\ reqChannel e' = channel_or_default c (call_channel k0)
    /\ sourceName e' = call_source k0
    /\ firstSeen e' = call_now k0
    /\ lastSeen e' = last (map call_now calls) (call_now k0).
Proof.
  intros Hst Hget Hnull Hkeys.
  set (e0 := new_entry (fresh st) (call_now k0)
               (channel_or_default c (call_channel k0)) (call_err k0)
               (call_source k0) (call_payload k0) (call_extra k0)).
  assert (Hstep : snd (enqueue w c k0 st)
                  = {| errorBatch := Some (batch ++ [(key, e0)]);
                       fresh := S (fresh st); trace := trace st |}).
  { unfold enqueue.
    rewrite (@logErrorEnqueue_batching w c (call_now k0) (call_channel k0)
               (call_err k0) (call_source k0) (call_payload k0) (call_extra k0)
               st batch Hst).
    cbv zeta.
    pose proof (Hkeys k0 (or_introl eq_refl)) as Hk.
    unfold fingerprint, channel_or_default in Hk. rewrite Hk, Hget, Hnull.
    cbn [snd]. now rewrite assoc_set_fresh by exact Hget. }
  cbn [enqueue_all]. rewrite Hstep.
  destruct (@enqueue_all_known_fingerprint w c key calls
              {| errorBatch := Some (batch ++ [(key, e0)]);
                 fresh := S (fresh st); trace := trace st |}
              (batch ++ [(key, e0)]) e0)
    as (batch' & e' & H1 & H2 & H3 & H4 & H5 & H6 & H7 & H8 & H9 & H10 & H11 & H12).
  - reflexivity.
  - rewrite assoc_get_app, Hget. cbn. now rewrite jsstring_eqb_refl.
  - cbn. lia.
  - intros k' Hk'. apply Hkeys. now right.
  - exists batch', e'. split; [exact H1|]. split; [exact H2|].
    split; [rewrite H3, map_app; reflexivity|].
    split; [exact H4|].
    split; [exact H5|].
    split; [rewrite H6; cbn [length count e0 new_entry]; lia|].
    repeat split; assumption.
Qed.

(** C7. After [N >= 1] contributions to one fingerprint (calls that are
    queued under it, starting from a store that does not hold it), the
    window of its entry is [min (N, 3)] long and holds the last
    [min (N, 3)] pairs of payload and extras in the order of the calls;
    so from the fourth on it holds exactly the three most recent. *)
Theorem payload_window_keeps_last_three
  (w : world) (c : conf) (key : jsstring) (calls : list call) (st : state)
  (batch : store) :
  errorBatch st = Some batch ->
  assoc_get key batch = None ->
  calls <> [] ->
  (forall k, In k calls ->
     fingerprint c k = Ok key /\ nullish (call_err k) = false) ->
  exists batch' e,
    errorBatch (enqueue_all w c calls st) = Some batch'
    /\ assoc_get key batch' = Some e
    /\ length (payloads e) = Nat.min (length calls) 3
    /\ payloads e = lastn 3 (map contribution calls)
    /\ ((4 <= length calls)%nat ->
        exists older a b d,
          map contribution calls = older ++ [a; b; d]
          /\ payloads e = [a; b; d]).
Proof.
  intros Hst Hget Hne Hkeys.
  destruct calls as [|k0 calls]; [congruence|].
  destruct (@enqueue_all_new_fingerprint w c key k0 calls st batch Hst Hget)
    as (batch' & e & H1 & H2 & _ & _ & H5 & _).
  - apply Hkeys. now left.
  - intros k Hk. now apply Hkeys.
  - exists batch', e. split; [exact H1|]. split; [exact H2|].
    split; [rewrite H5, lastn_length, length_map; reflexivity|].
    split; [exact H5|].
    intros H4. rewrite H5.
    set (l := map contribution (k0 :: calls)).
    assert (Hl : (4 <= length l)%nat) by (subst l; now rewrite length_map).
    clearbody l.
    assert (Hlast : length (lastn 3 l) = 3%nat) by (rewrite lastn_length; lia).
    destruct (lastn 3 l) as [|a [|b [|d [|x rest]]]] eqn:E; try discriminate.
    exists (firstn (length l - 3) l), a, b, d. split; [|reflexivity].
    rewrite <- E. unfold lastn. now rewrite firstn_skipn.
Qed.

Lemma payload_window_keeps_last_three_witness :
  let calls :=
    [test_call 1000 "test-channel" "Test error" "testFunction" "one";
     test_call 2000 "test-channel" "Test error" "testFunction" "two";
     test_call 3000 "test-channel" "Test error" "testFunction" "three";
     test_call 4000 "test-channel" "Test error" "testFunction" "four";
     test_call 5000 "test-channel" "Test error" "testFunction" "five"] in
  let key := u "test-channel:testFunction:7f49768c098dad26a4c2561429e75ecb74d1de8d" in
  exists batch' e,
    errorBatch (enqueue_all resolving mockConf calls batching_instance) = Some batch'
    /\ assoc_get key batch' = Some e
    /\ length (payloads e) = Nat.min (length calls) 3
    /\ payloads e = lastn 3 (map contribution calls)
    /\ ((4 <= length calls)%nat ->
        exists older a b d,
          map contribution calls = older ++ [a; b; d]
          /\ payloads e = [a; b; d]).
Proof.
  cbv zeta.
  apply (@payload_window_keeps_last_three resolving mockConf
           (u "test-channel:testFunction:7f49768c098dad26a4c2561429e75ecb74d1de8d")
           [test_call 1000 "test-channel" "Test error" "testFunction" "one";
            test_call 2000 "test-channel" "Test error" "testFunction" "two";
            test_call 3000 "test-channel" "Test error" "testFunction" "three";
            test_call 4000 "test-channel" "Test error" "testFunction" "four";
            test_call 5000 "test-channel" "Test error" "testFunction" "five"]
           batching_instance []).
  - reflexivity.
  - reflexivity.
  - discriminate.
  - intros k Hk. cbn [In] in Hk.
    destruct Hk as [<-|[<-|[<-|[<-|[<-|[]]]]]]; split; vm_compute; reflexivity.
Defined.

(** The window of that run: the payloads of the third, fourth and fifth
    call. *)
Example window_after_five_calls :
  option_map
    (fun b => map (fun '(_, e) => (count e, map payload (payloads e))) b)
    (errorBatch
       (enqueue_all resolving mockConf
          [test_call 1000 "test-channel" "Test error" "testFunction" "one";
           test_call 2000 "test-channel" "Test error" "testFunction" "two";
           test_call 3000 "test-channel" "Test error" "testFunction" "three";
           test_call 4000 "test-channel" "Test error" "testFunction" "four";
           test_call 5000 "test-channel" "Test error" "testFunction" "five"]
          batching_instance))
  = Some [(5%Z, [VObj [(u "to", VStr (u "three"))];
                 VObj [(u "to", VStr (u "four"))];
                 VObj [(u "to", VStr (u "five"))]])].
Proof. vm_compute. reflexivity. Qed.

(** ** The formatter *)

(** The inner loop: either every line fitted, or the text stops with the
    marker in front of the first line that did not. *)
Lemma render_payloads_cases (limit : Z) (marker : jsstring) (items : list item) :
  forall message,
    (render_payloads limit marker message items
     = (message ++ payload_lines items, false)
     /\ (items <> [] ->
         (Z.of_nat (length (message ++ payload_lines items)) <= limit)%Z))
    \/ (exists done next later,
          items = done ++ next :: later
          /\ render_payloads limit marker message items
             = (message ++ payload_lines done ++ marker, true)
          /\ (limit < Z.of_nat (length (message ++ payload_lines done)
                                + length (payloadStr next)))%Z
          /\ (done <> [] ->
              (Z.of_nat (length (message ++ payload_lines done)) <= limit)%Z)).
Proof.
  induction items as [|it items IH]; intros message.
  - left. cbn. rewrite app_nil_r. split; [reflexivity | congruence].
  - cbn [render_payloads]. cbv zeta.
    destruct (Z.ltb_spec limit
                (Z.of_nat (length message + length (payloadStr it)))) as [Hlt|Hle].
    + right. exists [], it, items. cbn [payload_lines flat_map app].
      rewrite app_nil_r. repeat split; [exact Hlt | congruence].
    + destruct (IH (message ++ payloadStr it))
        as [[Heq Hfit] | (done & next & later & Hitems & Heq & Hover & Hfit)].
      * left. rewrite Heq. cbn [payload_lines flat_map].
        rewrite <- app_assoc. split; [reflexivity|].
        intros _. destruct items as [|it' items'].
        -- cbn [flat_map]. rewrite app_nil_r, length_app. lia.
        -- fold (payload_lines (it' :: items')).
           rewrite app_assoc. apply Hfit. congruence.
      * right. exists (it :: done), next, later.
        cbn [payload_lines flat_map]. fold (payload_lines done).
        rewrite Heq, Hitems, <- !app_assoc.
        split; [reflexivity|]. split; [reflexivity|].
        rewrite (app_assoc message). split; [exact Hover|].
        intros _. destruct done as [|d done'].
        -- cbn [payload_lines flat_map]. rewrite app_nil_r, length_app. lia.
        -- apply Hfit. congruence.
Qed.

Lemma type_block_ok (e : entry) (em : jsstring) :
  ToString (errorMessage e) = Ok em ->
  type_block e = type_heading em e ++ payload_lines (payloads e).
Proof. intros H. unfold type_block. now rewrite H. Qed.

(** The outer loop: either every type was rendered in full, or the text
    stops with the marker inside the type [e], after the types [before] in
    full, the heading of [e] and the lines [done] of its window. *)
Lemma render_errors_cases (limit : Z) (errors : list entry) (todo : list entry) :
  forall message result truncated,
    render_errors limit errors message todo = Ok (result, truncated) ->
    (truncated = false
     /\ result = message ++ type_blocks todo
     /\ (todo <> [] -> (forall e, In e todo -> payloads e <> []) ->
         (Z.of_nat (length result) <= limit)%Z))
    \/ (truncated = true
        /\ exists before e after em done next later,
             todo = before ++ e :: after
             /\ ToString (errorMessage e) = Ok em
             /\ payloads e = done ++ next :: later
             /\ result = (message ++ type_blocks before) ++ type_heading em e
                           ++ payload_lines done ++ truncation_marker errors e
             /\ (limit < Z.of_nat
                           (length ((message ++ type_blocks before)
                                      ++ type_heading em e ++ payload_lines done)
                            + length (payloadStr next)))%Z
             /\ (done <> [] ->
                 (Z.of_nat (length ((message ++ type_blocks before)
                                      ++ type_heading em e ++ payload_lines done))
                  <= limit)%Z)
             /\ (before <> [] -> (forall e', In e' before -> payloads e' <> []) ->
                 (Z.of_nat (length (message ++ type_blocks before)) <= limit)%Z)).
Proof.
  induction todo as [|e rest IH]; intros message result truncated Hrun.
  - cbn in Hrun. injection Hrun as <- <-. left.
    cbn. rewrite app_nil_r. repeat split. congruence.
  - cbn [render_errors] in Hrun.
    destruct (ToString (errorMessage e)) as [em|x] eqn:Hem; [|discriminate].
    cbn [obind] in Hrun. cbv zeta in Hrun.
    destruct (render_payloads_cases limit (truncation_marker errors e)
                (payloads e) (message ++ type_heading em e))
      as [[Heq Hfit] | (done & next & later & Hitems & Heq & Hover & Hfit)];
      rewrite Heq in Hrun.
    + (* the window of [e] fitted *)
      assert (Hblock : (message ++ type_heading em e) ++ payload_lines (payloads e)
                       = message ++ type_block e).
      { rewrite (type_block_ok e Hem). now rewrite app_assoc. }
      rewrite Hblock in Hrun, Hfit.
      destruct (IH _ _ _ Hrun)
        as [(-> & -> & Hbound)
           | (-> & before & e' & after & em' & done & next & later
              & Htodo & Hem' & Hitems & Hres & Hover & Hfit' & Hbefore)].
      * left. split; [reflexivity|].
        cbn [type_blocks flat_map]. fold (type_blocks rest).
        rewrite <- app_assoc. split; [reflexivity|].
        intros _ Hall. destruct rest as [|e1 rest'].
        -- cbn [type_blocks flat_map]. rewrite app_nil_r. apply Hfit.
           apply Hall. now left.
        -- rewrite app_assoc. apply Hbound; [congruence|].
           intros e0 He0. apply Hall. now right.
      * right. split; [reflexivity|].
        exists (e :: before), e', after, em', done, next, later.
        cbn [type_blocks flat_map]. fold (type_blocks before).
        rewrite (app_assoc message (type_block e)).
        split; [now rewrite Htodo|]. split; [exact Hem'|].
        split; [exact Hitems|]. split; [exact Hres|].
        split; [exact Hover|]. split; [exact Hfit'|].
        intros _ Hall. destruct before as [|b before'].
        -- cbn [type_blocks flat_map]. rewrite app_nil_r. apply Hfit.
           apply Hall. now left.
        -- apply Hbefore; [congruence|]. intros e0 He0. apply Hall. now right.
    + (* the marker went in while rendering [e] *)
      injection Hrun as <- <-. right. split; [reflexivity|].
      exists [], e, rest, em, done, next, later.
      cbn [type_blocks flat_map app]. rewrite app_nil_r.
      split; [reflexivity|]. split; [exact Hem|]. split; [exact Hitems|].
      rewrite <- !app_assoc.
      split; [reflexivity|].
      rewrite <- app_assoc in Hover, Hfit.
      split; [exact Hover|]. split; [exact Hfit|]. congruence.
Qed.

(** [indexOf] finds an object at its own position when no earlier
    element is the same object. *)
Lemma indexOf_at (before : list entry) (e : entry) (after : list entry) :
  ~ In (ref e) (map ref before) ->
  indexOf (before ++ e :: after) e = Z.of_nat (length before).
Proof.
  induction before as [|b before IH]; intros Hnotin.
  - cbn. now rewrite Nat.eqb_refl.
  - cbn [app indexOf]. cbn [map In] in Hnotin.
    destruct (Nat.eqb_spec (ref b) (ref e)) as [Heq|Hneq].
    + exfalso. apply Hnotin. now left.
    + rewrite IH by (intros H; apply Hnotin; now right).
      cbv zeta. destruct (Z.ltb_spec (Z.of_nat (length before)) 0); [lia|].
      cbn [length]. lia.
Qed.

Lemma truncation_marker_at (before : list entry) (e : entry) (after : list entry) :
  ~ In (ref e) (map ref before) ->
  truncation_marker (before ++ e :: after) e
  = marker_at (before ++ e :: after) (length before).
Proof.
  intros H. unfold truncation_marker, marker_at. now rewrite indexOf_at.
Qed.

(** The report, whole or truncated. *)
Lemma batched_report_cases (c : conf) (sourceName : option jsstring)
  (errors : list entry) (totalErrors : Z) (timeRange : jsstring)
  (report : jsstring) :
  batched_report c sourceName errors totalErrors timeRange = Ok report ->
  let heading := report_heading sourceName errors totalErrors timeRange in
  (report = (heading ++ type_blocks (firstn 10 errors))
              ++ (if Nat.ltb 10 (length errors) then more_types_note errors else [])
   /\ (firstn 10 errors <> [] ->
       (forall e, In e (firstn 10 errors) -> payloads e <> []) ->
       (Z.of_nat (length (heading ++ type_blocks (firstn 10 errors)))
        <= messageLimit c)%Z))
  \/ (exists before e after em done next later,
        firstn 10 errors = before ++ e :: after
        /\ ToString (errorMessage e) = Ok em
        /\ payloads e = done ++ next :: later
        /\ report = (heading ++ type_blocks before) ++ type_heading em e
                      ++ payload_lines done ++ truncation_marker errors e
        /\ (messageLimit c
            < Z.of_nat (length ((heading ++ type_blocks before)
                                  ++ type_heading em e ++ payload_lines done)
                        + length (payloadStr next)))%Z
        /\ (done <> [] ->
            (Z.of_nat (length ((heading ++ type_blocks before)
                                 ++ type_heading em e ++ payload_lines done))
             <= messageLimit c)%Z)
        /\ (before <> [] -> (forall e', In e' before -> payloads e' <> []) ->
            (Z.of_nat (length (heading ++ type_blocks before)) <= messageLimit c)%Z)).
Proof.
  unfold batched_report. cbv zeta. intros Hrun.
  destruct (render_errors (messageLimit c) errors
              (report_heading sourceName errors totalErrors timeRange)
              (firstn 10 errors)) as [[result truncated]|x] eqn:Hloop;
    [|discriminate].
  cbn [obind] in Hrun.
  destruct (render_errors_cases _ _ _ _ Hloop)
    as [(-> & -> & Hbound) | (-> & Hcase)].
  - left. cbn [negb] in Hrun. rewrite andb_true_r in Hrun.
    split; [|exact Hbound].
    destruct (Nat.ltb 10 (length errors)); injection Hrun as <-;
      [reflexivity | now rewrite app_nil_r].
  - right. cbn [negb] in Hrun. rewrite andb_false_r in Hrun.
    injection Hrun as <-. exact Hcase.
Qed.

(** C10. In every truncated report of a group of distinct entry objects,
    the number in the truncation marker is the number of error types of the
    group minus the zero-based index [i] of the type that was being rendered
    when a payload line did not fit: the report is the heading, the types
    before [i] in full, the heading lines of type [i], the payload lines of
    that type that fitted, and the marker; so the type [i] itself counts
    among the "more" types. A report is otherwise not truncated. *)
Theorem truncation_marker_counts_from_current_type
  (c : conf) (sourceName : option jsstring) (errors : list entry)
  (totalErrors : Z) (timeRange : jsstring) (report : jsstring) :
  NoDup (map ref errors) ->
  batched_report c sourceName errors totalErrors timeRange = Ok report ->
  let heading := report_heading sourceName errors totalErrors timeRange in
  report = (heading ++ type_blocks (firstn 10 errors))
             ++ (if Nat.ltb 10 (length errors) then more_types_note errors else [])
  \/ exists i e em done next later,
       (i < 10)%nat
       /\ nth_error errors i = Some e
       /\ ToString (errorMessage e) = Ok em
       /\ payloads e = done ++ next :: later
       /\ (messageLimit c
           < Z.of_nat (length ((heading ++ type_blocks (firstn i errors))
                                 ++ type_heading em e ++ payload_lines done)
                       + length (payloadStr next)))%Z
       /\ report = (heading ++ type_blocks (firstn i errors))
                     ++ type_heading em e ++ payload_lines done
                     ++ nl ++ u "... message truncated ("
                     ++ dec (Z.of_nat (length errors) - Z.of_nat i)
                     ++ u " more error types)".
Proof.
  intros Hnodup Hrun. cbv zeta.
  destruct (batched_report_cases _ _ _ _ _ Hrun)
    as [[Hwhole _]
       | (before & e & after & em & done & next & later
          & Hsplit & Hem & Hitems & Hres & Hover & _)].
  - left. exact Hwhole.
  - right.
    assert (Herrors : errors = before ++ e :: (after ++ skipn 10 errors)).
    { rewrite <- (firstn_skipn 10 errors) at 1. rewrite Hsplit.
      now rewrite <- app_assoc. }
    assert (Hi : (length before < 10)%nat).
    { pose proof (length_firstn 10 errors) as Hlen. rewrite Hsplit in Hlen.
      rewrite length_app in Hlen. cbn [length] in Hlen. lia. }
    assert (Hfirst : firstn (length before) errors = before).
    { rewrite Herrors at 1. rewrite firstn_app, Nat.sub_diag, firstn_all.
      cbn [firstn]. now rewrite app_nil_r. }
    assert (Hnotin : ~ In (ref e) (map ref before)).
    { rewrite Herrors, map_app in Hnodup. cbn [map] in Hnodup.
      apply NoDup_remove_2 in Hnodup. intros H. apply Hnodup.
      apply in_or_app. now left. }
    exists (length before), e, em, done, next, later.
    rewrite Hfirst.
    split; [exact Hi|].
    split; [rewrite Herrors at 1; rewrite nth_error_app2, Nat.sub_diag by lia;
            reflexivity|].
    split; [exact Hem|]. split; [exact Hitems|]. split; [exact Hover|].
    rewrite Hres. do 3 f_equal.
    rewrite Herrors at 1. rewrite truncation_marker_at by exact Hnotin.
    unfold marker_at. now rewrite <- Herrors.
Qed.

Lemma truncation_marker_counts_from_current_type_witness :
  let c := with_maxMessageLength (Some 150%Z) mockConf in
  let errors := [test_entry 0 "Error 0" "test0@example.com";
                 test_entry 1 "Error 1" "test1@example.com"] in
  let report := text_of (batched_report c (Some (u "testFunc")) errors 2 (u "10:00:00")) in
  let heading := report_heading (Some (u "testFunc")) errors 2 (u "10:00:00") in
  report = (heading ++ type_blocks (firstn 10 errors))
             ++ (if Nat.ltb 10 (length errors) then more_types_note errors else [])
  \/ exists i e em done next later,
       (i < 10)%nat
       /\ nth_error errors i = Some e
       /\ ToString (errorMessage e) = Ok em
       /\ payloads e = done ++ next :: later
       /\ (messageLimit c
           < Z.of_nat (length ((heading ++ type_blocks (firstn i errors))
                                 ++ type_heading em e ++ payload_lines done)
                       + length (payloadStr next)))%Z
       /\ report = (heading ++ type_blocks (firstn i errors))
                     ++ type_heading em e ++ payload_lines done
                     ++ nl ++ u "... message truncated ("
                     ++ dec (Z.of_nat (length errors) - Z.of_nat i)
                     ++ u " more error types)".
Proof.
  cbv zeta.
  apply (@truncation_marker_counts_from_current_type
           (with_maxMessageLength (Some 150%Z) mockConf) (Some (u "testFunc"))
           [test_entry 0 "Error 0" "test0@example.com";
            test_entry 1 "Error 1" "test1@example.com"]
           2 (u "10:00:00")).
  - cbn. repeat constructor; cbn; intuition discriminate.
  - vm_compute. reflexivity.
Defined.

(** That report is cut in the second of its two types, and says so with
    "1 more error types". *)
Example truncated_in_second_type :
  let errors := [test_entry 0 "Error 0" "test0@example.com";
                 test_entry 1 "Error 1" "test1@example.com"] in
  batched_report (with_maxMessageLength (Some 150%Z) mockConf)
    (Some (u "testFunc")) errors 2 (u "10:00:00")
  = Ok (report_heading (Some (u "testFunc")) errors 2 (u "10:00:00")
          ++ type_blocks (firstn 1 errors)
          ++ type_heading (u "Error 1") (test_entry 1 "Error 1" "test1@example.com")
          ++ nl ++ u "... message truncated (1 more error types)").
Proof. vm_compute. reflexivity. Qed.

(** C5, as the code has it: with [maxMessageLength = 200], an error whose
    message is 300 characters long gives a report that is longer than the
    limit by more than its truncation marker, since heading lines are
    appended without a check. *)
Lemma report_exceeds_limit_by_more_than_marker :
  let c := with_maxMessageLength (Some 200%Z) mockConf in
  let e := new_entry 0 1000 (Some (u "test")) (VError (repeat 120%N 300))
             (Some (u "testFunc")) (VObj [(u "to", VStr (u "test@example.com"))]) [] in
  exists report,
    batched_report c (Some (u "testFunc")) [e] 1 (u "10:00:00") = Ok report
    /\ messageLimit c = 200%Z
    /\ length (truncation_marker [e] e) = 43%nat
    /\ length report = 448%nat
    /\ (messageLimit c + Z.of_nat (length (truncation_marker [e] e))
        < Z.of_nat (length report))%Z.
Proof.
  cbv zeta. eexists. split; [vm_compute; reflexivity|].
  vm_compute. repeat split; reflexivity.
Qed.

(** C5, amended. Only payload lines are checked against the limit: when
    the next payload line would push the report past
    [maxMessageLength], the truncation marker is appended and nothing
    follows it. The report is a body followed by a tail, where the body is
    no longer than the limit (or is the bare report heading, which is
    never checked), and the tail is empty, or the note on omitted types,
    or the truncation marker, or, when the very first payload line of a
    type did not fit, the two heading lines of that type followed by the
    truncation marker. This holds for entries with at least one payload,
    as the enqueue path makes them. *)
Theorem report_exceeds_limit_by_heading_and_marker_only
  (c : conf) (sourceName : option jsstring) (errors : list entry)
  (totalErrors : Z) (timeRange : jsstring) (report : jsstring) :
  (forall e, In e (firstn 10 errors) -> payloads e <> []) ->
  batched_report c sourceName errors totalErrors timeRange = Ok report ->
  exists body tail,
    report = body ++ tail
    /\ (Z.of_nat (length body)
        <= Z.max (messageLimit c)
             (Z.of_nat (length (report_heading sourceName errors totalErrors
                                  timeRange))))%Z
    /\ (tail = []
        \/ tail = more_types_note errors
        \/ (exists e, In e (firstn 10 errors)
                      /\ tail = truncation_marker errors e)
        \/ (exists e em, In e (firstn 10 errors)
                         /\ ToString (errorMessage e) = Ok em
                         /\ tail = type_heading em e ++ truncation_marker errors e)).
Proof.
  intros Hpayloads Hrun.
  destruct (batched_report_cases _ _ _ _ _ Hrun)
    as [[Hwhole Hbound]
       | (before & e & after & em & done & next & later
          & Hsplit & Hem & Hitems & Hres & Hover & Hdone & Hbefore)];
    cbv zeta in *.
  - eexists. eexists. split; [exact Hwhole|]. split.
    + destruct (firstn 10 errors) as [|e0 todo] eqn:Htodo.
      * cbn [type_blocks flat_map]. rewrite app_nil_r. lia.
      * specialize (Hbound ltac:(congruence) Hpayloads). lia.
    + destruct (Nat.ltb 10 (length errors)); auto.
  - assert (Hin : In e (firstn 10 errors)).
    { rewrite Hsplit. apply in_or_app. right. now left. }
    destruct done as [|d done'].
    + exists (report_heading sourceName errors totalErrors timeRange
                ++ type_blocks before),
             (type_heading em e ++ truncation_marker errors e).
      split; [rewrite Hres; cbn [payload_lines flat_map app]; reflexivity|].
      split.
      * destruct before as [|b before'].
        -- cbn [type_blocks flat_map]. rewrite app_nil_r. lia.
        -- assert (Hle : (Z.of_nat (length (report_heading sourceName errors
                                              totalErrors timeRange
                                              ++ type_blocks (b :: before')))
                          <= messageLimit c)%Z).
           { apply Hbefore; [congruence|]. intros e' He'. apply Hpayloads.
             rewrite Hsplit. apply in_or_app. now left. }
           lia.
      * right. right. right. exists e, em. auto.
    + exists ((report_heading sourceName errors totalErrors timeRange
                 ++ type_blocks before)
                ++ type_heading em e ++ payload_lines (d :: done')),
             (truncation_marker errors e).
      split; [rewrite Hres; now rewrite <- !app_assoc|].
      split.
      * specialize (Hdone ltac:(congruence)). lia.
      * right. right. left. exists e. auto.
Qed.

Lemma report_exceeds_limit_by_heading_and_marker_only_witness :
  let c := with_maxMessageLength (Some 200%Z) mockConf in
  let e := new_entry 0 1000 (Some (u "test")) (VError (repeat 120%N 300))
             (Some (u "testFunc")) (VObj [(u "to", VStr (u "test@example.com"))]) [] in
  let report := text_of (batched_report c (Some (u "testFunc")) [e] 1 (u "10:00:00")) in
  exists body tail,
    report = body ++ tail
    /\ (Z.of_nat (length body)
        <= Z.max (messageLimit c)
             (Z.of_nat (length (report_heading (Some (u "testFunc")) [e] 1
                                  (u "10:00:00")))))%Z
    /\ (tail = []
        \/ tail = more_types_note [e]
        \/ (exists e', In e' (firstn 10 [e])
                       /\ tail = truncation_marker [e] e')
        \/ (exists e' em, In e' (firstn 10 [e])
                          /\ ToString (errorMessage e') = Ok em
                          /\ tail = type_heading em e' ++ truncation_marker [e] e')).
Proof.
  cbv zeta.
  apply (@report_exceeds_limit_by_heading_and_marker_only
           (with_maxMessageLength (Some 200%Z) mockConf) (Some (u "testFunc"))
           [new_entry 0 1000 (Some (u "test")) (VError (repeat 120%N 300))
              (Some (u "testFunc")) (VObj [(u "to", VStr (u "test@example.com"))]) []]
           1 (u "10:00:00")).
  - intros e He. cbn [firstn In] in He. destruct He as [<-|[]]. discriminate.
  - vm_compute. reflexivity.
Defined.

(** ** Grouping *)

Lemma occurs_In (k : jsstring) (keys : list jsstring) :
  occurs k keys = true <-> In k keys.
Proof.
  unfold occurs. rewrite existsb_exists. split.
  - intros (x & Hin & Heq). apply jsstring_eqb_eq in Heq. now subst x.
  - intros Hin. exists k. split; [exact Hin | apply jsstring_eqb_refl].
Qed.

Lemma occurs_false (k : jsstring) (keys : list jsstring) :
  occurs k keys = false <-> ~ In k keys.
Proof.
  rewrite <- occurs_In. destruct (occurs k keys); split; congruence.
Qed.

Lemma jsstring_eqb_neq (a b : jsstring) : jsstring_eqb a b = false <-> a <> b.
Proof.
  rewrite <- jsstring_eqb_eq. destruct (jsstring_eqb a b); split; congruence.
Qed.

Lemma In_distinct (k : jsstring) (keys : list jsstring) :
  In k (distinct keys) <-> In k keys.
Proof.
  induction keys as [|k0 keys IH]; [reflexivity|].
  cbn [distinct In]. rewrite filter_In, IH, negb_true_iff, jsstring_eqb_neq.
  split.
  - intros [H|[H _]]; auto.
  - intros [H|H]; [now left|].
    destruct (list_eq_dec N.eq_dec k0 k) as [->|Hne]; [now left|].
    right. split; [exact H | congruence].
Qed.

Lemma NoDup_distinct (keys : list jsstring) : NoDup (distinct keys).
Proof.
  induction keys as [|k0 keys IH]; cbn [distinct]; constructor.
  - rewrite filter_In, negb_true_iff, jsstring_eqb_neq. intros [_ H]. congruence.
  - now apply NoDup_filter.
Qed.

Lemma distinct_snoc (keys : list jsstring) (k : jsstring) :
  distinct (keys ++ [k])
  = if occurs k keys then distinct keys else distinct keys ++ [k].
Proof.
  induction keys as [|k0 keys IH]; [reflexivity|].
  cbn [app distinct]. rewrite IH. unfold occurs. cbn [existsb].
  fold (occurs k keys).
  destruct (jsstring_eqb k k0) eqn:E; cbn [orb].
  - destruct (occurs k keys); [reflexivity|].
    rewrite filter_app. cbn [filter]. rewrite E. cbn [negb].
    now rewrite app_nil_r.
  - destruct (occurs k keys); [reflexivity|].
    rewrite filter_app. cbn [filter]. rewrite E. reflexivity.
Qed.

Lemma members_of_snoc (k : jsstring) (entries : list entry) (e : entry) :
  members_of k (entries ++ [e])
  = members_of k entries ++ (if jsstring_eqb (group_key e) k then [e] else []).
Proof. unfold members_of. rewrite filter_app. reflexivity. Qed.

Lemma members_of_absent (k : jsstring) (entries : list entry) :
  ~ In k (map group_key entries) -> members_of k entries = [].
Proof.
  intros Hnotin. unfold members_of.
  induction entries as [|e entries IH]; [reflexivity|].
  cbn [filter]. cbn [map In] in Hnotin.
  destruct (jsstring_eqb (group_key e) k) eqn:E.
  - apply jsstring_eqb_eq in E. exfalso. apply Hnotin. now left.
  - apply IH. intros H. apply Hnotin. now right.
Qed.

Lemma group_of_snoc (members : list entry) (e : entry) :
  group_of (members ++ [e]) = add_entry e (group_of members).
Proof. unfold group_of. now rewrite fold_left_app. Qed.

Section KeyedLists.
Variable A : Type.
Variable F : jsstring -> A.

Lemma assoc_get_keyed (k : jsstring) (keys : list jsstring) :
  assoc_get k (map (fun k' => (k', F k')) keys)
  = if occurs k keys then Some (F k) else None.
Proof.
  induction keys as [|k0 keys IH]; [reflexivity|].
  cbn [map assoc_get]. unfold occurs. cbn [existsb]. fold (occurs k keys).
  destruct (jsstring_eqb k k0) eqn:E; cbn [orb].
  - apply jsstring_eqb_eq in E. now subst k0.
  - exact IH.
Qed.

Lemma assoc_modify_keyed (k : jsstring) (f : A -> A) (keys : list jsstring) :
  NoDup keys ->
  assoc_modify k f (map (fun k' => (k', F k')) keys)
  = map (fun k' => (k', if jsstring_eqb k k' then f (F k') else F k')) keys.
Proof.
  induction keys as [|k0 keys IH]; intros Hnodup; [reflexivity|].
  inversion Hnodup as [|x l Hnotin Hnodup']; subst.
  cbn [map assoc_modify].
  destruct (jsstring_eqb k k0) eqn:E.
  - apply jsstring_eqb_eq in E. subst k0. f_equal.
    apply map_ext_in. intros k' Hk'.
    destruct (jsstring_eqb k k') eqn:E'; [|reflexivity].
    apply jsstring_eqb_eq in E'. subst k'. contradiction.
  - f_equal. now apply IH.
Qed.

Lemma assoc_modify_absent (k : jsstring) (f : A -> A)
  (l l' : list (jsstring * A)) :
  assoc_get k l = None ->
  assoc_modify k f (l ++ l') = l ++ assoc_modify k f l'.
Proof.
  induction l as [|[k0 a] l IH]; intros Hget; [reflexivity|].
  cbn [app assoc_modify]. cbn [assoc_get] in Hget.
  destruct (jsstring_eqb k k0); [discriminate|].
  f_equal. now apply IH.
Qed.
End KeyedLists.

(** The groups after the entries [p] have been scanned. *)
Lemma group_step_scanned (p : list entry) (e : entry) :
  group_step
    (map (fun k => (k, group_of (members_of k p))) (distinct (map group_key p))) e
  = map (fun k => (k, group_of (members_of k (p ++ [e]))))
      (distinct (map group_key (p ++ [e]))).
Proof.
  unfold group_step. fold (group_key e).
  rewrite map_app. cbn [map]. rewrite distinct_snoc.
  unfold assoc_has at 1. rewrite assoc_get_keyed.
  assert (Hocc : occurs (group_key e) (distinct (map group_key p))
                 = occurs (group_key e) (map group_key p)).
  { destruct (occurs (group_key e) (map group_key p)) eqn:E.
    - apply occurs_In. apply In_distinct. now apply occurs_In.
    - apply occurs_false. rewrite In_distinct. now apply occurs_false. }
  rewrite Hocc.
  destruct (occurs (group_key e) (map group_key p)) eqn:E.
  - rewrite assoc_modify_keyed by apply NoDup_distinct.
    apply map_ext. intros k. f_equal.
    rewrite members_of_snoc.
    destruct (jsstring_eqb (group_key e) k).
    + apply eq_sym, group_of_snoc.
    + now rewrite app_nil_r.
  - unfold assoc_set, assoc_has. rewrite assoc_get_keyed, Hocc.
    rewrite assoc_modify_absent by (now rewrite assoc_get_keyed, Hocc).
    rewrite map_app. cbn [map assoc_modify]. rewrite jsstring_eqb_refl.
    f_equal.
    + apply map_ext_in. intros k Hk. f_equal. f_equal.
      rewrite members_of_snoc.
      destruct (jsstring_eqb (group_key e) k) eqn:E'; [|now rewrite app_nil_r].
      apply jsstring_eqb_eq in E'. subst k.
      exfalso. apply occurs_false in E. apply E. now apply In_distinct.
    + f_equal. f_equal. rewrite members_of_snoc, jsstring_eqb_refl.
      rewrite members_of_absent by (now apply occurs_false).
      reflexivity.
Qed.

(** The aggregator: one group per distinct key, in the order in which the
    keys are first met, each holding exactly the entries of its key. *)
Lemma group_entries_closed_form (entries : list entry) :
  group_entries entries
  = map (fun k => (k, group_of (members_of k entries)))
      (distinct (map group_key entries)).
Proof.
  unfold group_entries.
  enough (H : forall l p,
            fold_left group_step l
              (map (fun k => (k, group_of (members_of k p)))
                 (distinct (map group_key p)))
            = map (fun k => (k, group_of (members_of k (p ++ l))))
                (distinct (map group_key (p ++ l)))).
  { exact (H entries []). }
  induction l as [|e l IH]; intros p.
  - now rewrite app_nil_r.
  - cbn [fold_left]. rewrite group_step_scanned, IH, <- app_assoc. reflexivity.
Qed.

(** ** What a group holds *)

Lemma group_of_errors (members : list entry) :
  errors (group_of members) = members.
Proof.
  induction members as [|e members IH] using rev_ind; [reflexivity|].
  rewrite group_of_snoc. cbn [add_entry errors]. now rewrite IH.
Qed.

Lemma group_of_times (members : list entry) :
  members <> [] ->
  (forall e, In e members -> valid_time (firstSeen e) /\ valid_time (lastSeen e)) ->
  exists a b,
    earliestTime (group_of members) = Fin a
    /\ latestTime (group_of members) = Fin b
    /\ valid_time a /\ valid_time b.
Proof.
  induction members as [|e members IH] using rev_ind; intros Hne Hvalid;
    [congruence|].
  rewrite group_of_snoc. cbn [add_entry earliestTime latestTime].
  destruct (Hvalid e) as [Hfirst Hlast]; [apply in_or_app; right; now left|].
  destruct members as [|m members'].
  - cbn. exists (firstSeen e), (lastSeen e). auto.
  - destruct IH as (a & b & -> & -> & Ha & Hb); [congruence| |].
    + intros e' He'. apply Hvalid. apply in_or_app. now left.
    + cbn [num_ltb].
      destruct (firstSeen e <? a)%Z, (b <? lastSeen e)%Z;
        eexists; eexists; repeat split; eassumption.
Qed.

Lemma formatTimeRange_valid (a b : Z) :
  valid_time a -> valid_time b ->
  exists timeRange, _formatTimeRange (Fin a) (Fin b) = Ok timeRange.
Proof.
  unfold valid_time, _formatTimeRange, new_Date. intros Ha Hb.
  destruct (Z.leb_spec (Z.abs a) 8640000000000000); [|lia].
  destruct (Z.leb_spec (Z.abs b) 8640000000000000); [|lia].
  cbn [formatTime obind]. destruct (num_eqb (Fin a) (Fin b)); eexists; reflexivity.
Qed.

(** Rendering does not throw on entries whose message converts to a
    string. *)
Lemma render_errors_total (limit : Z) (errors todo : list entry) :
  (forall e, In e todo -> is_ok (ToString (errorMessage e)) = true) ->
  forall message, exists r, render_errors limit errors message todo = Ok r.
Proof.
  induction todo as [|e todo IH]; intros Hok message.
  - eexists. reflexivity.
  - cbn [render_errors].
    destruct (ToString (errorMessage e)) as [em|x] eqn:Hem.
    + cbn [obind]. cbv zeta.
      destruct (render_payloads _ _ _ _) as [message' [|]].
      * eexists. reflexivity.
      * apply IH. intros e' He'. apply Hok. now right.
    + specialize (Hok e (or_introl eq_refl)). rewrite Hem in Hok. discriminate.
Qed.

Lemma rendered_among_errors (errors : list entry) (e : entry) :
  In e (firstn 10 errors) -> In e errors.
Proof.
  intros H. rewrite <- (firstn_skipn 10 errors). apply in_or_app. now left.
Qed.

Lemma batched_report_total (c : conf) (sourceName : option jsstring)
  (errors : list entry) (totalErrors : Z) (timeRange : jsstring) :
  (forall e, In e errors -> is_ok (ToString (errorMessage e)) = true) ->
  exists report,
    batched_report c sourceName errors totalErrors timeRange = Ok report.
Proof.
  intros Hok. unfold batched_report. cbv zeta.
  destruct (@render_errors_total (messageLimit c) errors (firstn 10 errors))
    with (message := report_heading sourceName errors totalErrors timeRange)
    as [[message truncated] Hr].
  - intros e He. apply Hok. now apply rendered_among_errors.
  - rewrite Hr. cbn [obind].
    destruct (Nat.ltb 10 (length errors) && negb truncated); eexists; reflexivity.
Qed.

Lemma group_report_total (c : conf) (members : list entry) :
  members <> [] ->
  (forall e, In e members ->
     is_ok (ToString (errorMessage e)) = true
     /\ valid_time (firstSeen e) /\ valid_time (lastSeen e)) ->
  exists report, group_report c (group_of members) = Ok report.
Proof.
  intros Hne Hok. unfold group_report. rewrite group_of_errors.
  destruct members as [|first rest]; [congruence|].
  destruct (@group_of_times (first :: rest)) as (a & b & -> & -> & Ha & Hb);
    [congruence | intros e He; now apply Hok |].
  destruct (formatTimeRange_valid Ha Hb) as [timeRange ->]. cbn [obind].
  apply batched_report_total. intros e He. now apply Hok.
Qed.

(** ** The dispatch loop *)

(** Sending one group: its report goes to [logError] on the channel of
    its first entry, and the outcome of that call is the outcome of the
    turn. *)
Lemma send_group_effect (w : world) (c : conf) (g : group) (first : entry)
  (rest : list entry) (report : jsstring) (st : state) :
  errors g = first :: rest ->
  group_report c g = Ok report ->
  let attempt := LogErrorCall (reqChannel first) (VStr report) [] in
  let r := send_group w c g st in
  errorBatch (snd r) = errorBatch st
  /\ fresh (snd r) = fresh st
  /\ ((enable c = false /\ trace (snd r) = trace st ++ [attempt]
       /\ fst r = Ok tt)
      \/ (enable c = true /\ exists rq,
            trace (snd r) = trace st ++ [attempt; Request rq]
            /\ (forall e, fst r = Throw e
                          <-> req w (trace st ++ [attempt]) rq = Throw e))).
Proof.
  intros Herrors Hreport. cbv zeta.
  unfold group_report in Hreport. rewrite Herrors in Hreport.
  unfold send_group, _sendBatchedErrorMessage, bind, lift, ret.
  rewrite Herrors.
  destruct (_formatTimeRange (earliestTime g) (latestTime g)) as [timeRange|x];
    [|discriminate].
  cbn [obind] in Hreport. rewrite Hreport.
  destruct (logError_effect w c (reqChannel first) (VStr report) [] st)
    as (Hb & Hf & Hcase). cbv zeta in Hb, Hf, Hcase.
  destruct (logError w c (reqChannel first) (VStr report) [] st) as [res st'].
  cbn [fst snd] in *.
  assert (Hsnd : forall (o : outcome value),
            snd (match o with
                 | Ok _ => (Ok tt, st')
                 | Throw e => (@Throw unit e, st')
                 end) = st') by (now intros [v|e]).
  assert (Hfst : forall (o : outcome value) e,
            fst (match o with
                 | Ok _ => (Ok tt, st')
                 | Throw e => (@Throw unit e, st')
                 end) = Throw e <-> o = Throw e).
  { intros [v|e0] e; cbn; split; congruence. }
  rewrite Hsnd. split; [exact Hb|]. split; [exact Hf|].
  destruct Hcase as [(Hen & Ht & Hr) | (Hen & rq & Ht & Hr)].
  - left. split; [exact Hen|]. split; [exact Ht|]. now rewrite Hr.
  - right. split; [exact Hen|]. exists rq. split; [exact Ht|].
    intros e. rewrite Hfst, Hr. reflexivity.
Qed.

(** The loop dispatches the groups in order and stops at the first
    rejected dispatch: a prefix of the groups is dispatched, all of them
    when the loop completes, which it does when the transport rejects
    nothing. *)
Lemma send_groups_effect (w : world) (c : conf) (groups : list group) :
  forall st,
    (forall g, In g groups ->
       errors g <> [] /\ is_ok (group_report c g) = true) ->
    let r := for_of groups (send_group w c) st in
    errorBatch (snd r) = errorBatch st
    /\ exists n,
         (n <= length groups)%nat
         /\ (groups <> [] -> (1 <= n)%nat)
         /\ logged (trace (snd r))
            = logged (trace st) ++ map (group_dispatch c) (firstn n groups)
         /\ (is_ok (fst r) = true -> n = length groups)
         /\ ((forall tr rq, is_ok (req w tr rq) = true) -> is_ok (fst r) = true).
Proof.
  induction groups as [|g groups IH]; intros st Hgroups; cbv zeta.
  - cbn. split; [reflexivity|]. exists 0%nat.
    rewrite app_nil_r. repeat split; try reflexivity; try lia; congruence.
  - destruct (Hgroups g (or_introl eq_refl)) as [Hne Hrep].
    destruct (errors g) as [|first rest] eqn:Herrors; [congruence|].
    destruct (group_report c g) as [report|x] eqn:Hreport; [|discriminate].
    destruct (send_group_effect w c g st Herrors Hreport) as (Hb & _ & Hcase).
    cbv zeta in Hb, Hcase.
    assert (Hlogged : logged (trace (snd (send_group w c g st)))
                      = logged (trace st) ++ [group_dispatch c g]).
    { unfold group_dispatch. rewrite Herrors, Hreport. cbn [text_of].
      destruct Hcase as [(_ & -> & _) | (_ & rq & -> & _)];
        rewrite logged_app; reflexivity. }
    assert (Hok : (forall tr rq, is_ok (req w tr rq) = true) ->
                  is_ok (fst (send_group w c g st)) = true).
    { intros Hreq.
      destruct Hcase as [(_ & _ & ->) | (_ & rq & _ & Hthrow)]; [reflexivity|].
      destruct (fst (send_group w c g st)) as [v|e]; [reflexivity|].
      specialize (Hreq (trace st ++ [LogErrorCall (reqChannel first) (VStr report) []]) rq).
      destruct (Hthrow e) as [Hto _]. rewrite (Hto eq_refl) in Hreq.
      discriminate. }
    cbn [for_of]. unfold bind.
    destruct (send_group w c g st) as [[[]|e] st1]; cbn [fst snd] in *.
    + destruct (IH st1) as (Hb' & n & Hn & Hn1 & Hlog & Hall & Hoks).
      { intros g' Hg'. apply Hgroups. now right. }
      cbv zeta in Hb', Hlog, Hall, Hoks.
      split; [congruence|]. exists (S n).
      split; [cbn [length]; lia|]. split; [lia|].
      split; [rewrite Hlog, Hlogged, <- app_assoc; reflexivity|].
      split; [intros H; cbn [length]; f_equal; now apply Hall|].
      exact Hoks.
    + split; [exact Hb|]. exists 1%nat.
      split; [cbn [length]; lia|]. split; [lia|].
      split; [exact Hlogged|].
      split; [discriminate|]. exact Hok.
Qed.

(** The flush of a store that is not empty: the groups of the closed form
    are dispatched in order up to the first rejected dispatch, a failure
    is logged, and the store is cleared. *)
Lemma processBatchedErrors_effect (w : world) (c : conf) (st : state)
  (batch : store) :
  errorBatch st = Some batch ->
  (forall e, In e (map snd batch) ->
     is_ok (ToString (errorMessage e)) = true
     /\ valid_time (firstSeen e) /\ valid_time (lastSeen e)) ->
  let entries := map snd batch in
  let groups :=
    map (fun k => group_of (members_of k entries))
      (distinct (map group_key entries)) in
  let r := _processBatchedErrors w c st in
  exists n,
    (n <= length groups)%nat
    /\ (groups <> [] -> (1 <= n)%nat)
    /\ logged (trace (snd r))
       = logged (trace st) ++ map (group_dispatch c) (firstn n groups)
    /\ ((forall tr rq, is_ok (req w tr rq) = true) -> n = length groups).
Proof.
  intros Hst Hentries. cbv zeta.
  unfold _processBatchedErrors. rewrite Hst.
  destruct batch as [|b batch'].
  - exists 0%nat. cbn. rewrite app_nil_r.
    repeat split; try reflexivity; try lia; congruence.
  - set (batch := b :: batch') in *.
    set (entries := map snd batch) in *.
    set (groups := map (fun k => group_of (members_of k entries))
                     (distinct (map group_key entries))).
    assert (Hgroups : map snd (group_entries entries) = groups).
    { rewrite group_entries_closed_form, map_map. reflexivity. }
    rewrite Hgroups.
    destruct (@send_groups_effect w c groups st)
      as (Hb & n & Hn & Hn1 & Hlog & Hall & Hoks).
    { intros g Hg. subst groups. apply in_map_iff in Hg as (k & <- & Hk).
      apply (proj1 (In_distinct _ _)) in Hk.
      apply in_map_iff in Hk as (e & Hke & He).
      assert (Hmem : In e (members_of k entries)).
      { unfold members_of. apply filter_In. split; [exact He|].
        rewrite Hke. apply jsstring_eqb_refl. }
      assert (Hne : members_of k entries <> []).
      { intros Habs. rewrite Habs in Hmem. exact Hmem. }
      rewrite group_of_errors. split; [exact Hne|].
      destruct (@group_report_total c (members_of k entries) Hne) as [report ->];
        [|reflexivity].
      intros e' He'. apply Hentries. unfold members_of in He'.
      now apply filter_In in He' as [He' _]. }
    cbv zeta in Hb, Hlog, Hall, Hoks.
    exists n. split; [exact Hn|]. split; [exact Hn1|].
    unfold try_finally, try_catch, set_store, console_error, emit.
    destruct (for_of groups (send_group w c) st) as [[[]|e] st1];
      cbn [fst snd trace] in *.
    + split; [exact Hlog|]. intros _. now apply Hall.
    + split.
      * rewrite logged_app, Hlog. cbn. now rewrite app_nil_r.
      * intros Hreq. specialize (Hoks Hreq). discriminate.
Qed.

(** ** The store between flushes *)

Lemma createErrorKey_message_converts (ch : option jsstring) (err : value)
  (src : option jsstring) (key : jsstring) :
  _createErrorKey ch err src = Ok key ->
  is_ok (ToString (message_of err)) = true.
Proof.
  unfold _createErrorKey, errorMsg_of. intros Hkey.
  destruct (nullish err) eqn:Hnull.
  - destruct err as [[| | | |]| | |]; try discriminate Hnull; reflexivity.
  - destruct (truthy (message_of err)) eqn:Htruthy.
    + cbn [obind] in Hkey.
      destruct (message_of err) as [[| | | |]| | |]; try discriminate Hkey.
      reflexivity.
    + destruct (message_of err) as [p| | |]; try discriminate Htruthy.
      reflexivity.
Qed.

Lemma push_payload_ok (bound : nat) (now : Z) (it : item) (e : entry) :
  entry_ok bound e -> entry_ok bound (push_payload now it e).
Proof.
  intros (Href & Hmsg & Hne & Hlen). unfold entry_ok.
  rewrite push_payload_window by exact Hlen.
  cbn [push_payload ref errorMessage].
  split; [exact Href|]. split; [exact Hmsg|].
  assert (Hl : length (lastn 3 (payloads e ++ [it]))
               = Nat.min (length (payloads e ++ [it])) 3) by apply lastn_length.
  rewrite length_app in Hl. cbn [length] in Hl.
  split; [|lia].
  intros Habs. rewrite Habs in Hl. cbn [length] in Hl. lia.
Qed.

Lemma In_assoc_modify {A : Type} (k k' : jsstring) (f : A -> A) (a : A)
  (l : list (jsstring * A)) :
  In (k', a) (assoc_modify k f l) ->
  In (k', a) l \/ exists a0, In (k', a0) l /\ a = f a0.
Proof.
  induction l as [|[k0 a0] l IH]; cbn [assoc_modify]; [intros []|].
  destruct (jsstring_eqb k k0).
  - intros [[= <- <-]|H].
    + right. exists a0. split; [now left | reflexivity].
    + left. now right.
  - intros [H|H].
    + left. now left.
    + destruct (IH H) as [H'|(a1 & H' & ->)].
      * left. now right.
      * right. exists a1. split; [now right | reflexivity].
Qed.

Lemma assoc_modify_refs (k : jsstring) (f : entry -> entry) (l : store) :
  (forall e, ref (f e) = ref e) ->
  map (fun kv => ref (snd kv)) (assoc_modify k f l)
  = map (fun kv => ref (snd kv)) l.
Proof.
  intros Hf. induction l as [|[k0 e0] l IH]; [reflexivity|].
  cbn [assoc_modify]. destruct (jsstring_eqb k k0); cbn [map snd].
  - now rewrite Hf.
  - now rewrite IH.
Qed.

(** The enqueue path keeps the store well formed. *)
Lemma logErrorEnqueue_store_ok (w : world) (c : conf) (now : Z)
  (reqChannel : option jsstring) (err : value) (sourceName : option jsstring)
  (payload : value) (extra : list value) (st : state) :
  store_ok st ->
  store_ok (snd (logErrorEnqueue w c now reqChannel err sourceName payload
                   extra st)).
Proof.
  intros Hok.
  destruct (errorBatch st) as [batch|] eqn:Hst.
  - rewrite (@logErrorEnqueue_batching w c now reqChannel err sourceName payload
               extra st batch Hst).
    cbv zeta.
    set (ch := if truthy_str reqChannel then reqChannel else channel c).
    set (what := "Error batching failed, falling back to direct log"%string).
    destruct (Hok batch Hst) as (Hkeys & Hrefs & Hentries).
    assert (Hfallback :
      store_ok (snd ((console_error what ;;
                      logError w c ch err (value_of sourceName :: payload :: extra) ;;
                      ret VUndefined) st))).
    { destruct (direct_log_effect w c what ch err
                  (value_of sourceName :: payload :: extra) st)
        as (Hsnd & _ & _ & Hb & Hf & _).
      cbv zeta in Hsnd, Hb, Hf. rewrite Hsnd.
      intros batch' Hst'. rewrite Hb in Hst'. rewrite Hf. now apply Hok. }
    destruct (_createErrorKey ch err sourceName) as [errorKey|x] eqn:Hkey;
      [|exact Hfallback].
    destruct (assoc_get errorKey batch) as [old|] eqn:Hget.
    + intros batch' [= <-]. cbn [snd fresh].
      rewrite assoc_modify_keys, assoc_modify_refs by reflexivity.
      split; [exact Hkeys|]. split; [exact Hrefs|].
      intros k e Hin. apply In_assoc_modify in Hin as [Hin|(e0 & Hin & ->)].
      * now apply (Hentries k).
      * apply push_payload_ok. now apply (Hentries k).
    + destruct (nullish err); [exact Hfallback|].
      intros batch' [= <-]. cbn [snd fresh].
      rewrite assoc_set_fresh by exact Hget.
      rewrite !map_app. cbn [map fst snd new_entry ref].
      assert (Hbound : forall r, In r (map (fun kv => ref (snd kv)) batch) ->
                                 (r < fresh st)%nat).
      { intros r Hr. apply in_map_iff in Hr as ([k e] & <- & Hin).
        now apply (Hentries k e). }
      split; [|split].
      * apply NoDup_app; [exact Hkeys | repeat constructor; intros [] |].
        intros k Hk [<-|[]]. now apply assoc_get_None in Hget.
      * apply NoDup_app; [exact Hrefs | repeat constructor; intros [] |].
        intros r Hr [<-|[]]. specialize (Hbound _ Hr). lia.
      * intros k e Hin. apply in_app_or in Hin as [Hin|[[= <- <-]|[]]].
        -- destruct (Hentries k e Hin) as (H1 & H2 & H3 & H4).
           repeat split; auto.
        -- unfold entry_ok. cbn [new_entry ref errorMessage payloads length].
           split; [lia|]. split; [|split; [discriminate | lia]].
           eapply createErrorKey_message_converts. exact Hkey.
  - intros batch' Hst'. exfalso.
    unfold logErrorEnqueue in Hst'. rewrite Hst in Hst'.
    destruct (direct_log_effect w c
                "Error batching not initialized, falling back to direct log"
                reqChannel err (value_of sourceName :: payload :: extra) st)
      as (_ & _ & _ & Hb & _).
    cbv zeta in Hb. rewrite Hb, Hst in Hst'. discriminate.
Qed.

Lemma batching_instance_ok : store_ok batching_instance.
Proof.
  intros batch [= <-]. cbn. split; [constructor|]. split; [constructor|].
  intros key e [].
Qed.

Lemma enqueue_all_store_ok (w : world) (c : conf) (calls : list call) :
  forall st, store_ok st -> store_ok (enqueue_all w c calls st).
Proof.
  induction calls as [|k calls IH]; intros st Hok; [exact Hok|].
  cbn [enqueue_all]. apply IH. now apply logErrorEnqueue_store_ok.
Qed.

Lemma kept_refs_distinct (keep : entry -> bool) (entries : list entry) :
  NoDup (map ref entries) -> NoDup (map ref (filter keep entries)).
Proof.
  induction entries as [|e entries IH]; intros Hnodup; [constructor|].
  cbn [map filter] in *. apply NoDup_cons_iff in Hnodup as [Hnotin Hnodup].
  destruct (keep e); [|now apply IH].
  cbn [map]. apply NoDup_cons; [|now apply IH].
  intros Hin. apply Hnotin. apply in_map_iff in Hin as (e' & Heq & He').
  apply filter_In in He'. rewrite <- Heq. apply in_map. tauto.
Qed.

(** What a flush renders: each group of a well-formed store is made of
    distinct objects with a window each and a message that converts, which
    is what the properties of the formatter ask of a group. *)
Lemma groups_of_store_ok (st : state) (batch : store) (k : jsstring) :
  store_ok st ->
  errorBatch st = Some batch ->
  NoDup (map ref (members_of k (map snd batch)))
  /\ forall e, In e (members_of k (map snd batch)) ->
       payloads e <> [] /\ is_ok (ToString (errorMessage e)) = true.
Proof.
  intros Hok Hst. destruct (Hok batch Hst) as (_ & Hrefs & Hentries).
  split.
  - unfold members_of. apply kept_refs_distinct. now rewrite map_map.
  - intros e He. unfold members_of in He. apply filter_In in He as [He _].
    apply in_map_iff in He as ([k0 e0] & <- & Hin).
    destruct (Hentries k0 e0 Hin) as (_ & Hmsg & Hne & _). auto.
Qed.

(** ** One report per pair *)

Lemma opt_eqb_eq (a b : option jsstring) : opt_eqb a b = true <-> a = b.
Proof.
  destruct a as [x|], b as [y|]; cbn; try (split; congruence).
  rewrite jsstring_eqb_eq. split; congruence.
Qed.

Lemma same_pair_eq (p : option jsstring * option jsstring) (e : entry) :
  same_pair p e = true <-> p = pair_of e.
Proof.
  unfold same_pair, pair_of. rewrite andb_true_iff, !opt_eqb_eq.
  destruct p as [a b]. cbn [fst snd]. split.
  - intros [-> ->]. reflexivity.
  - intros [= -> ->]. split; reflexivity.
Qed.

Lemma group_key_of_pair (e1 e2 : entry) :
  pair_of e1 = pair_of e2 -> group_key e1 = group_key e2.
Proof. unfold pair_of, group_key. intros [= -> ->]. reflexivity. Qed.

(** Every key met has a first entry. *)
Lemma members_of_head (k : jsstring) (entries : list entry) :
  In k (distinct (map group_key entries)) ->
  exists first rest,
    members_of k entries = first :: rest
    /\ In first entries
    /\ group_key first = k.
Proof.
  intros Hk. apply (proj1 (In_distinct _ _)) in Hk.
  apply in_map_iff in Hk as (e & Hke & He).
  assert (Hmem : In e (members_of k entries)).
  { unfold members_of. apply filter_In. split; [exact He|].
    rewrite Hke. apply jsstring_eqb_refl. }
  destruct (members_of k entries) as [|first rest] eqn:Hmembers; [contradiction|].
  exists first, rest. split; [reflexivity|].
  assert (Hfirst : In first (members_of k entries))
    by (rewrite Hmembers; now left).
  unfold members_of in Hfirst. apply filter_In in Hfirst as [Hin Hkey].
  split; [exact Hin | now apply jsstring_eqb_eq].
Qed.

(** C4, as the code has it. A rejected dispatch ends the cycle, so the
    second of two groups is never reported; and two entries whose pairs
    differ, [('a', 'b:c')] and [('a:b', 'c')], have the same group key
    [a:b:c] and are merged into one report. *)
Lemma flush_misses_or_merges_pairs :
  let st := enqueue_all resolving mockConf
              [test_call 1000 "channel1" "Error 1" "func1" "test1";
               test_call 2000 "channel2" "Error 2" "func1" "test2"]
              batching_instance in
  let st' := enqueue_all resolving mockConf
               [test_call 1000 "a" "Error 1" "b:c" "test1";
                test_call 2000 "a:b" "Error 2" "c" "test2"]
               batching_instance in
  (option_map (map (fun '(_, e) => pair_of e)) (errorBatch st)
   = Some [(Some (u "channel1"), Some (u "func1"));
           (Some (u "channel2"), Some (u "func1"))]
   /\ map (fun '(ch, _, _) => ch)
        (logged (trace (snd (_processBatchedErrors rejecting mockConf st))))
      = [Some (u "channel1")])
  /\ (option_map (map (fun '(_, e) => pair_of e)) (errorBatch st')
      = Some [(Some (u "a"), Some (u "b:c")); (Some (u "a:b"), Some (u "c"))]
      /\ map (fun '(ch, _, _) => ch)
           (logged (trace (snd (_processBatchedErrors resolving mockConf st'))))
         = [Some (u "a")]).
Proof. vm_compute. repeat split. Qed.

(** C4, amended. On a store as the enqueue path makes it, with times
    that are valid dates, when no dispatch is rejected and entries with
    different pairs of channel and source have different group keys
    [channel:source], a flush calls [logError] exactly once per distinct
    pair among the stored entries, on the channel of the pair and with the
    report of exactly the entries of that pair. (A rejected dispatch ends
    the cycle before the remaining groups.) *)
Theorem flush_reports_each_pair_once
  (w : world) (c : conf) (st : state) (batch : store) :
  store_ok st ->
  errorBatch st = Some batch ->
  (forall tr rq, is_ok (req w tr rq) = true) ->
  (forall e, In e (map snd batch) ->
     valid_time (firstSeen e) /\ valid_time (lastSeen e)) ->
  (forall e1 e2, In e1 (map snd batch) -> In e2 (map snd batch) ->
     group_key e1 = group_key e2 -> pair_of e1 = pair_of e2) ->
  exists pairs,
    NoDup pairs
    /\ (forall p, In p pairs <-> In p (map pair_of (map snd batch)))
    /\ logged (trace (snd (_processBatchedErrors w c st)))
       = logged (trace st) ++ map (pair_dispatch c (map snd batch)) pairs.
Proof.
  intros Hok Hst Hreq Htimes Hinj.
  assert (Hentries : forall e, In e (map snd batch) ->
            is_ok (ToString (errorMessage e)) = true
            /\ valid_time (firstSeen e) /\ valid_time (lastSeen e)).
  { intros e He. split; [|now apply Htimes].
    destruct (Hok batch Hst) as (_ & _ & Hall).
    apply in_map_iff in He as ([k e0] & <- & Hin).
    now destruct (Hall k e0 Hin) as (_ & Hmsg & _). }
  destruct (processBatchedErrors_effect w c st Hst Hentries)
    as (n & Hn & _ & Hlog & Hall).
  cbv zeta in Hn, Hlog, Hall. specialize (Hall Hreq). subst n.
  rewrite firstn_all, map_map in Hlog.
  set (entries := map snd batch) in *.
  set (keys := distinct (map group_key entries)) in *.
  set (key_pair := fun k => match members_of k entries with
                            | first :: _ => pair_of first
                            | [] => (None, None)
                            end).
  exists (map key_pair keys).
  split; [|split].
  - apply NoDup_map_NoDup_ForallPairs; [|apply NoDup_distinct].
    intros k1 k2 Hk1 Hk2 Heq. subst key_pair. cbv beta in Heq.
    destruct (members_of_head k1 entries Hk1) as (f1 & r1 & Hm1 & _ & Hf1).
    destruct (members_of_head k2 entries Hk2) as (f2 & r2 & Hm2 & _ & Hf2).
    rewrite Hm1, Hm2 in Heq. apply group_key_of_pair in Heq. congruence.
  - intros p. rewrite !in_map_iff. split.
    + intros (k & <- & Hk). subst key_pair. cbv beta.
      destruct (members_of_head k entries Hk) as (f & r & -> & Hin & _).
      exists f. split; [reflexivity | exact Hin].
    + intros (e & <- & He).
      assert (Hk : In (group_key e) keys).
      { apply In_distinct. now apply in_map. }
      exists (group_key e). split; [|exact Hk].
      subst key_pair. cbv beta.
      destruct (members_of_head _ entries Hk) as (f & r & -> & Hin & Hf).
      now apply Hinj.
  - rewrite Hlog. f_equal. rewrite map_map. apply map_ext_in.
    intros k Hk. subst key_pair. cbv beta.
    destruct (members_of_head k entries Hk) as (f & r & Hm & Hin & Hf).
    unfold group_dispatch, pair_dispatch. rewrite group_of_errors, Hm.
    cbn [fst pair_of].
    assert (Hsame : members_of k entries = entries_of_pair (pair_of f) entries).
    { unfold members_of, entries_of_pair. apply filter_ext_in. intros e He.
      destruct (same_pair (pair_of f) e) eqn:Hp.
      - apply same_pair_eq in Hp. apply group_key_of_pair in Hp.
        apply jsstring_eqb_eq. congruence.
      - apply jsstring_eqb_neq. intros Hkey.
        assert (Hpair : pair_of f = pair_of e) by (apply Hinj; congruence).
        apply same_pair_eq in Hpair. congruence. }
    rewrite <- Hm, Hsame. reflexivity.
Qed.

Lemma flush_reports_each_pair_once_witness :
  let st := enqueue_all resolving mockConf
              [test_call 1000 "channel1" "Error 1" "func1" "test1";
               test_call 2000 "channel2" "Error 2" "func1" "test2";
               test_call 3000 "channel1" "Error 1" "func2" "test3"]
              batching_instance in
  let batch := match errorBatch st with Some b => b | None => [] end in
  exists pairs,
    NoDup pairs
    /\ (forall p, In p pairs <-> In p (map pair_of (map snd batch)))
    /\ logged (trace (snd (_processBatchedErrors resolving mockConf st)))
       = logged (trace st) ++ map (pair_dispatch mockConf (map snd batch)) pairs.
Proof.
  cbv zeta.
  apply (@flush_reports_each_pair_once resolving mockConf
           (enqueue_all resolving mockConf
              [test_call 1000 "channel1" "Error 1" "func1" "test1";
               test_call 2000 "channel2" "Error 2" "func1" "test2";
               test_call 3000 "channel1" "Error 1" "func2" "test3"]
              batching_instance)).
  - apply enqueue_all_store_ok, batching_instance_ok.
  - vm_compute. reflexivity.
  - intros tr rq. reflexivity.
  - intros e He. vm_compute in He.
    destruct He as [<-|[<-|[<-|[]]]]; vm_compute; intuition discriminate.
  - intros e1 e2 H1 H2. vm_compute in H1, H2.
    destruct H1 as [<-|[<-|[<-|[]]]]; destruct H2 as [<-|[<-|[<-|[]]]];
      intros Hkey; try reflexivity; vm_compute in Hkey; discriminate.
Defined.

(** The three calls of the test-suite give three reports, one per pair. *)
Example three_pairs_three_reports :
  map (fun '(ch, _, _) => ch)
    (logged (trace (snd (_processBatchedErrors resolving mockConf
       (enqueue_all resolving mockConf
          [test_call 1000 "channel1" "Error 1" "func1" "test1";
           test_call 2000 "channel2" "Error 2" "func1" "test2";
           test_call 3000 "channel1" "Error 1" "func2" "test3"]
          batching_instance)))))
  = [Some (u "channel1"); Some (u "channel2"); Some (u "channel1")].
Proof. vm_compute. reflexivity. Qed.

(** Keys do not clash when the channels are strings without a colon and
    the sources are strings. *)
Lemma colon_free_prefix (a b s t : jsstring) :
  ~ In 58%N a -> ~ In 58%N b ->
  a ++ 58%N :: s = b ++ 58%N :: t -> a = b /\ s = t.
Proof.
  revert b. induction a as [|x a IH]; intros [|y b] Ha Hb Heq; cbn in *.
  - injection Heq as <-. auto.
  - injection Heq as <- _. exfalso. apply Hb. now left.
  - injection Heq as -> _. exfalso. apply Ha. now left.
  - injection Heq as <- Heq.
    destruct (IH b) as [-> ->]; auto.
Qed.

Lemma group_key_injective_without_colon (e1 e2 : entry) (c1 c2 s1 s2 : jsstring) :
  reqChannel e1 = Some c1 -> reqChannel e2 = Some c2 ->
  sourceName e1 = Some s1 -> sourceName e2 = Some s2 ->
  ~ In 58%N c1 -> ~ In 58%N c2 ->
  group_key e1 = group_key e2 -> pair_of e1 = pair_of e2.
Proof.
  unfold group_key, pair_of, _createErrorGroupKey.
  intros -> -> -> -> H1 H2 Heq. cbn [tmpl] in Heq.
  change (u ":") with [58%N] in Heq. cbn [app] in Heq.
  destruct (colon_free_prefix _ _ _ _ H1 H2 Heq) as [-> ->]. reflexivity.
Qed.

(** ** The duplicate scenario *)

Lemma type_heading_shows_count (em : jsstring) (e : entry) :
  count e = 2%Z ->
  exists pre post, type_heading em e = pre ++ u "2x" ++ post.
Proof.
  intros Hcount. unfold type_heading. rewrite Hcount.
  exists (bullet ++ u " *" ++ em ++ u "* ("), (u ")" ++ nl ++ u "  Payloads:" ++ nl).
  change (dec 2) with (u "2"). change (u "x)") with (u "x" ++ u ")").
  change (u "2x") with (u "2" ++ u "x").
  now rewrite <- !app_assoc.
Qed.

Lemma includes_middle (a b c needle : jsstring) :
  includes b needle -> includes (a ++ b ++ c) needle.
Proof.
  intros (pre & post & ->). exists (a ++ pre), (post ++ c).
  now rewrite <- !app_assoc.
Qed.

(** C3, as the code has it: the same error enqueued twice leaves one entry
    with count 2 whose window holds 2 pairs, one per call, not 3. *)
Lemma duplicate_error_window_has_two_payloads :
  let st := enqueue_all resolving mockConf
              [test_call 1000 "test-channel" "Test error" "testFunction"
                 "test1@example.com";
               test_call 2000 "test-channel" "Test error" "testFunction"
                 "test2@example.com"]
              batching_instance in
  option_map (map (fun '(_, e) => (count e, length (payloads e)))) (errorBatch st)
  = Some [(2%Z, 2%nat)]
  /\ ~ (exists k e, errorBatch st = Some [(k, e)]
                    /\ count e = 2%Z /\ length (payloads e) = 3%nat).
Proof.
  cbv zeta. split; [vm_compute; reflexivity|].
  intros (k & e & Hst & _ & Hlen).
  vm_compute in Hst. injection Hst as _ <-. discriminate Hlen.
Qed.

(** C3, amended. Enqueueing [Error ('Test error')] twice under
    ['test-channel'] and ['testFunction'], with any two payloads (and
    extras), leaves exactly one stored entry, with count 2 and a window of
    2 pairs, the two contributions in order; a flush that follows calls
    [logError] exactly once, on that channel, with a report that contains
    "2x". *)
Theorem duplicate_error_is_counted_twice_and_reported_once
  (w : world) (c : conf) (t1 t2 : Z) (payload1 payload2 : value)
  (extra1 extra2 : list value) :
  valid_time t1 -> valid_time t2 ->
  let call1 := {| call_now := t1; call_channel := Some (u "test-channel");
                  call_err := VError (u "Test error");
                  call_source := Some (u "testFunction");
                  call_payload := payload1; call_extra := extra1 |} in
  let call2 := {| call_now := t2; call_channel := Some (u "test-channel");
                  call_err := VError (u "Test error");
                  call_source := Some (u "testFunction");
                  call_payload := payload2; call_extra := extra2 |} in
  let st := enqueue_all w c [call1; call2] batching_instance in
  (exists k e,
     errorBatch st = Some [(k, e)]
     /\ count e = 2%Z
     /\ payloads e = [{| payload := payload1; extras := extra1 |};
                      {| payload := payload2; extras := extra2 |}])
  /\ exists report,
       logged (trace (snd (_processBatchedErrors w c st)))
       = [(Some (u "test-channel"), VStr report, [])]
       /\ includes report (u "2x").
Proof.
  intros Ht1 Ht2. cbv zeta.
  set (call1 := {| call_now := t1; call_channel := Some (u "test-channel");
                   call_err := VError (u "Test error");
                   call_source := Some (u "testFunction");
                   call_payload := payload1; call_extra := extra1 |}).
  set (call2 := {| call_now := t2; call_channel := Some (u "test-channel");
                   call_err := VError (u "Test error");
                   call_source := Some (u "testFunction");
                   call_payload := payload2; call_extra := extra2 |}).
  set (key := u "test-channel:testFunction:7f49768c098dad26a4c2561429e75ecb74d1de8d").
  destruct (@enqueue_all_new_fingerprint w c key call1 [call2] batching_instance [])
    as (batch & e & Hst & Hget & Hkeys & Htrace & Hwindow & Hcount & _ & Hmsg
        & Hchan & Hsource & Hfirst & Hlast).
  - reflexivity.
  - reflexivity.
  - reflexivity.
  - intros k [<-|[<-|[]]]; vm_compute; reflexivity.
  - assert (Hbatch : batch = [(key, e)]).
    { destruct batch as [|[k0 e0] [|b batch]]; try discriminate Hkeys.
      cbn [map fst app] in Hkeys. injection Hkeys as ->.
      cbn [assoc_get] in Hget. rewrite jsstring_eqb_refl in Hget. congruence. }
    subst batch.
    cbn [map length contribution call_payload call_extra call_now call_err
         call_channel call_source call1 call2 last message_of
         batching_instance trace] in Hwindow, Hcount, Htrace, Hmsg, Hchan,
         Hsource, Hfirst, Hlast.
    change (lastn 3 [contribution call1; contribution call2])
      with [{| payload := payload1; extras := extra1 |};
            {| payload := payload2; extras := extra2 |}] in Hwindow.
    change (Z.of_nat 2) with 2%Z in Hcount.
    change (channel_or_default c (Some (u "test-channel")))
      with (Some (u "test-channel")) in Hchan.
    split.
    + exists key, e. split; [exact Hst|]. split; [exact Hcount | exact Hwindow].
    + set (st := enqueue_all w c [call1; call2] batching_instance) in *.
      assert (Hentries : forall e', In e' (map snd [(key, e)]) ->
                is_ok (ToString (errorMessage e')) = true
                /\ valid_time (firstSeen e') /\ valid_time (lastSeen e')).
      { intros e' [<-|[]]. cbn [snd]. rewrite Hmsg, Hfirst, Hlast. auto. }
      destruct (processBatchedErrors_effect w c st Hst Hentries)
        as (n & Hn & Hn1 & Hlog & _).
      cbv zeta in Hn, Hn1, Hlog. cbn [map snd distinct filter length] in Hn, Hn1, Hlog.
      assert (n = 1%nat) by (specialize (Hn1 ltac:(discriminate)); lia).
      subst n. cbn [firstn map] in Hlog.
      unfold members_of in Hlog. cbn [filter] in Hlog.
      rewrite jsstring_eqb_refl in Hlog.
      change (group_of [e]) with (add_entry e empty_group) in Hlog.
      rewrite Htrace in Hlog. cbn [logged flat_map app] in Hlog.
      destruct (@group_report_total c [e]) as [report Hreport];
        [discriminate | intros e' [<-|[]]; rewrite Hmsg, Hfirst, Hlast; auto |].
      change (group_of [e]) with (add_entry e empty_group) in Hreport.
      unfold group_dispatch in Hlog. rewrite Hreport in Hlog.
      cbn [add_entry errors empty_group app text_of] in Hlog.
      rewrite Hchan in Hlog.
      exists report. split; [exact Hlog|].
      unfold group_report in Hreport.
      cbn [add_entry errors empty_group app] in Hreport.
      destruct (_formatTimeRange _ _) as [timeRange|x]; [|discriminate].
      cbn [obind] in Hreport.
      assert (Hem : ToString (errorMessage e) = Ok (u "Test error"))
        by (now rewrite Hmsg).
      destruct (batched_report_cases _ _ _ _ _ Hreport)
        as [[Hwhole _]
           | (before & e' & after & em & done & next & later
              & Hsplit & Hem' & _ & Hres & _)];
        cbv zeta in *.
      * rewrite Hwhole. cbn [firstn type_blocks flat_map].
        rewrite (type_block_ok e Hem), app_nil_r, <- !app_assoc.
        apply includes_middle.
        destruct (type_heading_shows_count (u "Test error") e Hcount)
          as (pre & post & ->).
        now exists pre, post.
      * cbn [firstn] in Hsplit.
        destruct before as [|b [|b' before]]; try discriminate Hsplit.
        injection Hsplit as <- _.
        rewrite Hres. cbn [type_blocks flat_map]. rewrite app_nil_r.
        apply includes_middle.
        destruct (type_heading_shows_count em e Hcount) as (pre & post & ->).
        now exists pre, post.
Qed.

Lemma duplicate_error_is_counted_twice_and_reported_once_witness :
  let call1 := {| call_now := 1672567200000; call_channel := Some (u "test-channel");
                  call_err := VError (u "Test error");
                  call_source := Some (u "testFunction");
                  call_payload := VObj [(u "to", VStr (u "test1@example.com"))];
                  call_extra := [] |} in
  let call2 := {| call_now := 1672567530000; call_channel := Some (u "test-channel");
                  call_err := VError (u "Test error");
                  call_source := Some (u "testFunction");
                  call_payload := VObj [(u "to", VStr (u "test2@example.com"))];
                  call_extra := [] |} in
  let st := enqueue_all resolving mockConf [call1; call2] batching_instance in
  (exists k e,
     errorBatch st = Some [(k, e)]
     /\ count e = 2%Z
     /\ payloads e
        = [{| payload := VObj [(u "to", VStr (u "test1@example.com"))]; extras := [] |};
           {| payload := VObj [(u "to", VStr (u "test2@example.com"))]; extras := [] |}])
  /\ exists report,
       logged (trace (snd (_processBatchedErrors resolving mockConf st)))
       = [(Some (u "test-channel"), VStr report, [])]
       /\ includes report (u "2x").
Proof.
  cbv zeta.
  apply (@duplicate_error_is_counted_twice_and_reported_once resolving mockConf
           1672567200000 1672567530000
           (VObj [(u "to", VStr (u "test1@example.com"))])
           (VObj [(u "to", VStr (u "test2@example.com"))]) [] []).
  - unfold valid_time. cbn. lia.
  - unfold valid_time. cbn. lia.
Defined.

(** * Further properties of the facility *)

(** ** The order of the dispatches *)



(** ** The invariant of the store *)

Lemma processBatchedErrors_store_ok (w : world) (c : conf) (st : state) :
  store_ok st -> store_ok (snd (_processBatchedErrors w c st)).
Proof.
  intros Hok. unfold _processBatchedErrors.
  destruct (errorBatch st) as [[|b batch]|] eqn:Hst; try exact Hok.
  unfold try_finally, try_catch, set_store, console_error, emit.
  destruct (for_of _ _ st) as [[[]|e] st']; cbn [fst snd];
    intros batch' [= <-]; cbn; (split; [constructor|]);
    (split; [constructor|]); intros k e0 [].
Qed.

Lemma run_store_ok (w : world) (c : conf) (ops : list op) :
  forall st, store_ok st -> store_ok (run w c ops st).
Proof.
  induction ops as [|o ops IH]; intros st Hok; [exact Hok|].
  cbn [run]. apply IH. destruct o as [k| |reqChannel text|reqChannel err extra];
    cbn [step].
  - now apply logErrorEnqueue_store_ok.
  - now apply processBatchedErrors_store_ok.
  - unfold message. destruct (negb (enable c)); exact Hok.
  - destruct (logError_effect w c reqChannel err extra st) as (Hb & Hf & _).
    unfold store_ok. rewrite Hb, Hf. exact Hok.
Qed.

(** X2. Whatever calls of [logErrorEnqueue], [message] and [logError] and
    flushes an instance goes through, in any order, its store stays well
    formed: the fingerprints
    are distinct keys, each holds its own entry object, the message
    of every entry converts to a string, and every window holds at least
    one and at most three pairs. *)
Theorem store_stays_well_formed
  (w : world) (c : conf) (ops : list op) (st : state) :
  store_ok st ->
  store_ok (run w c ops st)
  /\ forall batch k e,
       errorBatch (run w c ops st) = Some batch ->
       In (k, e) batch ->
       (1 <= length (payloads e) <= 3)%nat
       /\ is_ok (ToString (errorMessage e)) = true
       /\ assoc_get k batch = Some e.
Proof.
  intros Hok. pose proof (run_store_ok w c ops Hok) as Hrun.
  split; [exact Hrun|].
  intros batch k e Hst Hin.
  destruct (Hrun batch Hst) as (Hkeys & _ & Hentries).
  destruct (Hentries k e Hin) as (_ & Hmsg & Hne & Hlen).
  split; [|split; [exact Hmsg|]].
  - destruct (payloads e); [congruence | cbn [length] in *; lia].
  - clear - Hkeys Hin. induction batch as [|[k0 e0] batch IH]; [destruct Hin|].
    cbn [map fst] in Hkeys. apply NoDup_cons_iff in Hkeys as [Hnotin Hkeys].
    cbn [assoc_get]. destruct Hin as [[= -> ->]|Hin].
    + now rewrite jsstring_eqb_refl.
    + destruct (jsstring_eqb k k0) eqn:E; [|now apply IH].
      apply jsstring_eqb_eq in E. subst k0. exfalso. apply Hnotin.
      apply in_map_iff. exists (k, e). split; [reflexivity | exact Hin].
Qed.

Lemma store_stays_well_formed_witness :
  let ops := [Enqueue (test_call 1000 "channel1" "Error 1" "func1" "test1");
              Flush;
              Enqueue (test_call 2000 "channel1" "Error 1" "func1" "test2");
              Enqueue (test_call 3000 "channel1" "Error 1" "func1" "test3")] in
  store_ok (run rejecting mockConf ops batching_instance)
  /\ forall batch k e,
       errorBatch (run rejecting mockConf ops batching_instance) = Some batch ->
       In (k, e) batch ->
       (1 <= length (payloads e) <= 3)%nat
       /\ is_ok (ToString (errorMessage e)) = true
       /\ assoc_get k batch = Some e.
Proof.
  cbv zeta.
  apply (@store_stays_well_formed rejecting mockConf
           [Enqueue (test_call 1000 "channel1" "Error 1" "func1" "test1");
            Flush;
            Enqueue (test_call 2000 "channel1" "Error 1" "func1" "test2");
            Enqueue (test_call 3000 "channel1" "Error 1" "func1" "test3")]
           batching_instance).
  exact batching_instance_ok.
Defined.

(** ** What an entry records *)

(** X3. After [N >= 1] calls queued under one fingerprint that the store
    did not hold, the entry counts [N] occurrences, keeps the channel (the
    configured default when the first call gave none), the source and the
    message of the first call, was first seen at the time of the first
    call and last seen at the time of the last one; the store gained that
    one key, at its end, and nothing was logged or dispatched. *)
Theorem entry_records_count_and_times
  (w : world) (c : conf) (key : jsstring) (first : call) (others : list call)
  (st : state) (batch : store) :
  errorBatch st = Some batch ->
  assoc_get key batch = None ->
  nullish (call_err first) = false ->
  (forall k, In k (first :: others) -> fingerprint c k = Ok key) ->
  exists batch' e,
    errorBatch (enqueue_all w c (first :: others) st) = Some batch'
    /\ assoc_get key batch' = Some e
    /\ map fst batch' = map fst batch ++ [key]
    /\ trace (enqueue_all w c (first :: others) st) = trace st
    /\ count e = Z.of_nat (length (first :: others))
    /\ errorMessage e = message_of (call_err first)
    /\ reqChannel e
       = (if truthy_str (call_channel first) then call_channel first
          else channel c)
    /\ sourceName e = call_source first
    /\ firstSeen e = call_now first
    /\ lastSeen e = last (map call_now others) (call_now first).
Proof.
  intros Hst Hget Hnull Hkeys.
  destruct (@enqueue_all_new_fingerprint w c key first others st batch
              Hst Hget Hnull Hkeys)
    as (batch' & e & H1 & H2 & H3 & H4 & _ & H6 & _ & H8 & H9 & H10 & H11 & H12).
  exists batch', e. repeat split; assumption.
Qed.

Lemma entry_records_count_and_times_witness :
  let first := {| call_now := 1000; call_channel := None;
                  call_err := VError (u "Test error");
                  call_source := Some (u "func1");
                  call_payload := VObj []; call_extra := [] |} in
  let others := [{| call_now := 2000; call_channel := Some [];
                    call_err := VError (u "Test error");
                    call_source := Some (u "func1");
                    call_payload := VNull; call_extra := [VNum 1] |}] in
  let key := u "default-channel:func1:7f49768c098dad26a4c2561429e75ecb74d1de8d" in
  exists batch' e,
    errorBatch (enqueue_all resolving mockConf (first :: others) batching_instance)
    = Some batch'
    /\ assoc_get key batch' = Some e
    /\ map fst batch' = map fst (@nil (jsstring * entry)) ++ [key]
    /\ trace (enqueue_all resolving mockConf (first :: others) batching_instance)
       = trace batching_instance
    /\ count e = Z.of_nat (length (first :: others))
    /\ errorMessage e = message_of (call_err first)
    /\ reqChannel e
       = (if truthy_str (call_channel first) then call_channel first
          else channel mockConf)
    /\ sourceName e = call_source first
    /\ firstSeen e = call_now first
    /\ lastSeen e = last (map call_now others) (call_now first).
Proof.
  cbv zeta.
  apply (@entry_records_count_and_times resolving mockConf
           (u "default-channel:func1:7f49768c098dad26a4c2561429e75ecb74d1de8d")
           {| call_now := 1000; call_channel := None;
              call_err := VError (u "Test error");
              call_source := Some (u "func1");
              call_payload := VObj []; call_extra := [] |}
           [{| call_now := 2000; call_channel := Some [];
               call_err := VError (u "Test error");
               call_source := Some (u "func1");
               call_payload := VNull; call_extra := [VNum 1] |}]
           batching_instance []).
  - reflexivity.
  - reflexivity.
  - reflexivity.
  - intros k [<-|[<-|[]]]; vm_compute; reflexivity.
Defined.

(** ** Group keys *)

(** X4. The group key tells the pair apart whenever the channel holds no
    colon: two pairs of a string channel without [':'] and a string source
    that have the same key [channel:source] are the same pair. *)
Theorem group_key_tells_pairs_apart (c1 c2 s1 s2 : jsstring) :
  ~ In 58%N c1 -> ~ In 58%N c2 ->
  _createErrorGroupKey (Some c1) (Some s1) = _createErrorGroupKey (Some c2) (Some s2) ->
  c1 = c2 /\ s1 = s2.
Proof.
  intros H1 H2 Heq. unfold _createErrorGroupKey in Heq. cbn [tmpl] in Heq.
  change (u ":") with [58%N] in Heq. cbn [app] in Heq.
  exact (colon_free_prefix _ _ _ _ H1 H2 Heq).
Qed.

Lemma group_key_tells_pairs_apart_witness :
  u "alerts" = u "alerts" /\ u "rest:ext:slack" = u "rest:ext:slack".
Proof.
  apply (@group_key_tells_pairs_apart (u "alerts") (u "alerts")
           (u "rest:ext:slack") (u "rest:ext:slack")).
  - cbn. intuition discriminate.
  - cbn. intuition discriminate.
  - reflexivity.
Defined.

(** ** Flushing twice, and flushing with dispatch disabled *)

Lemma flush_outcome (w : world) (c : conf) (st : state) :
  exists st',
    _processBatchedErrors w c st = (Ok tt, st')
    /\ (errorBatch st' = None \/ errorBatch st' = Some []).
Proof.
  unfold _processBatchedErrors.
  destruct (errorBatch st) as [[|b batch]|] eqn:Hst.
  - exists st. split; [reflexivity|now right].
  - unfold try_finally, try_catch, set_store, console_error, emit.
    destruct (for_of _ _ st) as [[[]|e] st']; cbn [fst snd];
      eexists; (split; [reflexivity|now right]).
  - exists st. split; [reflexivity|now left].
Qed.

(** X5. A flush never rejects, whatever the state of the instance and the
    answers of the transport, and a flush that follows a flush does
    nothing at all: it resolves and leaves the instance as it is. *)
Theorem flush_never_rejects_and_is_idempotent
  (w w' : world) (c c' : conf) (st : state) :
  fst (_processBatchedErrors w c st) = Ok tt
  /\ _processBatchedErrors w' c' (snd (_processBatchedErrors w c st))
     = (Ok tt, snd (_processBatchedErrors w c st)).
Proof.
  destruct (flush_outcome w c st) as (st' & -> & Hempty). cbn [fst snd].
  split; [reflexivity|].
  unfold _processBatchedErrors. now destruct Hempty as [-> | ->].
Qed.

(** ** What reaches the transport *)

Section Appends.
Variable Q : event -> Prop.

Lemma appends_ret {A : Type} (a : A) : appends Q (ret a).
Proof. intros st. exists []. cbn [snd trace]. now rewrite app_nil_r. Qed.

Lemma appends_throw {A : Type} (e : exn) : appends Q (@throw A e).
Proof. intros st. exists []. cbn [snd trace]. now rewrite app_nil_r. Qed.

Lemma appends_lift {A : Type} (o : outcome A) : appends Q (lift o).
Proof. intros st. exists []. cbn [snd trace]. now rewrite app_nil_r. Qed.

Lemma appends_set_store (s : store) : appends Q (set_store s).
Proof. intros st. exists []. cbn [snd trace]. now rewrite app_nil_r. Qed.

Lemma appends_the_store : appends Q the_store.
Proof.
  intros st. exists []. unfold the_store.
  destruct (errorBatch st); cbn; now rewrite app_nil_r.
Qed.

Lemma appends_new_ref : appends Q new_ref.
Proof. intros st. exists []. cbn [snd trace]. now rewrite app_nil_r. Qed.

Lemma appends_emit (ev : event) : Q ev -> appends Q (emit ev).
Proof.
  intros Hev st. exists [ev]. cbn [emit snd trace].
  split; [reflexivity|]. now constructor.
Qed.

Lemma appends_grc_req (w : world) (r : request) :
  Q (Request r) -> appends Q (grc_req w r).
Proof.
  intros Hev st. exists [Request r]. cbn [grc_req snd trace].
  split; [reflexivity|]. now constructor.
Qed.

Lemma appends_bind {A B : Type} (m : M A) (f : A -> M B) :
  appends Q m -> (forall a, appends Q (f a)) -> appends Q (bind m f).
Proof.
  intros Hm Hf st. unfold bind.
  destruct (Hm st) as (evs & Htr & Hq).
  destruct (m st) as [[a|e] st1]; cbn [snd] in *.
  - destruct (Hf a st1) as (evs' & Htr' & Hq').
    exists (evs ++ evs'). rewrite Htr', Htr, app_assoc. split; [reflexivity|].
    apply Forall_app. now split.
  - now exists evs.
Qed.

Lemma appends_try_catch {A : Type} (m : M A) (h : exn -> M A) :
  appends Q m -> (forall e, appends Q (h e)) -> appends Q (try_catch m h).
Proof.
  intros Hm Hh st. unfold try_catch.
  destruct (Hm st) as (evs & Htr & Hq).
  destruct (m st) as [[a|e] st1]; cbn [snd] in *.
  - now exists evs.
  - destruct (Hh e st1) as (evs' & Htr' & Hq').
    exists (evs ++ evs'). rewrite Htr', Htr, app_assoc. split; [reflexivity|].
    apply Forall_app. now split.
Qed.

Lemma appends_try_finally {A : Type} (m : M A) (f : M unit) :
  appends Q m -> appends Q f -> appends Q (try_finally m f).
Proof.
  intros Hm Hf st. unfold try_finally.
  destruct (Hm st) as (evs & Htr & Hq).
  destruct (m st) as [r st1]; cbn [snd] in *.
  destruct (Hf st1) as (evs' & Htr' & Hq').
  exists (evs ++ evs').
  destruct (f st1) as [[[]|e] st2]; cbn [snd] in *;
    rewrite Htr', Htr, app_assoc; (split; [reflexivity|]);
    apply Forall_app; now split.
Qed.

Lemma appends_for_of {A : Type} (l : list A) (body : A -> M unit) :
  (forall x, appends Q (body x)) -> appends Q (for_of l body).
Proof.
  intros Hbody. induction l as [|x l IH]; cbn [for_of].
  - apply appends_ret.
  - apply appends_bind; [apply Hbody | intros _; exact IH].
Qed.
End Appends.

Lemma message_well_addressed (w : world) (c : conf)
  (reqChannel : option jsstring) (text : jsstring) :
  appends (well_addressed c) (message w c reqChannel text).
Proof.
  unfold message. destruct (enable c) eqn:Hen; cbn [negb].
  - cbv zeta. apply appends_grc_req. cbn [well_addressed req_worker req_action
      req_timeout req_channel req_text].
    split; [exact Hen|]. split; [reflexivity|]. split; [reflexivity|].
    split; [reflexivity|]. split.
    + destruct (truthy_str reqChannel) eqn:Hch; [now left | now right].
    + intros Hcap.
      match goal with |- context [Z.ltb ?a ?b] => destruct (Z.ltb_spec a b) end.
      * now apply slice0_length.
      * assumption.
  - apply appends_ret.
Qed.

Lemma logError_well_addressed (w : world) (c : conf)
  (reqChannel : option jsstring) (err : value) (extra : list value) :
  appends (well_addressed c) (logError w c reqChannel err extra).
Proof.
  unfold logError. apply appends_bind.
  - apply appends_emit. exact I.
  - intros _. apply message_well_addressed.
Qed.

Lemma processBatchedErrors_well_addressed (w : world) (c : conf) :
  appends (well_addressed c) (_processBatchedErrors w c).
Proof.
  intros st. unfold _processBatchedErrors.
  destruct (errorBatch st) as [[|b batch]|].
  - exists []. cbn. now rewrite app_nil_r.
  - apply appends_try_finally; [|apply appends_set_store].
    apply appends_try_catch.
    + apply appends_for_of. intros g. unfold send_group.
      destruct (errors g); [apply appends_throw|].
      unfold _sendBatchedErrorMessage.
      apply appends_bind; [apply appends_lift|intros timeRange].
      apply appends_bind; [apply appends_lift|intros report].
      apply appends_bind; [apply logError_well_addressed|intros _].
      apply appends_ret.
    + intros e. apply appends_emit. exact I.
  - exists []. cbn. now rewrite app_nil_r.
Qed.

Lemma logErrorEnqueue_well_addressed (w : world) (c : conf) (now : Z)
  (reqChannel : option jsstring) (err : value) (sourceName : option jsstring)
  (payload : value) (extra : list value) :
  appends (well_addressed c)
    (logErrorEnqueue w c now reqChannel err sourceName payload extra).
Proof.
  intros st. unfold logErrorEnqueue.
  destruct (errorBatch st) as [batch0|].
  - apply appends_try_catch.
    + apply appends_bind; [apply appends_lift|intros errorKey].
      apply appends_bind; [apply appends_the_store|intros batch].
      destruct (assoc_get errorKey batch).
      * apply appends_bind; [apply appends_set_store|intros _].
        apply appends_ret.
      * apply appends_bind; [apply appends_lift|intros em].
        apply appends_bind; [apply appends_new_ref|intros r].
        apply appends_bind; [apply appends_set_store|intros _].
        apply appends_ret.
    + intros e.
      apply appends_bind; [apply appends_emit; exact I|intros _].
      apply appends_bind; [apply logError_well_addressed|intros _].
      apply appends_ret.
  - apply appends_bind; [apply appends_emit; exact I|intros _].
    apply logError_well_addressed.
Qed.

Lemma run_well_addressed (w : world) (c : conf) (ops : list op) :
  forall st, exists evs,
    trace (run w c ops st) = trace st ++ evs
    /\ Forall (well_addressed c) evs.
Proof.
  induction ops as [|o ops IH]; intros st; cbn [run].
  - exists []. now rewrite app_nil_r.
  - assert (Hstep : exists evs,
              trace (step w c o st) = trace st ++ evs
              /\ Forall (well_addressed c) evs).
    { destruct o as [k| |reqChannel text|reqChannel err extra]; cbn [step].
      - apply logErrorEnqueue_well_addressed.
      - apply processBatchedErrors_well_addressed.
      - apply message_well_addressed.
      - apply logError_well_addressed. }
    destruct Hstep as (evs & Htr & Hq).
    destruct (IH (step w c o st)) as (evs' & Htr' & Hq').
    exists (evs ++ evs'). rewrite Htr', Htr, app_assoc. split; [reflexivity|].
    apply Forall_app. now split.
Qed.

Lemma requests_app (a b : list event) :
  requests (a ++ b) = requests a ++ requests b.
Proof. unfold requests. apply flat_map_app. Qed.

Lemma requests_In (r : request) (tr : list event) :
  In r (requests tr) <-> In (Request r) tr.
Proof.
  unfold requests. rewrite in_flat_map. split.
  - intros (ev & Hin & Hr). destruct ev; try contradiction.
    destruct Hr as [<-|[]]. exact Hin.
  - intros Hin. exists (Request r). split; [exact Hin | now left].
Qed.

(** X6. Whatever calls of [message], [logError] and [logErrorEnqueue] and
    flushes an instance goes through, what was on its trace stays there,
    and every request that it hands to the transport is a [postSlackMsg]
    with a timeout of ten seconds, sent to the configured worker
    (['rest:ext:slack'] when none is configured), on a channel that was
    given or is the configured one, with a text that is at most
    [max_length] code units long (for a cap that is not negative). *)
Theorem every_request_is_well_addressed
  (w : world) (c : conf) (ops : list op) (st : state) :
  exists evs,
    trace (run w c ops st) = trace st ++ evs
    /\ forall r, In r (requests evs) ->
         req_worker r = or_str (worker c) (u "rest:ext:slack")
         /\ req_action r = u "postSlackMsg"
         /\ req_timeout r = 10000%Z
         /\ (truthy_str (req_channel r) = true \/ req_channel r = channel c)
         /\ ((0 <= or_num (max_length c) 1024)%Z ->
             (Z.of_nat (length (req_text r)) <= or_num (max_length c) 1024)%Z).
Proof.
  destruct (run_well_addressed w c ops st) as (evs & Htr & Hq).
  exists evs. split; [exact Htr|].
  intros r Hr. apply requests_In in Hr.
  rewrite Forall_forall in Hq. specialize (Hq _ Hr).
  cbn [well_addressed] in Hq. tauto.
Qed.

(** X7. With dispatch disabled ([enable] false) nothing ever reaches the
    transport: whatever calls and flushes the instance goes through, the
    requests on its trace are those that were there before. *)
Theorem disabled_instance_sends_nothing
  (w : world) (c : conf) (ops : list op) (st : state) :
  enable c = false ->
  requests (trace (run w c ops st)) = requests (trace st).
Proof.
  intros Hen.
  destruct (run_well_addressed w c ops st) as (evs & -> & Hq).
  rewrite requests_app.
  assert (Hnone : requests evs = []).
  { destruct (requests evs) as [|r rest] eqn:Hr; [reflexivity|].
    assert (Hin : In r (requests evs)) by (rewrite Hr; now left).
    apply requests_In in Hin.
    rewrite Forall_forall in Hq. specialize (Hq _ Hin).
    cbn [well_addressed] in Hq. destruct Hq as [Hq _]. congruence. }
  rewrite Hnone. apply app_nil_r.
Qed.

Lemma disabled_instance_sends_nothing_witness :
  let ops := [Enqueue (test_call 1000 "channel1" "Error 1" "func1" "test1");
              Flush;
              Message None (u "hello");
              LogError (Some (u "alerts")) (VError (u "boom")) [VNum 1]] in
  requests (trace (run resolving (with_enable false mockConf) ops
                     plain_instance))
  = requests (trace plain_instance).
Proof.
  cbv zeta.
  apply (@disabled_instance_sends_nothing resolving (with_enable false mockConf)
           [Enqueue (test_call 1000 "channel1" "Error 1" "func1" "test1");
            Flush;
            Message None (u "hello");
            LogError (Some (u "alerts")) (VError (u "boom")) [VNum 1]]
           plain_instance).
  reflexivity.
Defined.

(** ** A report on the wire *)

(** X8. With dispatch enabled and a cap [max_length] that is not negative,
    a report that [_sendBatchedErrorMessage] renders goes through
    [logError] and [message]: it is logged once, and the one request made
    carries the environment prefix, the tag [Error: ] and the report, cut
    to the first [max_length] code units ([1024] by default) whatever
    [errorBatching.maxMessageLength] allowed; the call rejects exactly
    when the transport does. *)
Theorem report_is_tagged_and_capped_on_the_wire
  (w : world) (c : conf) (ch src : option jsstring) (errors : list entry)
  (total : Z) (t0 t1 : num) (timeRange report : jsstring) (st : state) :
  enable c = true ->
  (0 <= or_num (max_length c) 1024)%Z ->
  _formatTimeRange t0 t1 = Ok timeRange ->
  batched_report c src errors total timeRange = Ok report ->
  let r := _sendBatchedErrorMessage w c ch src errors total t0 t1 st in
  exists rq,
    trace (snd r) = trace st ++ [LogErrorCall ch (VStr report) []; Request rq]
    /\ req_channel rq = channel_or_default c ch
    /\ req_text rq
       = firstn (Z.to_nat (or_num (max_length c) 1024))
           (env_prefix c ++ u "Error: " ++ report)
    /\ fst r = match req w (trace st ++ [LogErrorCall ch (VStr report) []]) rq with
               | Ok _ => Ok tt
               | Throw e => Throw e
               end.
Proof.
  intros Hen Hcap Htime Hreport. cbv zeta.
  unfold _sendBatchedErrorMessage, bind, lift, ret.
  rewrite Htime, Hreport.
  unfold logError, bind, emit, message. rewrite Hen. cbn [negb].
  cbv zeta. unfold grc_req, VStr.
  cbn [fst snd trace errorBatch fresh instanceof_Error prim_to_string app].
  change (if truthy_str (env c) then u "Env: " ++ tmpl (env c) ++ u ", " else [])
    with (env_prefix c).
  set (raw := env_prefix c ++ u "Error: " ++ report).
  set (cap := or_num (max_length c) 1024) in *.
  assert (Htext : (if (cap <? Z.of_nat (length raw))%Z then slice0 raw cap else raw)
                  = firstn (Z.to_nat cap) raw).
  { destruct (Z.ltb_spec cap (Z.of_nat (length raw))).
    - unfold slice0. destruct (Z.ltb_spec cap 0); [lia|reflexivity].
    - symmetry. apply firstn_all2. lia. }
  rewrite Htext.
  match goal with
  | |- context [req w ?t ?r] => exists r; destruct (req w t r) as [v|e]
  end; cbn [fst snd trace req_channel req_text];
    (split; [now rewrite <- app_assoc|]); repeat split; reflexivity.
Qed.

Lemma report_is_tagged_and_capped_on_the_wire_witness :
  let errors := [test_entry 0 "Test error" "test1"] in
  let timeRange := text_of (_formatTimeRange (Fin 1000) (Fin 1000)) in
  let report :=
    text_of (batched_report mockConf (Some (u "testFunc")) errors 1 timeRange) in
  let r := _sendBatchedErrorMessage resolving mockConf (Some (u "test"))
             (Some (u "testFunc")) errors 1 (Fin 1000) (Fin 1000)
             batching_instance in
  exists rq,
    trace (snd r)
    = trace batching_instance
        ++ [LogErrorCall (Some (u "test")) (VStr report) []; Request rq]
    /\ req_channel rq = channel_or_default mockConf (Some (u "test"))
    /\ req_text rq
       = firstn (Z.to_nat (or_num (max_length mockConf) 1024))
           (env_prefix mockConf ++ u "Error: " ++ report)
    /\ fst r
       = match req resolving
                 (trace batching_instance
                    ++ [LogErrorCall (Some (u "test")) (VStr report) []]) rq with
         | Ok _ => Ok tt
         | Throw e => Throw e
         end.
Proof.
  cbv zeta.
  apply (@report_is_tagged_and_capped_on_the_wire resolving mockConf
           (Some (u "test")) (Some (u "testFunc"))
           [test_entry 0 "Test error" "test1"] 1 (Fin 1000) (Fin 1000)
           (text_of (_formatTimeRange (Fin 1000) (Fin 1000)))
           (text_of (batched_report mockConf (Some (u "testFunc"))
                       [test_entry 0 "Test error" "test1"] 1
                       (text_of (_formatTimeRange (Fin 1000) (Fin 1000)))))
           batching_instance).
  - reflexivity.
  - vm_compute. discriminate.
  - vm_compute. reflexivity.
  - vm_compute. reflexivity.
Defined.

(** ** When a report is cut *)

Lemma cut_is_prefix (heading : jsstring) (before after : list entry)
  (e : entry) (em : jsstring) (done later : list item) (next : item) :
  ToString (errorMessage e) = Ok em ->
  payloads e = done ++ next :: later ->
  heading ++ type_blocks (before ++ e :: after)
  = ((heading ++ type_blocks before) ++ type_heading em e ++ payload_lines done)
      ++ payloadStr next ++ payload_lines later ++ type_blocks after.
Proof.
  intros Hem Hitems. unfold type_blocks. rewrite flat_map_app. cbn [flat_map].
  rewrite (type_block_ok e Hem), Hitems.
  unfold payload_lines. rewrite flat_map_app. cbn [flat_map].
  now rewrite <- !app_assoc.
Qed.

(** X9. A report is cut only when it has to be. For entries whose messages
    convert to strings: when the heading and the first ten error types,
    each with its whole window, fit within [maxMessageLength] ([4000] by
    default), the report is exactly that text, followed by the note on the
    further types when there are more than ten; and when entries with
    windows that are not empty do not fit, the report is a proper
    beginning of that text followed by the truncation marker of one of
    the first ten types. *)
Theorem report_is_cut_only_when_too_long
  (c : conf) (src : option jsstring) (errors : list entry) (total : Z)
  (timeRange : jsstring) :
  (forall e, In e errors -> is_ok (ToString (errorMessage e)) = true) ->
  let whole :=
    report_heading src errors total timeRange ++ type_blocks (firstn 10 errors) in
  ((Z.of_nat (length whole) <= messageLimit c)%Z ->
   batched_report c src errors total timeRange
   = Ok (whole ++ (if Nat.ltb 10 (length errors)
                   then more_types_note errors else [])))
  /\ ((messageLimit c < Z.of_nat (length whole))%Z ->
      errors <> [] ->
      (forall e, In e errors -> payloads e <> []) ->
      exists cut rest e,
        batched_report c src errors total timeRange
        = Ok (cut ++ truncation_marker errors e)
        /\ In e (firstn 10 errors)
        /\ whole = cut ++ rest
        /\ rest <> []).
Proof.
  intros Hmsg. cbv zeta.
  destruct (batched_report_total c src errors total timeRange Hmsg)
    as (report & Hreport).
  rewrite Hreport.
  destruct (batched_report_cases _ _ _ _ _ Hreport)
    as [(Heq & Hfit) | (before & e & after & em & done & next & later
                        & Hsplit & Hem & Hitems & Heq & Hover & _)];
    cbv zeta in *.
  - split.
    + intros _. now rewrite Heq.
    + intros Hlong Hne Hwin. exfalso.
      assert (Hfirst : firstn 10 errors <> []).
      { destruct errors; [congruence | discriminate]. }
      specialize (Hfit Hfirst
                    (fun e He => Hwin e (rendered_among_errors errors e He))).
      lia.
  - assert (Hwhole := cut_is_prefix
                        (report_heading src errors total timeRange)
                        before after e done later next Hem Hitems).
    rewrite <- Hsplit in Hwhole.
    split.
    + intros Hshort. exfalso. rewrite Hwhole in Hshort.
      rewrite !length_app in Hshort. rewrite !length_app in Hover. lia.
    + intros _ _ _.
      exists ((report_heading src errors total timeRange ++ type_blocks before)
                ++ type_heading em e ++ payload_lines done),
        (payloadStr next ++ payload_lines later ++ type_blocks after), e.
      split; [rewrite Heq; now rewrite <- !app_assoc|].
      split; [rewrite Hsplit; apply in_elt|].
      split; [exact Hwhole|].
      unfold payloadStr. discriminate.
Qed.

Lemma report_is_cut_only_when_too_long_witness :
  let c := with_maxMessageLength (Some 150%Z) mockConf in
  let src := Some (u "testFunc") in
  let errors := [test_entry 0 "Test error" "test1"; test_entry 1 "Other" "test2"] in
  let timeRange := u "00:00:01" in
  let whole :=
    report_heading src errors 2 timeRange ++ type_blocks (firstn 10 errors) in
  ((Z.of_nat (length whole) <= messageLimit c)%Z ->
   batched_report c src errors 2 timeRange
   = Ok (whole ++ (if Nat.ltb 10 (length errors)
                   then more_types_note errors else [])))
  /\ ((messageLimit c < Z.of_nat (length whole))%Z ->
      errors <> [] ->
      (forall e, In e errors -> payloads e <> []) ->
      exists cut rest e,
        batched_report c src errors 2 timeRange
        = Ok (cut ++ truncation_marker errors e)
        /\ In e (firstn 10 errors)
        /\ whole = cut ++ rest
        /\ rest <> []).
Proof.
  cbv zeta.
  apply (@report_is_cut_only_when_too_long
           (with_maxMessageLength (Some 150%Z) mockConf)
           (Some (u "testFunc"))
           [test_entry 0 "Test error" "test1"; test_entry 1 "Other" "test2"]
           2 (u "00:00:01")).
  intros e [<-|[<-|[]]]; reflexivity.
Defined.

(** ** What a group adds up *)

Lemma sum_counts_app (a b : list entry) :
  sum_counts (a ++ b) = (sum_counts a + sum_counts b)%Z.
Proof.
  induction a as [|e a IH]; cbn [sum_counts app fold_right]; [reflexivity|].
  fold (sum_counts (a ++ b)). fold (sum_counts a). lia.
Qed.

Lemma group_of_summary (members : list entry) :
  totalCount (group_of members) = sum_counts members
  /\ (members = [] ->
      earliestTime (group_of members) = Infinity
      /\ latestTime (group_of members) = NegInfinity)
  /\ (members <> [] ->
      exists a b,
        earliestTime (group_of members) = Fin a
        /\ latestTime (group_of members) = Fin b
        /\ In a (map firstSeen members)
        /\ In b (map lastSeen members)
        /\ forall e, In e members -> (a <= firstSeen e /\ lastSeen e <= b)%Z).
Proof.
  induction members as [|e members IH] using rev_ind.
  - split; [reflexivity|]. split; [now split | congruence].
  - destruct IH as (Hsum & Hempty & Hfull).
    rewrite group_of_snoc. cbn [add_entry totalCount earliestTime latestTime].
    split; [rewrite sum_counts_app, Hsum; cbn; lia|].
    split; [intros H; now destruct members|]. intros _.
    destruct members as [|m members'].
    + destruct (Hempty eq_refl) as [-> ->]. cbn [num_ltb app].
      exists (firstSeen e), (lastSeen e).
      split; [reflexivity|]. split; [reflexivity|].
      split; [now left|]. split; [now left|].
      intros e0 [<-|[]]. lia.
    + destruct Hfull as (a & b & -> & -> & Ha & Hb & Hall); [discriminate|].
      cbn [num_ltb]. rewrite !map_app.
      exists (if (firstSeen e <? a)%Z then firstSeen e else a),
        (if (b <? lastSeen e)%Z then lastSeen e else b).
      split; [now destruct (firstSeen e <? a)%Z|].
      split; [now destruct (b <? lastSeen e)%Z|].
      split.
      { apply in_or_app. destruct (firstSeen e <? a)%Z;
          [right; now left | now left]. }
      split.
      { apply in_or_app. destruct (b <? lastSeen e)%Z;
          [right; now left | now left]. }
      intros e0 He0. apply in_app_or in He0.
      destruct (Z.ltb_spec (firstSeen e) a), (Z.ltb_spec b (lastSeen e));
        destruct He0 as [He0|[<-|[]]];
        try (specialize (Hall _ He0)); lia.
Qed.

Lemma indicator_sum (x : jsstring) (v : Z) (keys : list jsstring) :
  NoDup keys -> In x keys ->
  fold_right (fun k acc => ((if jsstring_eqb x k then v else 0) + acc)%Z) 0%Z keys
  = v.
Proof.
  induction keys as [|k keys IH]; intros Hnd Hin; [contradiction|].
  inversion Hnd as [|? ? Hk Hnd']; subst. cbn [fold_right].
  destruct Hin as [->|Hin].
  - rewrite jsstring_eqb_refl.
    assert (Hrest : fold_right
              (fun k acc => ((if jsstring_eqb x k then v else 0) + acc)%Z)
              0%Z keys = 0%Z).
    { clear IH Hnd Hnd'. induction keys as [|k keys IH]; [reflexivity|].
      cbn [fold_right].
      assert (Hne : jsstring_eqb x k = false).
      { apply jsstring_eqb_neq. intros ->. apply Hk. now left. }
      rewrite Hne, IH; [reflexivity|]. intros H. apply Hk. now right. }
    rewrite Hrest. lia.
  - assert (Hne : jsstring_eqb x k = false).
    { apply jsstring_eqb_neq. intros ->. contradiction. }
    rewrite Hne, (IH Hnd' Hin). lia.
Qed.

Lemma sum_over_keys (keys : list jsstring) (entries : list entry) :
  NoDup keys ->
  (forall e, In e entries -> In (group_key e) keys) ->
  fold_right (fun k acc => (sum_counts (members_of k entries) + acc)%Z) 0%Z keys
  = sum_counts entries.
Proof.
  intros Hnd. induction entries as [|e entries IH]; intros Hkeys.
  - cbn [members_of filter sum_counts fold_right].
    induction keys as [|k keys IHk]; [reflexivity|].
    cbn [fold_right]. inversion Hnd; subst. now rewrite IHk.
  - cbn [sum_counts fold_right]. fold (sum_counts entries).
    rewrite <- IH by (intros e0 He0; apply Hkeys; now right).
    pose proof (indicator_sum (group_key e) (count e) Hnd
                  (Hkeys e (or_introl eq_refl))) as Hind.
    rewrite <- Hind at 1.
    clear. induction keys as [|k keys IHk]; [reflexivity|].
    cbn [fold_right]. rewrite IHk.
    unfold members_of at 1. cbn [filter]. fold (members_of k entries).
    destruct (jsstring_eqb (group_key e) k); cbn [sum_counts fold_right];
      fold (sum_counts (members_of k entries)); lia.
Qed.

(** X10. The flush groups the entries of the store by group key, each
    entry in exactly one group: the keys of the groups are distinct, the
    group of a key lists exactly the entries with that key, in the order
    of the store, and is never empty. Its total is the sum of their
    counts, its earliest time the least of their first-seen times and its
    latest time the greatest of their last-seen times. *)
Theorem groups_partition_and_sum_up (entries : list entry) :
  NoDup (map fst (group_entries entries))
  /\ (forall e, In e entries ->
        exists g, In (group_key e, g) (group_entries entries))
  /\ forall k g, In (k, g) (group_entries entries) ->
       errors g = filter (fun e => jsstring_eqb (group_key e) k) entries
       /\ errors g <> []
       /\ totalCount g = sum_counts (errors g)
       /\ exists a b,
            earliestTime g = Fin a /\ latestTime g = Fin b
            /\ In a (map firstSeen (errors g))
            /\ In b (map lastSeen (errors g))
            /\ forall e, In e (errors g) ->
                 (a <= firstSeen e /\ lastSeen e <= b)%Z.
Proof.
  rewrite group_entries_closed_form. split; [|split].
  - rewrite map_map. cbn [fst]. rewrite map_id. apply NoDup_distinct.
  - intros e He. exists (group_of (members_of (group_key e) entries)).
    apply in_map_iff. exists (group_key e). split; [reflexivity|].
    apply In_distinct. now apply in_map.
  - intros k g Hin. apply in_map_iff in Hin.
    destruct Hin as (k' & [= <- <-] & Hk).
    destruct (members_of_head _ _ Hk) as (first & rest & Hmem & _ & _).
    rewrite group_of_errors.
    destruct (group_of_summary (members_of k' entries)) as (Hsum & _ & Hfull).
    split; [reflexivity|]. split; [rewrite Hmem; discriminate|].
    split; [exact Hsum|]. apply Hfull. rewrite Hmem. discriminate.
Qed.

(** X11. No occurrence is lost or counted twice by the grouping: the
    totals of the groups of a flush add up to the sum of the counts of the
    entries of the store. *)
Theorem group_totals_add_up (entries : list entry) :
  fold_right (fun g acc => (totalCount g + acc)%Z) 0%Z
    (map snd (group_entries entries))
  = sum_counts entries.
Proof.
  rewrite group_entries_closed_form, map_map. cbn [snd].
  rewrite <- (sum_over_keys entries (NoDup_distinct (map group_key entries))).
  - induction (distinct (map group_key entries)) as [|k keys IH]; [reflexivity|].
    cbn [map fold_right]. rewrite IH.
    now rewrite (proj1 (group_of_summary (members_of k entries))).
  - intros e He. apply In_distinct. now apply in_map.
Qed.

(** ** Errors that are not [Error] objects *)

(** X12. An error that is [null] or [undefined] never creates an entry.
    On an initialised instance its fingerprint is that of the message
    ['Unknown error']; when the store holds no entry under it, the call
    leaves the store as it is and logs the error directly, once, with the
    source and the payload before the extras; when the store holds one,
    the call is counted in that entry and nothing is logged. *)
Theorem nullish_error_is_never_queued_fresh
  (w : world) (c : conf) (now : Z) (reqChannel : option jsstring) (err : value)
  (sourceName : option jsstring) (payload : value) (extra : list value)
  (st : state) (batch : store) :
  errorBatch st = Some batch ->
  nullish err = true ->
  let ch := channel_or_default c reqChannel in
  let src := match sourceName with None => Some (u "unknown") | _ => sourceName end in
  let key := _createErrorGroupKey ch src ++ u ":" ++ sha1_hex (u "Unknown error") in
  let r := logErrorEnqueue w c now reqChannel err sourceName payload extra st in
  _createErrorKey ch err sourceName = Ok key
  /\ (assoc_get key batch = None ->
      errorBatch (snd r) = Some batch
      /\ exists what rest,
           trace (snd r)
           = trace st
               ++ ConsoleError what
                    :: LogErrorCall ch err (value_of sourceName :: payload :: extra)
                    :: rest
           /\ forall ev, In ev rest -> exists rq, ev = Request rq)
  /\ (forall e, assoc_get key batch = Some e ->
        fst r = Ok VUndefined
        /\ trace (snd r) = trace st
        /\ exists batch',
             errorBatch (snd r) = Some batch'
             /\ map fst batch' = map fst batch
             /\ assoc_get key batch'
                = Some (push_payload now {| payload := payload; extras := extra |} e)).
Proof.
  intros Hst Hnull. cbv zeta.
  assert (Hkey : _createErrorKey (channel_or_default c reqChannel) err sourceName
                 = Ok (_createErrorGroupKey (channel_or_default c reqChannel)
                         match sourceName with
                         | None => Some (u "unknown")
                         | _ => sourceName
                         end ++ u ":" ++ sha1_hex (u "Unknown error"))).
  { unfold _createErrorKey, errorMsg_of. rewrite Hnull. reflexivity. }
  split; [exact Hkey|].
  rewrite (logErrorEnqueue_batching w c now reqChannel err sourceName payload
             extra st Hst).
  cbv zeta. fold (channel_or_default c reqChannel). rewrite Hkey.
  split.
  - intros Hget. rewrite Hget, Hnull.
    destruct (direct_log_effect w c
                "Error batching failed, falling back to direct log"%string
                (channel_or_default c reqChannel) err
                (value_of sourceName :: payload :: extra) st)
      as (Hsnd & _ & _ & Hb & _ & rest & Htr & Hrest).
    cbv zeta in *. rewrite Hsnd. split; [now rewrite Hb|].
    exists "Error batching failed, falling back to direct log"%string, rest.
    split; [exact Htr|].
    intros ev Hev. destruct Hrest as [[-> _]|(rq & -> & _)]; [contradiction|].
    destruct Hev as [<-|[]]. now exists rq.
  - intros e Hget. rewrite Hget. cbn [fst snd trace errorBatch].
    split; [reflexivity|]. split; [reflexivity|].
    eexists. split; [reflexivity|]. split; [apply assoc_modify_keys|].
    rewrite assoc_get_modify, jsstring_eqb_refl, Hget. reflexivity.
Qed.

Lemma nullish_error_is_never_queued_fresh_witness :
  let c := mockConf in
  let st := batching_instance in
  let ch := channel_or_default c None in
  let src := Some (u "unknown") in
  let key := _createErrorGroupKey ch src ++ u ":" ++ sha1_hex (u "Unknown error") in
  let r := logErrorEnqueue resolving c 1000 None VNull None (VObj []) [] st in
  _createErrorKey ch VNull None = Ok key
  /\ (assoc_get key (@nil (jsstring * entry)) = None ->
      errorBatch (snd r) = Some []
      /\ exists what rest,
           trace (snd r)
           = trace st
               ++ ConsoleError what
                    :: LogErrorCall ch VNull (value_of None :: VObj [] :: [])
                    :: rest
           /\ forall ev, In ev rest -> exists rq, ev = Request rq)
  /\ (forall e, assoc_get key (@nil (jsstring * entry)) = Some e ->
        fst r = Ok VUndefined
        /\ trace (snd r) = trace st
        /\ exists batch',
             errorBatch (snd r) = Some batch'
             /\ map fst batch' = map fst (@nil (jsstring * entry))
             /\ assoc_get key batch'
                = Some (push_payload 1000 {| payload := VObj []; extras := [] |} e)).
Proof.
  cbv zeta.
  apply (@nullish_error_is_never_queued_fresh resolving mockConf 1000 None VNull
           None (VObj []) [] batching_instance []).
  - reflexivity.
  - reflexivity.
Defined.

(** ** What a call leaves alone *)



(** X14. An error given as a primitive (a string, a number, a boolean) is
    fingerprinted by its text, but the entry created for it keeps
    [err.message], which is [undefined]: the report shows the type as
    [undefined], whatever the text was. *)
Theorem primitive_error_is_reported_as_undefined
  (w : world) (c : conf) (now : Z) (reqChannel : option jsstring) (p : prim)
  (sourceName : option jsstring) (payload : value) (extra : list value)
  (st : state) (batch : store) :
  errorBatch st = Some batch ->
  nullish (VPrim p) = false ->
  let ch := channel_or_default c reqChannel in
  let src := match sourceName with None => Some (u "unknown") | _ => sourceName end in
  let text :=
    match prim_to_string p with [] => u "Unknown error" | _ => prim_to_string p end in
  let key := _createErrorGroupKey ch src ++ u ":" ++ sha1_hex text in
  let r := logErrorEnqueue w c now reqChannel (VPrim p) sourceName payload extra st in
  assoc_get key batch = None ->
  _createErrorKey ch (VPrim p) sourceName = Ok key
  /\ exists batch' e,
       errorBatch (snd r) = Some batch'
       /\ assoc_get key batch' = Some e
       /\ errorMessage e = VUndefined
       /\ type_block e
          = (bullet ++ u " *undefined* (1x)" ++ nl) ++ (u "  Payloads:" ++ nl)
              ++ payloadStr {| payload := payload; extras := extra |}.
Proof.
  intros Hst Hnull. cbv zeta. intros Hget.
  set (ch := channel_or_default c reqChannel) in *.
  assert (Hkey : _createErrorKey ch (VPrim p) sourceName
                 = Ok (_createErrorGroupKey ch
                         match sourceName with
                         | None => Some (u "unknown")
                         | _ => sourceName
                         end
                         ++ u ":"
                         ++ sha1_hex match prim_to_string p with
                                     | [] => u "Unknown error"
                                     | _ => prim_to_string p
                                     end)).
  { unfold _createErrorKey, errorMsg_of. rewrite Hnull.
    cbn [message_of truthy call_toString ToString obind hash_update VStr].
    reflexivity. }
  split; [exact Hkey|].
  rewrite (logErrorEnqueue_batching w c now reqChannel (VPrim p) sourceName
             payload extra st Hst).
  cbv zeta. fold (channel_or_default c reqChannel). fold ch.
  rewrite Hkey, Hget, Hnull.
  eexists. eexists. cbn [snd errorBatch]. split; [reflexivity|].
  rewrite assoc_get_set, jsstring_eqb_refl. split; [reflexivity|].
  split; [reflexivity|].
  unfold type_block, new_entry. cbn [errorMessage message_of ToString VUndefined
    prim_to_string payloads payload_lines flat_map].
  rewrite app_nil_r. reflexivity.
Qed.

Lemma primitive_error_is_reported_as_undefined_witness :
  let ch := channel_or_default mockConf (Some (u "alerts")) in
  let src := Some (u "job") in
  let text := u "disk full" in
  let key := _createErrorGroupKey ch src ++ u ":" ++ sha1_hex text in
  let r := logErrorEnqueue resolving mockConf 1000 (Some (u "alerts"))
             (VPrim (PStr (u "disk full"))) (Some (u "job")) (VObj []) []
             batching_instance in
  _createErrorKey ch (VPrim (PStr (u "disk full"))) (Some (u "job")) = Ok key
  /\ exists batch' e,
       errorBatch (snd r) = Some batch'
       /\ assoc_get key batch' = Some e
       /\ errorMessage e = VUndefined
       /\ type_block e
          = (bullet ++ u " *undefined* (1x)" ++ nl) ++ (u "  Payloads:" ++ nl)
              ++ payloadStr {| payload := VObj []; extras := [] |}.
Proof.
  cbv zeta.
  apply (@primitive_error_is_reported_as_undefined resolving mockConf 1000
           (Some (u "alerts")) (PStr (u "disk full")) (Some (u "job"))
           (VObj []) [] batching_instance []).
  - reflexivity.
  - reflexivity.
  - reflexivity.
Defined.

(** ** The shape of a fingerprint *)

Lemma be_bytes_length (n : nat) (x : N) : length (Sha1.be_bytes n x) = n.
Proof.
  revert x. induction n as [|n IH]; intros x; cbn [Sha1.be_bytes]; [reflexivity|].
  rewrite length_app, IH. cbn. lia.
Qed.

Lemma digest_length (msg : list N) : length (Sha1.digest msg) = 20%nat.
Proof.
  unfold Sha1.digest.
  destruct (Sha1.blocks _ _ _) as [[[[h0 h1] h2] h3] h4].
  rewrite !length_app, !be_bytes_length. reflexivity.
Qed.

Lemma hex_length (bytes : list N) :
  length (Sha1.hex bytes) = (2 * length bytes)%nat.
Proof.
  unfold Sha1.hex. induction bytes as [|b bytes IH]; [reflexivity|].
  cbn [flat_map length app]. rewrite IH. lia.
Qed.

Lemma sha1_hex_length (s : jsstring) : length (sha1_hex s) = 40%nat.
Proof. unfold sha1_hex. now rewrite hex_length, digest_length. Qed.

Lemma same_length_suffix (a a' b b' : jsstring) :
  length b = length b' -> a ++ b = a' ++ b' -> a = a' /\ b = b'.
Proof.
  intros Hlen Heq.
  assert (Hla : length a = length a').
  { apply (f_equal (@length N)) in Heq. rewrite !length_app in Heq. lia. }
  split.
  - apply (f_equal (firstn (length a))) in Heq.
    rewrite firstn_app, firstn_all, Nat.sub_diag, firstn_O, app_nil_r in Heq.
    rewrite Hla, firstn_app, firstn_all, Nat.sub_diag, firstn_O, app_nil_r in Heq.
    exact Heq.
  - apply (f_equal (skipn (length a))) in Heq.
    rewrite skipn_app, skipn_all, Nat.sub_diag, skipn_O in Heq.
    rewrite Hla, skipn_app, skipn_all, Nat.sub_diag, skipn_O in Heq.
    exact Heq.
Qed.

(** X15. A fingerprint is the group key, a colon and the forty
    hexadecimal digits of the hash. So two calls that get the same
    fingerprint have the same group key and the same hash; and when their
    channels hold no colon, they have the same channel and the same
    source: an entry never mixes the errors of two sources or of two such
    channels. *)
Theorem fingerprint_tells_pairs_apart
  (c1 c2 : option jsstring) (s1 s2 : jsstring) (e1 e2 : value) (key : jsstring) :
  _createErrorKey c1 e1 (Some s1) = Ok key ->
  _createErrorKey c2 e2 (Some s2) = Ok key ->
  (exists hash,
     length hash = 40%nat
     /\ key = _createErrorGroupKey c1 (Some s1) ++ u ":" ++ hash
     /\ key = _createErrorGroupKey c2 (Some s2) ++ u ":" ++ hash)
  /\ _createErrorGroupKey c1 (Some s1) = _createErrorGroupKey c2 (Some s2)
  /\ forall x1 x2, c1 = Some x1 -> c2 = Some x2 ->
       ~ In 58%N x1 -> ~ In 58%N x2 -> x1 = x2 /\ s1 = s2.
Proof.
  unfold _createErrorKey. cbv beta zeta iota. intros H1 H2.
  destruct (errorMsg_of e1) as [m1|] ; [|discriminate].
  destruct (errorMsg_of e2) as [m2|] ; [|discriminate].
  cbn [obind] in H1, H2.
  destruct (hash_update m1) as [d1|]; [|discriminate].
  destruct (hash_update m2) as [d2|]; [|discriminate].
  cbn [obind] in H1, H2. injection H1 as H1. injection H2 as H2.
  change (u ":") with [58%N]. cbn [app].
  assert (Heq : _createErrorGroupKey c1 (Some s1) ++ 58%N :: sha1_hex d1
                = _createErrorGroupKey c2 (Some s2) ++ 58%N :: sha1_hex d2)
    by congruence.
  apply same_length_suffix in Heq;
    [|cbn [length]; now rewrite !sha1_hex_length].
  destruct Heq as [Hg Hh]. injection Hh as Hh.
  split; [|split].
  - exists (sha1_hex d1). split; [apply sha1_hex_length|].
    split; [now symmetry|]. now rewrite <- H2, Hh.
  - exact Hg.
  - intros x1 x2 -> -> Hx1 Hx2.
    unfold _createErrorGroupKey in Hg. cbn [tmpl] in Hg.
    change (u ":") with [58%N] in Hg. cbn [app] in Hg.
    exact (colon_free_prefix _ _ _ _ Hx1 Hx2 Hg).
Qed.

Lemma fingerprint_tells_pairs_apart_witness :
  let c1 := Some (u "alerts") in
  let e1 := VError (u "boom") in
  let e2 := VObj [(u "message", VStr (u "boom"))] in
  let key := text_of (_createErrorKey c1 e1 (Some (u "job"))) in
  (exists hash,
     length hash = 40%nat
     /\ key = _createErrorGroupKey c1 (Some (u "job")) ++ u ":" ++ hash
     /\ key = _createErrorGroupKey c1 (Some (u "job")) ++ u ":" ++ hash)
  /\ _createErrorGroupKey c1 (Some (u "job"))
     = _createErrorGroupKey c1 (Some (u "job"))
  /\ forall x1 x2, c1 = Some x1 -> c1 = Some x2 ->
       ~ In 58%N x1 -> ~ In 58%N x2 -> x1 = x2 /\ u "job" = u "job".
Proof.
  cbv zeta.
  apply (@fingerprint_tells_pairs_apart (Some (u "alerts")) (Some (u "alerts"))
           (u "job") (u "job") (VError (u "boom"))
           (VObj [(u "message", VStr (u "boom"))])
           (text_of (_createErrorKey (Some (u "alerts")) (VError (u "boom"))
                       (Some (u "job"))))).
  - vm_compute. reflexivity.
  - vm_compute. reflexivity.
Defined.

(** ** Shutdown *)

(** X16. [_stop] always resolves: it leaves no timer, calls [super._stop]
    exactly once, and does to the instance what a flush does, no more: its
    own [catch] never runs, since a flush does not reject. Timers apart, a
    stopped instance can be stopped again, which only calls [super._stop]
    once more. *)
Theorem stop_flushes_and_stops_once
  (w : world) (c : conf) (l : lifecycle) (st : state) :
  let '(r, l', st') := _stop w c l st in
  r = Ok tt
  /\ errorBatchTimer l' = None
  /\ base_stops l' = S (base_stops l)
  /\ st' = snd (_processBatchedErrors w c st)
  /\ _stop w c l' st' = (Ok tt, {| errorBatchTimer := None;
                                   base_stops := S (S (base_stops l)) |}, st').
Proof.
  unfold _stop, try_catch.
  destruct (flush_outcome w c st) as (st1 & Hflush & Hempty).
  rewrite Hflush. cbn [snd].
  assert (Hagain : _processBatchedErrors w c st1 = (Ok tt, st1)).
  { unfold _processBatchedErrors. now destruct Hempty as [-> | ->]. }
  destruct (errorBatchTimer l) as [period|] eqn:Htimer;
    cbn [errorBatchTimer base_stops]; rewrite ?Htimer, Hagain;
    repeat split; reflexivity.
Qed.

(** ** An instance without batching *)

Lemma logged_requests_only (tr : list event) (evs : list event) :
  (forall ev, In ev evs -> exists rq, ev = Request rq) ->
  logged (tr ++ evs) = logged tr.
Proof.
  intros Hevs. rewrite logged_app.
  assert (Hnone : logged evs = []).
  { induction evs as [|ev evs IH]; [reflexivity|].
    destruct (Hevs ev (or_introl eq_refl)) as (rq & ->).
    cbn. apply IH. intros ev' Hin. apply Hevs. now right. }
  rewrite Hnone. apply app_nil_r.
Qed.

(** X17. An instance built without batching never gets a store: whatever
    calls and flushes it goes through, [logErrorEnqueue] logs each error
    directly, with the channel it was given, and the source and the
    payload before the extras; a flush does nothing. The calls of
    [logError] made are, in order, those direct logs and the calls of
    [logError] of the caller. *)
Theorem instance_without_batching_logs_directly
  (w : world) (c : conf) (ops : list op) (st : state) :
  errorBatch st = None ->
  errorBatch (run w c ops st) = None
  /\ logged (trace (run w c ops st)) = logged (trace st) ++ direct_calls ops.
Proof.
  revert st. induction ops as [|o ops IH]; intros st Hst; cbn [run].
  - split; [exact Hst|]. cbn. now rewrite app_nil_r.
  - assert (Hstep : errorBatch (step w c o st) = None
                    /\ logged (trace (step w c o st))
                       = logged (trace st) ++ direct_calls [o]).
    { destruct o as [k| |reqChannel text|reqChannel err extra]; cbn [step].
      - unfold enqueue, logErrorEnqueue. rewrite Hst.
        destruct (direct_log_effect w c
                    "Error batching not initialized, falling back to direct log"%string
                    (call_channel k) (call_err k)
                    (value_of (call_source k) :: call_payload k :: call_extra k) st)
          as (_ & _ & _ & Hb & _ & rest & Htr & Hrest).
        cbv zeta in *. split; [now rewrite Hb|].
        rewrite Htr.
        change (trace st ++ ConsoleError
                  "Error batching not initialized, falling back to direct log"
                  :: LogErrorCall (call_channel k) (call_err k)
                       (value_of (call_source k) :: call_payload k :: call_extra k)
                  :: rest)
          with (trace st ++ [ConsoleError
                  "Error batching not initialized, falling back to direct log";
                  LogErrorCall (call_channel k) (call_err k)
                       (value_of (call_source k) :: call_payload k :: call_extra k)]
                  ++ rest).
        rewrite app_assoc, logged_requests_only.
        + rewrite logged_app. reflexivity.
        + intros ev Hev. destruct Hrest as [[-> _]|(rq & -> & _)]; [contradiction|].
          destruct Hev as [<-|[]]. now exists rq.
      - unfold _processBatchedErrors. rewrite Hst. cbn [snd].
        split; [exact Hst|]. cbn. now rewrite app_nil_r.
      - unfold message.
        destruct (negb (enable c)); cbn [ret snd grc_req errorBatch trace].
        + split; [exact Hst|]. cbn. now rewrite app_nil_r.
        + split; [exact Hst|]. rewrite logged_app. cbn. now rewrite app_nil_r.
      - destruct (logError_effect w c reqChannel err extra st)
          as (Hb & _ & Hcase). cbv zeta in *.
        split; [now rewrite Hb|].
        destruct Hcase as [(_ & -> & _) | (_ & rq & -> & _)];
          rewrite logged_app; reflexivity. }
    destruct Hstep as [Hnone Hlog].
    destruct (IH _ Hnone) as [Hb Htr].
    split; [exact Hb|]. rewrite Htr, Hlog.
    cbn [direct_calls flat_map]. rewrite app_nil_r, <- app_assoc. reflexivity.
Qed.

Lemma instance_without_batching_logs_directly_witness :
  let ops := [Enqueue (test_call 1000 "channel1" "Error 1" "func1" "test1");
              Flush;
              LogError (Some (u "alerts")) (VError (u "boom")) [VNum 1]] in
  errorBatch (run rejecting mockConf ops plain_instance) = None
  /\ logged (trace (run rejecting mockConf ops plain_instance))
     = logged (trace plain_instance) ++ direct_calls ops.
Proof.
  cbv zeta.
  apply (@instance_without_batching_logs_directly rejecting mockConf
           [Enqueue (test_call 1000 "channel1" "Error 1" "func1" "test1");
            Flush;
            LogError (Some (u "alerts")) (VError (u "boom")) [VNum 1]]
           plain_instance).
  reflexivity.
Defined.

(** ** The text of a message *)

(** X18. With dispatch enabled, [message] makes one request, on the
    channel given (the configured one when it is falsy), and resolves or
    rejects as the transport does. Its text is the environment prefix and
    the message, whole when they are within [max_length]; cut to their
    first [max_length] code units otherwise; and, when [max_length] is
    negative, always cut, by as many code units at the end. *)
Theorem message_sends_capped_text
  (w : world) (c : conf) (reqChannel : option jsstring) (text : jsstring)
  (st : state) :
  enable c = true ->
  let cap := or_num (max_length c) 1024 in
  let raw := env_prefix c ++ text in
  exists rq,
    message w c reqChannel text st
    = (req w (trace st) rq,
       {| errorBatch := errorBatch st; fresh := fresh st;
          trace := trace st ++ [Request rq] |})
    /\ req_channel rq = channel_or_default c reqChannel
    /\ req_text rq
       = (if (0 <=? cap)%Z then firstn (Z.to_nat cap) raw
          else firstn (length raw - Z.to_nat (- cap)) raw)
    /\ ((Z.of_nat (length raw) <= cap)%Z -> req_text rq = raw).
Proof.
  intros Hen. cbv zeta. unfold message. rewrite Hen. cbn [negb]. cbv zeta.
  change (if truthy_str (env c) then u "Env: " ++ tmpl (env c) ++ u ", " else [])
    with (env_prefix c).
  set (raw := env_prefix c ++ text).
  set (cap := or_num (max_length c) 1024).
  eexists. split; [reflexivity|]. cbn [req_channel req_text].
  split; [reflexivity|]. split.
  - unfold slice0.
    destruct (Z.ltb_spec cap (Z.of_nat (length raw))),
      (Z.ltb_spec cap 0), (Z.leb_spec 0 cap); try lia; try reflexivity.
    + f_equal. lia.
    + symmetry. apply firstn_all2. lia.
  - intros Hfit. destruct (Z.ltb_spec cap (Z.of_nat (length raw))); [lia|].
    reflexivity.
Qed.

Lemma message_sends_capped_text_witness :
  let c := mockConf in
  let cap := or_num (max_length c) 1024 in
  let raw := env_prefix c ++ u "hello" in
  exists rq,
    message resolving c None (u "hello") batching_instance
    = (req resolving (trace batching_instance) rq,
       {| errorBatch := errorBatch batching_instance;
          fresh := fresh batching_instance;
          trace := trace batching_instance ++ [Request rq] |})
    /\ req_channel rq = channel_or_default c None
    /\ req_text rq
       = (if (0 <=? cap)%Z then firstn (Z.to_nat cap) raw
          else firstn (length raw - Z.to_nat (- cap)) raw)
    /\ ((Z.of_nat (length raw) <= cap)%Z -> req_text rq = raw).
Proof.
  cbv zeta.
  apply (@message_sends_capped_text resolving mockConf None (u "hello")
           batching_instance).
  reflexivity.
Defined.
